(** * packrattle: the parser graph and its resolution (src/parser.ts)

    A shallow embedding of [Parser], [unlazy], [Parser.resolve],
    [Parser.getDescription], [Parser.toString], [Parser.inspect],
    [Parser.map], [Parser.execute], [Parser.consume] and [Parser.run].
    Parser objects live in a store addressed by location;
    the module-level variables [ParserId], [__cache] and [LazyId] are
    fields of the [World]; the per-pass [FunctionCache] is threaded next to
    it.  JavaScript exceptions are the [Throw] completion. *)

From stdpp Require Import gmap strings list fin_maps pretty relations.

Set Warnings "-register-all".

Open Scope string_scope.

(** ** Values, spans and matches *)

(** Run-time values produced by transforms.  [VReject] is the library's
    exported sentinel [reject] (its definition is outside parser.ts). *)
Inductive value :=
| VUndefined
| VNull
| VBool (b : bool)
| VNum (n : Z)
| VStr (s : string)
| VArr (vs : list value)
| VReject.

Definition Sequence := list value.

(** Modelled from the spec: [Span] (matcher.ts is not part of the sources),
    a half-open range of positions. *)
Record Span := mkSpan { span_start : nat; span_end : nat }.

(** Modelled from the spec: [Match], the two-variant sum [MatchSuccess] /
    [MatchFailure] of matcher.ts. *)
Inductive Match :=
| MatchSuccess (span : Span) (v : value)
| MatchFailure (message : string) (span : Span).

Abbreviation loc := nat.

(** A JavaScript reference to a Parser object, or [undefined]. *)
Inductive jsref :=
| Undefined
| Ref (p : loc).

(** Modelled from the spec: [MatchResult], what a matcher or a
    continuation hands back: a finished [Match], or a request made through
    [schedule parser index continuation]. *)
Inductive MatchResult :=
| Done (m : Match)
| Schedule (parser : jsref) (index : nat) (k : Match -> MatchResult).

Definition schedule (parser : jsref) (index : nat) (k : Match -> MatchResult)
  : MatchResult := Schedule parser index k.

(** Modelled from the spec: [mapMatch match f] applies [f span value] on
    the success branch only and hands a [MatchFailure] back unchanged. *)
Definition mapMatch (m : Match) (f : Span -> value -> MatchResult) : MatchResult :=
  match m with
  | MatchFailure _ _ => Done m
  | MatchSuccess span v => f span v
  end.

Definition Matcher := Sequence -> nat -> MatchResult.

(** ** Exceptions and completions *)

Inductive Exn :=
| Error (message : string)
| TypeError (message : string)
| ParseError (message : string) (span : Span).

Definition message (e : Exn) : string :=
  match e with
  | Error m => m
  | TypeError m => m
  | ParseError m _ => m
  end.

(** [error.message += s] *)
Definition append_message (e : Exn) (s : string) : Exn :=
  match e with
  | Error m => Error (m +:+ s)
  | TypeError m => TypeError (m +:+ s)
  | ParseError m sp => ParseError (m +:+ s) sp
  end.

(** How a call ends: it returns, it throws, or the model gives up
    ([Abort]: the fuel ran out, or a location is not in the store). *)
Inductive completion (A : Type) :=
| Normal (a : A)
| Throw (e : Exn)
| Abort.
Arguments Normal {A} a.
Arguments Throw {A} e.
Arguments Abort {A}.

Definition is_normal {A} (c : completion A) : bool :=
  match c with Normal _ => true | _ => false end.

(** State-and-exception plumbing. *)
Definition M (S A : Type) := S -> completion A * S.

Definition ret {S A} (a : A) : M S A := fun s => (Normal a, s).
Definition throw {S A} (e : Exn) : M S A := fun s => (Throw e, s).
Definition abort {S A} : M S A := fun s => (Abort, s).

Definition bind {S A B} (m : M S A) (k : A -> M S B) : M S B :=
  fun s =>
    match m s with
    | (Normal a, s1) => k a s1
    | (Throw e, s1) => (Throw e, s1)
    | (Abort, s1) => (Abort, s1)
    end.

Notation "'let*' x ':=' m 'in' k" := (bind m (fun x => k))
  (at level 10, x pattern, m at level 100, k at level 200).

(** [Array.prototype.map] with an effectful callback: left to right, the
    first exception ends the loop. *)
Fixpoint mapM {S A B} (f : A -> M S B) (l : list A) : M S (list B) :=
  match l with
  | [] => ret []
  | x :: l' =>
      let* y := f x in
      let* ys := mapM f l' in
      ret (y :: ys)
  end.

(** ** Lazy parser references *)

(** [LazyParser]: a string, a RegExp, an array, a Parser, or a
    zero-argument function; JavaScript being untyped, also anything else
    ([LOther], with its truthiness and its rendering as a string). *)
Inductive LazyParser :=
| LString (s : string)
| LRegExp (source : string)
| LArray (items : list LazyParser)
| LParser (p : loc)
| LFunction (t : nat)
| LOther (truthy : bool) (shown : string).

Definition truthy (s : string) : bool :=
  match s with EmptyString => false | String _ _ => true end.

Definition truthy_opt (o : option string) : bool :=
  match o with Some s => truthy s | None => false end.

Definition truthy_lazy (v : LazyParser) : bool :=
  match v with
  | LString s => truthy s
  | LOther b _ => b
  | _ => true
  end.

Module ParserOptions.
Record t := mk {
  children : option (list LazyParser);
  describe : option (list string -> string);
  cacheable : bool
}.
End ParserOptions.

Module Parser.
Record t := mk {
  id : nat;
  name : string;
  options : option ParserOptions.t;
  generateMatcher : option (list jsref -> Matcher);
  children : option (list jsref);
  matcher : option Matcher;
  description : option string;
  cacheKey : option string;
  recursing : bool
}.

Definition set_children (cs : list jsref) (o : t) : t :=
  mk (id o) (name o) (options o) (generateMatcher o) (Some cs)
     (matcher o) (description o) (cacheKey o) (recursing o).
Definition set_description (d : string) (o : t) : t :=
  mk (id o) (name o) (options o) (generateMatcher o) (children o)
     (matcher o) (Some d) (cacheKey o) (recursing o).
Definition set_cacheKey (k : string) (o : t) : t :=
  mk (id o) (name o) (options o) (generateMatcher o) (children o)
     (matcher o) (description o) (Some k) (recursing o).
Definition set_recursing (b : bool) (o : t) : t :=
  mk (id o) (name o) (options o) (generateMatcher o) (children o)
     (matcher o) (description o) (cacheKey o) b.
(** [this.matcher = m; delete this.options; delete this.generateMatcher] *)
Definition set_matcher (m : Matcher) (o : t) : t :=
  mk (id o) (name o) None None (children o)
     (Some m) (description o) (cacheKey o) (recursing o).
End Parser.

(** The zero-argument functions of a grammar.  A body returns a reference
    it closes over, builds one new Parser and returns it, or throws. *)
Inductive FunctionBody :=
| ReturnRef (v : LazyParser)
| ReturnNew (name : string) (options : ParserOptions.t)
            (generateMatcher : list jsref -> Matcher)
| ThrowError (message : string).

(** A function object: its [__packrattle_cache_id] property ([tag]), its
    body, its source text (what string concatenation shows), and a count
    of its invocations. *)
Record LazyFunction := mkFunction {
  tag : option string;
  body : FunctionBody;
  source : string;
  calls : nat
}.

Abbreviation FunctionCache := (gmap string LazyParser).

Record World := mkWorld {
  heap : list Parser.t;
  ParserId : nat;
  __cache : gmap string loc;
  LazyId : nat;
  functions : list LazyFunction
}.

Definition State : Type := FunctionCache * World.

(** [let ParserId = 1; const __cache = {}; let LazyId = 0] *)
Definition init_world : World := mkWorld [] 1 ∅ 0 [].

Definition set_heap (h : list Parser.t) (w : World) : World :=
  mkWorld h (ParserId w) (__cache w) (LazyId w) (functions w).
Definition set_cache (c : gmap string loc) (w : World) : World :=
  mkWorld (heap w) (ParserId w) c (LazyId w) (functions w).
Definition set_functions (fs : list LazyFunction) (w : World) : World :=
  mkWorld (heap w) (ParserId w) (__cache w) (LazyId w) fs.

(** Assignment to fields of the object at [p]. *)
Definition update (p : loc) (f : Parser.t -> Parser.t) (w : World) : World :=
  set_heap (alter f p (heap w)) w.
Arguments update : simpl never.

(** [new Parser(name, options, generateMatcher)]: [this.id = ParserId++]. *)
Definition newParser (name : string) (options : ParserOptions.t)
    (generateMatcher : list jsref -> Matcher) (w : World) : loc * World :=
  let o := Parser.mk (ParserId w) name (Some options) (Some generateMatcher)
                     None None None None false in
  (length (heap w),
   mkWorld (heap w ++ [o]) (S (ParserId w)) (__cache w) (LazyId w) (functions w)).

(** A new function object enters the program. *)
Definition newFunction (b : FunctionBody) (src : string) (w : World) : nat * World :=
  (length (functions w),
   set_functions (functions w ++ [mkFunction None b src 0]) w).

(** [defaultDescribe] *)
Definition defaultDescribe (name : string) : list string -> string :=
  fun children =>
    match children with
    | [] => name
    | _ => name +:+ ":" +:+ String.concat "," children
    end.

(** ** [Parser.toString] and [Parser.inspect] *)

(** [Parser.toString]: [`Parser[${this.id}, ${this.name}]`] *)
Definition toString (o : Parser.t) : string :=
  "Parser[" +:+ pretty (Parser.id o) +:+ ", " +:+ Parser.name o +:+ "]".

(** [Parser.inspect] *)
Definition inspect (o : Parser.t) : string :=
  if truthy_opt (Parser.description o)
  then "Parser[" +:+ pretty (Parser.id o) +:+ ", "
         +:+ default EmptyString (Parser.description o) +:+ "]"
  else "(unresolved " +:+ pretty (Parser.id o) +:+ ")".

(** ** Resolution *)

Section Resolution.

(** [quote] of strings.ts is not part of the sources; resolution only
    threads its results into cache keys. *)
Variable quote : string -> string.

Definition ID : string := "__packrattle_cache_id".

(** Invoke the function object [t]: its call counter goes up, then its
    body runs. *)
Definition call_function (t : nat) (w : World) : completion LazyParser * World :=
  match functions w !! t with
  | None => (Abort, w)
  | Some fn =>
      let w1 := set_functions
                  (<[t := mkFunction (tag fn) (body fn) (source fn) (S (calls fn))]>
                     (functions w)) w in
      match body fn with
      | ReturnRef v => (Normal v, w1)
      | ReturnNew n o g =>
          let '(p, w2) := newParser n o g w1 in (Normal (LParser p), w2)
      | ThrowError m => (Throw (Error m), w1)
      end
  end.

(** [if (!parser[ID]) parser[ID] = (LazyId++).toString(); const id = parser[ID]] *)
Definition function_id (t : nat) (fn : LazyFunction) (w : World) : string * World :=
  if truthy_opt (tag fn) then (default EmptyString (tag fn), w)
  else
    let id := pretty (LazyId w) in
    (id,
     mkWorld (heap w) (ParserId w) (__cache w) (S (LazyId w))
       (<[t := mkFunction (Some id) (body fn) (source fn) (calls fn)]> (functions w))).

(** [functionCache[id]], as the test [if (functionCache[id])] sees it. *)
Definition cached (functionCache : FunctionCache) (id : string) : option LazyParser :=
  match functionCache !! id with
  | Some v => if truthy_lazy v then Some v else None
  | None => None
  end.

(** The first half of [unlazy]: a function is forced through the
    function cache; anything else is left as it is. *)
Definition force (parser : LazyParser) : M State LazyParser :=
  fun st =>
    match parser with
    | LFunction t =>
        match functions st.2 !! t with
        | None => (Abort, st)
        | Some fn =>
            let '(id, w1) := function_id t fn st.2 in
            match cached st.1 id with
            | Some v => (Normal v, (st.1, w1))
            | None =>
                match call_function t w1 with
                | (Normal v, w2) => (Normal v, (<[id := v]> st.1, w2))
                | (Throw e, w2) => (Throw e, (st.1, w2))
                | (Abort, w2) => (Abort, (st.1, w2))
                end
            end
        end
    | _ => (Normal parser, st)
    end.

(** ["Unable to resolve parser: " + parser] *)
Definition show_lazy (w : World) (v : LazyParser) : string :=
  match v with
  | LFunction t => default EmptyString (source <$> functions w !! t)
  | LOther _ s => s
  | LString s => s
  | LRegExp s => "/" +:+ s +:+ "/"
  | _ => "[object Object]"
  end.

(** The second half of [unlazy]: the implicit conversions and the final
    [instanceof Parser] test. *)
Definition implicits (parser : LazyParser) : M State loc :=
  fun st =>
    match parser with
    | LString _ => (Throw (Error "unimplemented"), st)
    | LRegExp _ => (Throw (Error "unimplemented"), st)
    | LArray _ => (Throw (Error "unimplemented"), st)
    | LParser p => (Normal p, st)
    | _ => (Throw (Error ("Unable to resolve parser: " +:+ show_lazy st.2 parser)), st)
    end.

Definition unlazy (parser : LazyParser) : M State loc :=
  let* parser := force parser in implicits parser.

(** Reading and writing the object at a location; world-only code run
    next to a function cache. *)
Definition read (p : loc) : M World Parser.t :=
  fun w => match heap w !! p with Some o => (Normal o, w) | None => (Abort, w) end.

Definition write (p : loc) (f : Parser.t -> Parser.t) : M World unit :=
  fun w => (Normal tt, update p f w).

Definition lift {A} (m : M World A) : M State A :=
  fun st => let '(r, w') := m st.2 in (r, (st.1, w')).

(** What V8 reports for a property read on [undefined]. *)
Definition undefined_error (prop : string) : Exn :=
  TypeError ("Cannot read property '" +:+ prop +:+ "' of undefined").

(** [p.children && p.children.length > 1] *)
Definition long_children (o : Parser.t) : bool :=
  match Parser.children o with
  | Some cs => bool_decide (1 < length cs)
  | None => false
  end.

(** [Parser.getDescription] *)
Fixpoint getDescription (fuel : nat) (this : loc) : M World string :=
  match fuel with
  | 0 => abort
  | S fuel' =>
      let* self := read this in
      if truthy_opt (Parser.description self)
      then ret (default EmptyString (Parser.description self))
      else if Parser.recursing self then ret "..."
      else
        let* _ := write this (Parser.set_recursing true) in
        match Parser.children self with
        | None => throw (undefined_error "map")
        | Some cs =>
            let* descs :=
              mapM (fun p =>
                      match p with
                      | Undefined => throw (undefined_error "children")
                      | Ref q =>
                          let* o := read q in
                          if long_children o
                          then let* d := getDescription fuel' q in
                               ret ("(" +:+ d +:+ ")")
                          else getDescription fuel' q
                      end) cs in
            let* _ := write this (Parser.set_recursing false) in
            let* self' := read this in
            match Parser.options self' with
            | None => throw (undefined_error "describe")
            | Some o =>
                let d := default (defaultDescribe (Parser.name self'))
                                 (ParserOptions.describe o) descs in
                let* _ := write this (Parser.set_description d) in
                ret d
            end
        end
  end.

(** The call depth of [getDescription] is bounded by the number of
    objects, each open call holding one [recursing] flag. *)
Definition description_fuel (w : World) : nat := S (length (heap w)).

(** [__cache[key]] *)
Definition lookup_cache (k : string) (w : World) : jsref :=
  match __cache w !! k with Some q => Ref q | None => Undefined end.

(** Lines 114-115: the [reduce] that asks whether every child has a
    [cacheKey] (it stops reading children at the first one without), and
    the keys read by the following [map]. *)
Fixpoint child_keys (cs : list jsref) (w : World) : completion (option (list string)) :=
  match cs with
  | [] => Normal (Some [])
  | Undefined :: _ => Throw (undefined_error "cacheKey")
  | Ref q :: cs' =>
      match heap w !! q with
      | None => Abort
      | Some o =>
          match Parser.cacheKey o with
          | None => Normal None
          | Some k =>
              match child_keys cs' w with
              | Normal (Some ks) => Normal (Some (k :: ks))
              | r => r
              end
          end
      end
  end.

Definition leaf_key (name description : string) : string :=
  name +:+ ":" +:+ quote description.

Definition node_key (name : string) (keys : list string) : string :=
  name +:+ "(" +:+ String.concat "," (quote <$> keys) +:+ ")".

(** Lines 110-116: the key this node is given, if any. *)
Definition computed_key (self : Parser.t) (w : World) : completion (option string) :=
  match Parser.children self with
  | None | Some [] =>
      match Parser.description self with
      | None => Abort
      | Some d => Normal (Some (leaf_key (Parser.name self) d))
      end
  | Some cs =>
      match child_keys cs w with
      | Normal (Some ks) => Normal (Some (node_key (Parser.name self) ks))
      | Normal None => Normal None
      | Throw e => Throw e
      | Abort => Abort
      end
  end.

Definition assign_key (this : loc) : M World unit :=
  let* self := read this in
  let* key := (fun w => (computed_key self w, w)) in
  match key with
  | Some k => write this (Parser.set_cacheKey k)
  | None => ret tt
  end.

(** Lines 118-121: [Some r] when [resolve] returns [r] from line 119. *)
Definition register (this : loc) : M World (option jsref) :=
  let* self := read this in
  if truthy_opt (Parser.cacheKey self) then
    let k := default EmptyString (Parser.cacheKey self) in
    fun w =>
      match __cache w !! k with
      | Some q => (Normal (Some (Ref q)), w)
      | None => (Normal None, set_cache (<[k := this]> (__cache w)) w)
      end
  else ret None.

(** Lines 107-128 *)
Definition finish (this : loc) : M World jsref :=
  let* _ := (fun w => getDescription (description_fuel w) this w) in
  let* self := read this in
  match Parser.options self with
  | None => throw (undefined_error "cacheable")
  | Some o =>
      let* found :=
        (if ParserOptions.cacheable o
         then let* _ := assign_key this in register this
         else ret None) in
      match found with
      | Some r => ret r
      | None =>
          let* self' := read this in
          match Parser.generateMatcher self', Parser.children self' with
          | Some g, Some cs =>
              let* _ := write this (Parser.set_matcher (g cs)) in
              ret (Ref this)
          | _, _ => abort
          end
      end
  end.

Definition inside (name : string) : string := " (inside " +:+ name +:+ ")".

(** [try { ... } catch (error) { error.message += ...; throw error; }] *)
Definition annotate {S A} (name : string) (m : M S A) : M S A :=
  fun s =>
    match m s with
    | (Throw e, s1) => (Throw (append_message e (inside name)), s1)
    | r => r
    end.

(** The body of the [try] block, lines 100-101; [resolve_child] is the
    recursive call [p.resolve(functionCache)]. *)
Definition resolve_children (resolve_child : loc -> M State jsref)
    (this : loc) (self : Parser.t) : M State unit :=
  let* cs0 :=
    match Parser.options self with
    | None => throw (undefined_error "children")
    | Some o => mapM unlazy (default [] (ParserOptions.children o))
    end in
  let* _ := lift (write this (Parser.set_children (Ref <$> cs0))) in
  let* cs1 := mapM resolve_child cs0 in
  lift (write this (Parser.set_children cs1)).

(** [Parser.resolve] *)
Fixpoint resolve (fuel : nat) (this : loc) : M State jsref :=
  match fuel with
  | 0 => abort
  | S fuel' =>
      let* self := lift (read this) in
      if truthy_opt (Parser.cacheKey self)
      then fun st =>
             (Normal (lookup_cache (default EmptyString (Parser.cacheKey self)) st.2), st)
      else if bool_decide (is_Some (Parser.children self)) then ret (Ref this)
      else
        let* _ := annotate (Parser.name self)
                    (resolve_children (resolve fuel') this self) in
        lift (finish this)
  end.

End Resolution.

(** ** Transforms: [Parser.map] *)

(** [f: U | ((item: Out, span: Span) => U)] *)
Inductive Transform :=
| Callable (f : value -> Span -> value)
| Constant (c : value).

(** [(typeof f === "function") ? f(value, span) : f] *)
Definition apply_transform (f : Transform) (v : value) (span : Span) : value :=
  match f with
  | Callable g => g v span
  | Constant c => c
  end.

(** The continuation [map] hands to [schedule]. *)
Definition map_continuation (f : Transform) : Match -> MatchResult :=
  fun m =>
    mapMatch m (fun span v => Done (MatchSuccess span (apply_transform f v span))).

(** The matcher generator of [map]: whatever the resolved children are,
    the matcher schedules [this] at [index]. *)
Definition map_matcher (this : loc) (f : Transform) : list jsref -> Matcher :=
  fun _children _stream index => schedule (Ref this) index (map_continuation f).

(** [Parser.map]: [new Parser("map", { children: [ this ] }, ...)] *)
Definition Parser_map (this : loc) (f : Transform) (w : World) : loc * World :=
  newParser "map" (ParserOptions.mk (Some [LParser this]) None false)
            (map_matcher this f) w.

(** ** [Parser.execute], [Parser.consume] and [Parser.run] *)

Section Engine.

Variable quote : string -> string.

(** engine.ts, combiners.ts and simple.ts are not part of the sources:
    the engine's [execute], [chain] and [simple.end] are taken as they
    come.  What the engine hands back is a [Match], or ([None]) a value
    that is neither a [MatchSuccess] nor a [MatchFailure]. *)
Variable EngineOptions : Type.
Variable Engine_execute : Sequence -> EngineOptions -> jsref -> M World (option Match).
Variable chain : loc -> loc -> (value -> value -> value) -> World -> loc * World.
Variable simple_end : World -> loc * World.

(** [this.resolve()]: the default argument is a new, empty function
    cache, dropped when the call ends. *)
Definition resolve_fresh (fuel : nat) (this : loc) : M World jsref :=
  fun w => let '(r, st) := resolve quote fuel this (∅, w) in (r, st.2).

(** [new Engine(stream, options).execute(this.resolve())] *)
Definition execute (fuel : nat) (this : loc) (stream : Sequence)
    (options : EngineOptions) : M World (option Match) :=
  let* r := resolve_fresh fuel this in
  Engine_execute stream options r.

(** [chain(this, simple.end(), (a, _b) => a)] *)
Definition consume (this : loc) (w : World) : loc * World :=
  let '(e, w1) := simple_end w in
  chain this e (fun a _b => a) w1.

(** [Parser.run] *)
Definition run (fuel : nat) (this : loc) (stream : Sequence)
    (options : EngineOptions) : M World value :=
  fun w =>
    let '(c, w1) := consume this w in
    (let* r := resolve_fresh fuel c in
     match r with
     | Undefined => throw (undefined_error "execute")
     | Ref r' =>
         let* rv := execute fuel r' stream options in
         match rv with
         | Some (MatchFailure m span) => throw (ParseError m span)
         | Some (MatchSuccess _ v) => ret v
         | None => throw (Error "impossible")
         end
     end) w1.

End Engine.

(** ** The state changes of a resolve pass

    Every write [resolve] and [unlazy] make is one of the steps below.
    [touch] says which objects may have their [children], [cacheKey],
    [matcher], [options] and [generateMatcher] written; [description] and
    [recursing] are written by [getDescription] on any object. *)

(** A call of the function object [t], made by [unlazy] because the
    function cache has nothing (truthy) under its tag. *)
Inductive calls_function (t : nat)
  : State -> completion LazyParser -> State -> Prop :=
| calls_intro fc w fn id r w' :
    functions w !! t = Some fn ->
    tag fn = Some id ->
    truthy id = true ->
    cached fc id = None ->
    call_function t w = (r, w') ->
    calls_function t (fc, w) r
      (match r with Normal v => <[id := v]> fc | _ => fc end, w').

Inductive step (touch : loc -> Prop) : State -> State -> Prop :=
| step_tag fc w t fn :
    functions w !! t = Some fn ->
    truthy_opt (tag fn) = false ->
    step touch (fc, w)
      (fc, mkWorld (heap w) (ParserId w) (__cache w) (S (LazyId w))
             (<[t := mkFunction (Some (pretty (LazyId w))) (body fn)
                      (source fn) (calls fn)]> (functions w)))
| step_call st t p st' :
    calls_function t st (Normal (LParser p)) st' ->
    step touch st st'
| step_children fc w this cs :
    touch this ->
    step touch (fc, w) (fc, update this (Parser.set_children cs) w)
| step_recursing fc w this b :
    step touch (fc, w) (fc, update this (Parser.set_recursing b) w)
| step_description fc w this d :
    step touch (fc, w) (fc, update this (Parser.set_description d) w)
| step_key fc w this self k :
    touch this ->
    heap w !! this = Some self ->
    truthy_opt (Parser.cacheKey self) = false ->
    truthy k = true ->
    step touch (fc, w)
      (fc, set_cache (match __cache w !! k with
                      | Some _ => __cache w
                      | None => <[k := this]> (__cache w)
                      end)
             (update this (Parser.set_cacheKey k) w))
| step_matcher fc w this m :
    touch this ->
    step touch (fc, w) (fc, update this (Parser.set_matcher m) w).

(** A pass that ends normally is a sequence of steps; one that does not
    is a sequence of steps, possibly followed by the function call whose
    failure, or whose unusable result, ended it. *)
Definition trace (touch : loc -> Prop) (ok : bool) (st st' : State) : Prop :=
  if ok then rtc (step touch) st st'
  else exists st1, rtc (step touch) st st1 /\
         (st1 = st' \/ exists t r, calls_function t st1 r st').

(** Objects not yet resolved: the ones [resolve] goes on to write. *)
Definition fresh (st : State) (p : loc) : Prop :=
  forall o, heap st.2 !! p = Some o ->
    Parser.children o = None /\ truthy_opt (Parser.cacheKey o) = false.

(** ** Vocabulary of the statements *)

(** An object before and after: [id] and [name] never change, [children]
    once set stay set, a truthy [cacheKey] stays, and the resolution
    fields of an object outside [touched] are left alone. *)
Definition obj_ext (touched : Prop) (o o' : Parser.t) : Prop :=
  Parser.id o' = Parser.id o /\
  Parser.name o' = Parser.name o /\
  (is_Some (Parser.children o) -> is_Some (Parser.children o')) /\
  (truthy_opt (Parser.cacheKey o) = true -> Parser.cacheKey o' = Parser.cacheKey o) /\
  (~ touched ->
     Parser.children o' = Parser.children o /\
     Parser.cacheKey o' = Parser.cacheKey o /\
     Parser.matcher o' = Parser.matcher o /\
     Parser.options o' = Parser.options o /\
     Parser.generateMatcher o' = Parser.generateMatcher o).

Definition fn_ext (f f' : LazyFunction) : Prop :=
  body f' = body f /\ source f' = source f /\ calls f <= calls f' /\
  (truthy_opt (tag f) = true -> tag f' = tag f).

Definition ext (touch : loc -> Prop) (st st' : State) : Prop :=
  (forall p o, heap st.2 !! p = Some o ->
     exists o', heap st'.2 !! p = Some o' /\ obj_ext (touch p) o o') /\
  (forall k q, __cache st.2 !! k = Some q -> __cache st'.2 !! k = Some q) /\
  (forall t f, functions st.2 !! t = Some f ->
     exists f', functions st'.2 !! t = Some f' /\ fn_ext f f') /\
  length (functions st'.2) = length (functions st.2) /\
  (forall id v, cached st.1 id = Some v -> cached st'.1 id = Some v) /\
  ParserId st.2 <= ParserId st'.2 /\
  LazyId st.2 <= LazyId st'.2.

(** Steps that leave the function cache as it is. *)
Definition wsteps (touch : loc -> Prop) (fc : FunctionCache) (w w' : World) : Prop :=
  rtc (step touch) (fc, w) (fc, w').

(** What [resolve] hands back on a normal return, read in the state it
    leaves: the cache entry under the key of [this] when it has one,
    [this] itself when it has none. *)
Definition returned (w : World) (this : loc) (a : jsref) : Prop :=
  exists self, heap w !! this = Some self /\
    ((exists k q, Parser.cacheKey self = Some k /\ truthy k = true /\
                  __cache w !! k = Some q /\ a = Ref q) \/
     (truthy_opt (Parser.cacheKey self) = false /\
      is_Some (Parser.children self) /\ a = Ref this)).

(** The stored objects of a world all have their key in the cache. *)
Definition cache_ok (w : World) : Prop :=
  forall p o k, heap w !! p = Some o -> Parser.cacheKey o = Some k ->
    truthy k = true -> is_Some (__cache w !! k).

(** What lines 96-97 answer for an object that is already resolved. *)
Definition early_result (w : World) (this : loc) (self : Parser.t) : jsref :=
  if truthy_opt (Parser.cacheKey self)
  then lookup_cache (default EmptyString (Parser.cacheKey self)) w
  else Ref this.

Definition resolved (self : Parser.t) : Prop :=
  truthy_opt (Parser.cacheKey self) = true \/ is_Some (Parser.children self).

(** The canonicalization cache and the [cacheKey] fields agree: a key
    that is set is truthy and has an entry, and an entry points to a
    stored object that carries the key. *)
Definition cache_inv (w : World) : Prop :=
  (forall p o k, heap w !! p = Some o -> Parser.cacheKey o = Some k ->
     truthy k = true /\ is_Some (__cache w !! k)) /\
  (forall k q, __cache w !! k = Some q ->
     exists o, heap w !! q = Some o /\ Parser.cacheKey o = Some k).

(** Ids are positive, below the counter, and grow with the position in
    the store, which is the order of construction. *)
Definition ids_ok (w : World) : Prop :=
  1 <= ParserId w /\
  (forall p o, heap w !! p = Some o -> 1 <= Parser.id o < ParserId w) /\
  (forall p q o o', p < q -> heap w !! p = Some o -> heap w !! q = Some o' ->
     Parser.id o < Parser.id o').

(** The worlds a program can be in: it starts from the module's initial
    values, constructs parsers (with [new Parser], so also through
    [Parser.map]), defines functions, and calls [resolve]. *)
Inductive reachable (quote : string -> string) : World -> Prop :=
| reach_init : reachable quote init_world
| reach_new w n o g :
    reachable quote w -> reachable quote (newParser n o g w).2
| reach_function w b src :
    reachable quote w -> reachable quote (newFunction b src w).2
| reach_resolve w fuel p fc r st' :
    reachable quote w ->
    resolve quote fuel p (fc, w) = (r, st') ->
    reachable quote st'.2.

(** How often the function object [t] has been invoked. *)
Definition calls_of (w : World) (t : nat) : nat :=
  default 0 (calls <$> functions w !! t).



(** A node as its constructor left it, with options [o]. *)
Definition constructed (self : Parser.t) (o : ParserOptions.t) : Prop :=
  Parser.options self = Some o /\
  Parser.children self = None /\
  Parser.cacheKey self = None.

(** What the key of a node is computed from, besides its name: the
    description of a leaf ([inr]), the keys of the children of an interior
    node ([inl]). *)
Definition signature (self : Parser.t) (w : World)
  : completion (option (list string)) + option string :=
  match Parser.children self with
  | None | Some [] => inr (Parser.description self)
  | Some cs => inl (child_keys cs w)
  end.

(** Every child has a cache key, or the leaf has its description. *)
Definition keyed (sig : completion (option (list string)) + option string) : Prop :=
  match sig with
  | inl (Normal (Some _)) => True
  | inr (Some _) => True
  | _ => False
  end.

(** [unlazy] never writes to a stored object: the store only grows. *)
Definition heap_grows (st st' : State) : Prop :=
  exists extra, heap st'.2 = (heap st.2 ++ extra)%list.

Definition ex_quote (s : string) : string := "'" +:+ s +:+ "'".

Definition ex_matcher : list jsref -> Matcher :=
  fun _ _ _ => Done (MatchFailure "no match" (mkSpan 0 0)).

Definition ex_leaf : ParserOptions.t := ParserOptions.mk None None true.

Definition ex_object : Parser.t :=
  Parser.mk 0 EmptyString None None None None None None false.

(** Two [alt] nodes built independently over two "end" leaves. *)
Definition ex_world : World :=
  (newParser "alt" (ParserOptions.mk (Some [LParser 1; LParser 0]) None true) ex_matcher
     (newParser "alt" (ParserOptions.mk (Some [LParser 0; LParser 1]) None true) ex_matcher
        (newParser "end" ex_leaf ex_matcher
           (newParser "end" ex_leaf ex_matcher init_world).2).2).2).2.

Definition ex_first : completion jsref * State := resolve ex_quote 4 2 (∅, ex_world).
Definition ex_second : completion jsref * State :=
  resolve ex_quote 4 3 (∅, ex_first.2.2).

Definition ex_key : string := "alt('end:'end'','end:'end'')".

(** The grammar of the "only once" test: one function, referred to from
    two places of a [chain]. *)
Definition ex_lazy_world : World :=
  (newParser "chain" (ParserOptions.mk (Some [LFunction 0; LFunction 0]) None false)
     ex_matcher
     (newFunction (ReturnNew "regex" ex_leaf ex_matcher) "() => pr.regex(/\w+/)"
        init_world).2).2.

(** [pr.chain("abc", "123", ...)], the grammar of the "turns strings into
    parsers" test. *)
Definition ex_strings_world : World :=
  (newParser "chain" (ParserOptions.mk (Some [LString "abc"; LString "123"]) None false)
     ex_matcher init_world).2.


(** A stand-in engine that fails every match at position 0, and
    stand-ins for [chain] and [simple.end]. *)
Definition ex_engine (stream : Sequence) (options : unit) (r : jsref)
  : M World (option Match) :=
  ret (Some (MatchFailure "Expected end" (mkSpan 0 0))).

Definition ex_chain (a b : loc) (f : value -> value -> value) (w : World)
  : loc * World :=
  newParser "chain" (ParserOptions.mk (Some [LParser a; LParser b]) None false)
            ex_matcher w.

Definition ex_end (w : World) : loc * World := newParser "end" ex_leaf ex_matcher w.

Fixpoint count {A} (f : A -> bool) (l : list A) : nat :=
  match l with
  | [] => 0
  | x :: l' => (if f x then 1 else 0) + count f l'
  end.

(** The [recursing] flags of the store, and how many are down. *)
Definition flags (w : World) : list bool := Parser.recursing <$> heap w.

Definition unflagged (w : World) : nat := count negb (flags w).

(** Two objects that differ in [description] and [recursing] at most. *)
Definition same_core (o o' : Parser.t) : Prop :=
  Parser.id o' = Parser.id o /\ Parser.name o' = Parser.name o /\
  Parser.options o' = Parser.options o /\
  Parser.generateMatcher o' = Parser.generateMatcher o /\
  Parser.children o' = Parser.children o /\
  Parser.matcher o' = Parser.matcher o /\
  Parser.cacheKey o' = Parser.cacheKey o.

(** Two worlds that differ in descriptions and flags at most. *)
Definition core_only (w w' : World) : Prop :=
  Forall2 same_core (heap w) (heap w') /\
  ParserId w' = ParserId w /\ __cache w' = __cache w /\
  LazyId w' = LazyId w /\ functions w' = functions w.

(** References in [children] lists point into the store. *)
Definition children_valid (w : World) : Prop :=
  forall p o cs q, heap w !! p = Some o -> Parser.children o = Some cs ->
    Ref q ∈ cs -> q < length (heap w).

Definition valid_lazy (w : World) (v : LazyParser) : Prop :=
  match v with
  | LParser p => p < length (heap w)
  | LFunction t => t < length (functions w)
  | _ => True
  end.

Definition valid_options (w : World) (o : ParserOptions.t) : Prop :=
  forall l x, ParserOptions.children o = Some l -> x ∈ l -> valid_lazy w x.

Definition valid_body (w : World) (b : FunctionBody) : Prop :=
  match b with
  | ReturnRef v => valid_lazy w v
  | ReturnNew _ o _ => valid_options w o
  | ThrowError _ => True
  end.

(** No reference dangles, and an object that is not resolved yet is as
    its constructor left it: it has its matcher generator, and its
    [recursing] flag is down. *)
Record wf (st : State) : Prop := mk_wf {
  wf_children : children_valid st.2;
  wf_options : forall p o opts, heap st.2 !! p = Some o ->
      Parser.options o = Some opts -> valid_options st.2 opts;
  wf_bodies : forall t fn, functions st.2 !! t = Some fn -> valid_body st.2 (body fn);
  wf_fcache : forall id p, st.1 !! id = Some (LParser p) -> p < length (heap st.2);
  wf_cache : forall k q, __cache st.2 !! k = Some q -> q < length (heap st.2);
  wf_unresolved : forall p o, heap st.2 !! p = Some o -> Parser.children o = None ->
      is_Some (Parser.generateMatcher o) /\ Parser.recursing o = false
}.

Definition unresolved (o : Parser.t) : bool :=
  match Parser.children o with None => true | Some _ => false end.

Definition uncached (fc : FunctionCache) (fn : LazyFunction) : bool :=
  match tag fn with
  | Some id => if truthy id then
                 match cached fc id with Some _ => false | None => true end
               else true
  | None => true
  end.

(** Objects still to resolve, plus functions still to invoke: each level
    of [resolve] lowers it before it calls itself. *)
Definition measure (st : State) : nat :=
  count unresolved (heap st.2) + count (uncached st.1) (functions st.2).

(** What a piece of a pass that returned has done to a well-formed
    state. *)
Definition advance (st st' : State) : Prop :=
  wf st' /\ measure st' <= measure st /\
  length (heap st.2) <= length (heap st'.2) /\
  length (functions st'.2) = length (functions st.2) /\
  (forall p o, heap st.2 !! p = Some o ->
     exists o', heap st'.2 !! p = Some o' /\
       Parser.recursing o' = Parser.recursing o).

(** ** Vocabulary of the further properties *)

Definition is_digit (c : Ascii.ascii) : bool :=
  (48 <=? Ascii.nat_of_ascii c)%nat && (Ascii.nat_of_ascii c <=? 57)%nat.

Fixpoint digits (s : string) : bool :=
  match s with
  | EmptyString => true
  | String c s' => is_digit c && digits s'
  end.

(** The callback of line 136-138, over the recursive call. *)
Definition describe_child (rec : loc -> M World string) (p : jsref) : M World string :=
  match p with
  | Undefined => throw (undefined_error "children")
  | Ref q =>
      let* o := read q in
      if long_children o
      then let* d := rec q in ret ("(" +:+ d +:+ ")")
      else rec q
  end.

(** What the callback of lines 136-138 gives for a child that has its
    description. *)
Definition shown_child (w : World) (p : jsref) : string :=
  match p with
  | Ref q =>
      match heap w !! q with
      | Some o =>
          let d := default EmptyString (Parser.description o) in
          if long_children o then "(" +:+ d +:+ ")" else d
      | None => EmptyString
      end
  | Undefined => EmptyString
  end.

(** A child reference to a stored object that has a description. *)
Definition described (w : World) (p : jsref) : Prop :=
  exists q o, p = Ref q /\ heap w !! q = Some o /\
    truthy_opt (Parser.description o) = true.

(** The world with the object at [this] replaced by [x]. *)
Definition store (this : loc) (x : Parser.t) (w : World) : World :=
  set_heap (<[this := x]> (heap w)) w.

(** The tags of the function objects: decimal numerals of numbers below
    [LazyId], no two function objects with the same one. *)
Definition tags_ok (w : World) : Prop :=
  (forall t fn id, functions w !! t = Some fn -> tag fn = Some id ->
     exists n, n < LazyId w /\ id = pretty n) /\
  (forall t1 t2 f1 f2 id,
     functions w !! t1 = Some f1 -> functions w !! t2 = Some f2 ->
     tag f1 = Some id -> tag f2 = Some id -> t1 = t2).

(** A child reference to a stored object that carries the key [k]; one
    to a stored object that carries none. *)
Definition has_key (w : World) (c : jsref) (k : string) : Prop :=
  exists q o, c = Ref q /\ heap w !! q = Some o /\ Parser.cacheKey o = Some k.

Definition keyless (w : World) (c : jsref) : Prop :=
  exists q o, c = Ref q /\ heap w !! q = Some o /\ Parser.cacheKey o = None.

(** A store caught in the middle of a pass: a leaf with its description,
    a leaf not resolved yet, and two nodes that have their children but
    no description yet. *)
Definition ex_partial_world : World :=
  mkWorld
    [Parser.mk 1 "end" None None (Some []) (Some (ex_matcher [])) (Some "end")
       None false;
     Parser.mk 2 "x" (Some ex_leaf) (Some ex_matcher) None None None None false;
     Parser.mk 3 "opt" (Some (ParserOptions.mk (Some [LParser 0]) None false))
       (Some ex_matcher) (Some [Ref 0]) None None None false;
     Parser.mk 4 "seq" (Some (ParserOptions.mk (Some [LParser 0; LParser 1]) None false))
       (Some ex_matcher) (Some [Ref 0; Ref 1]) None None None false]
    5 ∅ 0 [].

(** A [chain] over two different functions. *)
Definition ex_two_lazy_world : World :=
  (newParser "chain" (ParserOptions.mk (Some [LFunction 0; LFunction 1]) None false)
     ex_matcher
     (newFunction (ReturnNew "regex" ex_leaf ex_matcher) "() => pr.regex(/\w+/)"
        (newFunction (ReturnNew "string" ex_leaf ex_matcher) "() => pr.string(':')"
           init_world).2).2).2.


(** * Proofs *)

(** ** Plumbing lemmas *)

Lemma bind_eq {S A B} (m : M S A) (k : A -> M S B) s r s' :
  bind m k s = (r, s') ->
  (exists a s1, m s = (Normal a, s1) /\ k a s1 = (r, s')) \/
  (is_normal r = false /\ exists r0 : completion A,
      is_normal r0 = false /\ m s = (r0, s') /\
      match r0, r with
      | Throw e, Throw e' => e = e'
      | Abort, Abort => True
      | _, _ => False
      end).
Proof.
  unfold bind. destruct (m s) as [[a|e|] s1] eqn:E; intros H.
  - left. eauto.
  - right. inversion H; subst. split; [done|]. exists (Throw e). auto.
  - right. inversion H; subst. split; [done|]. exists Abort. auto.
Qed.

Lemma trace_refl touch ok st : trace touch ok st st.
Proof. destruct ok; simpl; [done|]. exists st. split; [done|by left]. Qed.

Lemma trace_weaken touch ok st st' :
  trace touch true st st' -> trace touch ok st st'.
Proof. destruct ok; simpl; [done|]. intros H. exists st'. split; [done|by left]. Qed.

Lemma trace_bind touch ok a b c :
  trace touch true a b -> trace touch ok b c -> trace touch ok a c.
Proof.
  destruct ok; simpl.
  - intros H1 H2. by etrans.
  - intros H1 (st1 & H2 & H3). exists st1. split; [by etrans|done].
Qed.

Lemma step_mono (P Q : loc -> Prop) st st' :
  (forall x, P x -> Q x) -> step P st st' -> step Q st st'.
Proof.
  intros HPQ H. destruct H.
  - by eapply step_tag.
  - by eapply step_call.
  - apply step_children. auto.
  - apply step_recursing.
  - apply step_description.
  - eapply step_key; eauto.
  - apply step_matcher. auto.
Qed.

Lemma steps_mono (P Q : loc -> Prop) st st' :
  (forall x, P x -> Q x) -> rtc (step P) st st' -> rtc (step Q) st st'.
Proof.
  intros HPQ H. induction H; [done|].
  eapply rtc_l; [|done]. by eapply step_mono.
Qed.

Lemma trace_mono (P Q : loc -> Prop) ok st st' :
  (forall x, P x -> Q x) -> trace P ok st st' -> trace Q ok st st'.
Proof.
  intros HPQ. destruct ok; simpl.
  - by apply steps_mono.
  - intros (st1 & H1 & H2). exists st1. split; [by eapply steps_mono|done].
Qed.

(** ** What a pass may change *)

Lemma obj_ext_refl T o : obj_ext T o o.
Proof. by repeat split. Qed.

Lemma obj_ext_trans T o1 o2 o3 : obj_ext T o1 o2 -> obj_ext T o2 o3 -> obj_ext T o1 o3.
Proof.
  intros (A1 & A2 & A3 & A4 & A5) (B1 & B2 & B3 & B4 & B5).
  split; [congruence|]. split; [congruence|]. split; [auto|].
  split.
  - intros H. rewrite B4; [auto|]. rewrite A4; auto.
  - intros H. destruct (A5 H) as (?&?&?&?&?), (B5 H) as (?&?&?&?&?).
    repeat split; congruence.
Qed.

Lemma fn_ext_refl f : fn_ext f f.
Proof. by repeat split. Qed.

Lemma fn_ext_trans f1 f2 f3 : fn_ext f1 f2 -> fn_ext f2 f3 -> fn_ext f1 f3.
Proof.
  intros (A1 & A2 & A3 & A4) (B1 & B2 & B3 & B4).
  split; [congruence|]. split; [congruence|]. split; [lia|].
  intros H. rewrite B4; [auto|]. rewrite A4; auto.
Qed.

Lemma ext_refl touch st : ext touch st st.
Proof.
  repeat split; eauto using obj_ext_refl, fn_ext_refl.
Qed.

Lemma ext_trans touch a b c : ext touch a b -> ext touch b c -> ext touch a c.
Proof.
  intros (A1 & A2 & A3 & A4 & A5 & A6 & A7) (B1 & B2 & B3 & B4 & B5 & B6 & B7).
  split; [|split; [|split; [|split; [|split; [|split]]]]]; try lia; auto.
  - intros p o Ho. destruct (A1 _ _ Ho) as (o1 & Ho1 & E1).
    destruct (B1 _ _ Ho1) as (o2 & Ho2 & E2).
    exists o2. split; [done|]. by eapply obj_ext_trans.
  - intros t f Hf. destruct (A3 _ _ Hf) as (f1 & Hf1 & E1).
    destruct (B3 _ _ Hf1) as (f2 & Hf2 & E2).
    exists f2. split; [done|]. by eapply fn_ext_trans.
Qed.

Lemma lookup_update p f w q :
  heap (update p f w) !! q =
  if decide (p = q) then f <$> heap w !! q else heap w !! q.
Proof.
  unfold update; simpl. destruct (decide (p = q)) as [->|Hne].
  - apply list_lookup_alter_eq.
  - by apply list_lookup_alter_ne.
Qed.

(** A write to one object that respects [obj_ext]. *)
Lemma ext_update touch fc w this f :
  (forall o, heap w !! this = Some o -> obj_ext (touch this) o (f o)) ->
  ext touch (fc, w) (fc, update this f w).
Proof.
  intros Hf. split.
  - intros p o Ho. cbn [fst snd] in *. rewrite lookup_update.
    destruct (decide (this = p)) as [->|].
    + rewrite Ho. simpl. eauto.
    + eauto using obj_ext_refl.
  - repeat split; simpl; eauto using fn_ext_refl.
Qed.

Lemma call_function_inv t w r w' :
  call_function t w = (r, w') ->
  r = Abort /\ w' = w \/
  exists fn, functions w !! t = Some fn /\
    functions w' = <[t := mkFunction (tag fn) (body fn) (source fn) (S (calls fn))]>
                     (functions w) /\
    __cache w' = __cache w /\ LazyId w' = LazyId w /\
    (heap w' = heap w /\ ParserId w' = ParserId w /\
       match r with Normal (LParser p) => body fn = ReturnRef (LParser p)
                  | Normal v => body fn = ReturnRef v
                  | Throw e => exists m, e = Error m /\ body fn = ThrowError m
                  | Abort => False end
     \/ exists n o g,
          body fn = ReturnNew n o g /\
          heap w' = (heap w ++ [Parser.mk (ParserId w) n (Some o) (Some g)
                                  None None None None false])%list /\
          ParserId w' = S (ParserId w) /\
          r = Normal (LParser (length (heap w)))).
Proof.
  unfold call_function. destruct (functions w !! t) as [fn|] eqn:Hfn.
  - intros H. right. exists fn. split; [done|].
    destruct (body fn) as [v|n o g|m] eqn:Hb; simpl in H; inversion H; subst; simpl.
    + repeat split; try done. left. repeat split; try done. by destruct v.
    + repeat split; try done. right. by exists n, o, g.
    + repeat split; try done. left. repeat split; try done. by exists m.
  - intros H. inversion H. by left.
Qed.

Lemma cached_insert_ne (fc : FunctionCache) id id' v :
  id <> id' -> cached (<[id := v]> fc) id' = cached fc id'.
Proof. intros H. unfold cached. by rewrite lookup_insert_ne. Qed.

Lemma calls_function_ext touch t st r st' :
  calls_function t st r st' -> ext touch st st'.
Proof.
  intros H. destruct H as [fc w fn id r w' Hfn Htag Hid Hc Hcall].
  apply call_function_inv in Hcall.
  destruct Hcall as [[-> ->]|(fn' & Hfn' & Hfs & Hca & Hla & Hheap)].
  { apply ext_refl. }
  rewrite Hfn in Hfn'. inversion Hfn'; subst fn'. clear Hfn'.
  assert (Hfc : forall id' v, cached fc id' = Some v ->
             cached (match r with Normal v0 => <[id:=v0]> fc | _ => fc end) id' = Some v).
  { intros id' v Hv. destruct r; try done.
    destruct (decide (id = id')) as [->|Hne]; [congruence|].
    by rewrite cached_insert_ne. }
  assert (Hfns : forall t' f, functions w !! t' = Some f ->
             exists f', functions w' !! t' = Some f' /\ fn_ext f f').
  { intros t' f Hf. rewrite Hfs.
    destruct (decide (t = t')) as [<-|Hne].
    - rewrite list_lookup_insert_eq; [|by eapply lookup_lt_Some].
      eexists. split; [done|]. rewrite Hfn in Hf. inversion Hf; subst.
      repeat split; simpl; auto.
    - rewrite list_lookup_insert_ne; [|done]. eauto using fn_ext_refl. }
  assert (Hlen : length (functions w') = length (functions w)).
  { rewrite Hfs. apply length_insert. }
  destruct Hheap as [(Hh & Hp & _)|(n & o & g & _ & Hh & Hp & _)].
  - repeat split; simpl; auto; try lia.
    + intros p o Ho. rewrite Hh. eauto using obj_ext_refl.
    + congruence.
  - repeat split; simpl; auto; try lia.
    + intros p o' Ho. rewrite Hh. exists o'. split; [|apply obj_ext_refl].
      rewrite lookup_app_l; [done|]. by eapply lookup_lt_Some.
    + congruence.
Qed.

Lemma step_ext touch st st' : step touch st st' -> ext touch st st'.
Proof.
  intros H. destruct H.
  - repeat split; simpl; eauto using obj_ext_refl; try lia.
    + intros t' f Hf. destruct (decide (t = t')) as [<-|Hne].
      * rewrite list_lookup_insert_eq; [|by eapply lookup_lt_Some].
        eexists. split; [done|]. rewrite H in Hf. inversion Hf; subst.
        repeat split; simpl; auto. congruence.
      * rewrite list_lookup_insert_ne; [|done]. eauto using fn_ext_refl.
    + apply length_insert.
  - by eapply calls_function_ext.
  - apply ext_update. intros o _. repeat split; simpl; auto; tauto.
  - apply ext_update. intros o _. by repeat split.
  - apply ext_update. intros o _. by repeat split.
  - eapply ext_trans.
    + apply (ext_update touch fc w this (Parser.set_cacheKey k)).
      intros o Ho. assert (o = self) as -> by congruence.
      repeat split; simpl; auto; try tauto. congruence.
    + repeat split; simpl; eauto using obj_ext_refl, fn_ext_refl.
      intros k' q Hq. destruct (__cache w !! k) eqn:Hk; [done|].
      destruct (decide (k = k')) as [<-|Hne]; [congruence|].
      by rewrite lookup_insert_ne.
  - apply ext_update. intros o _. repeat split; simpl; auto; tauto.
Qed.

Lemma steps_ext touch st st' : rtc (step touch) st st' -> ext touch st st'.
Proof.
  induction 1 as [|a b c Hab _ IH]; [apply ext_refl|].
  eapply ext_trans; [|exact IH]. by apply step_ext.
Qed.

Lemma trace_ext touch ok st st' : trace touch ok st st' -> ext touch st st'.
Proof.
  destruct ok; simpl; [apply steps_ext|].
  intros (st1 & H1 & [->|(t & r & H2)]); [by apply steps_ext|].
  eapply ext_trans; [by apply steps_ext|]. by eapply calls_function_ext.
Qed.

(** An object that is fresh late in a pass was fresh (or not yet there)
    earlier. *)
Lemma fresh_anti touch st st' x : ext touch st st' -> fresh st' x -> fresh st x.
Proof.
  intros (H1 & _) Hx o Ho.
  destruct (H1 _ _ Ho) as (o' & Ho' & _ & _ & Hc & Hk & _).
  destruct (Hx _ Ho') as [Hc' Hk'].
  split.
  - destruct (Parser.children o); [|done].
    destruct Hc as [? Hc]; [by eexists|]. congruence.
  - destruct (truthy_opt (Parser.cacheKey o)) eqn:E; [|done].
    rewrite (Hk eq_refl) in Hk'. congruence.
Qed.

(** The decimal rendering of a number is never the empty string, so a
    tag given by [unlazy] is truthy. *)
Lemma pretty_N_go_length x s :
  String.length s <= String.length (pretty_N_go x s).
Proof.
  revert s. induction (N.lt_wf_0 x) as [x _ IH]. intros s.
  destruct (decide (x = 0)%N) as [->|Hx].
  - by rewrite pretty_N_go_0.
  - rewrite pretty_N_go_step by lia.
    etrans; [|apply IH; apply N.div_lt; lia]. simpl. lia.
Qed.

Lemma truthy_pretty (n : nat) : truthy (pretty n) = true.
Proof.
  unfold pretty, pretty_nat, pretty, pretty_N.
  destruct (decide (N.of_nat n = 0)%N) as [|Hn]; [done|].
  rewrite pretty_N_go_step by lia.
  pose proof (pretty_N_go_length (N.of_nat n `div` 10)
    (String (pretty_N_char (N.of_nat n `mod` 10)) EmptyString)) as H.
  destruct (pretty_N_go _ _); [simpl in H; lia|done].
Qed.

Lemma truthy_app_r s1 s2 : truthy s2 = true -> truthy (s1 +:+ s2) = true.
Proof. destruct s1; [done|]. by intros _. Qed.

Lemma truthy_leaf_key quote n d : truthy (leaf_key quote n d) = true.
Proof. unfold leaf_key. by apply truthy_app_r. Qed.

Lemma truthy_node_key quote n ks : truthy (node_key quote n ks) = true.
Proof. unfold node_key. by apply truthy_app_r. Qed.

(** [unlazy]: at most a tag step and a call. *)
Lemma unlazy_trace touch v st r st' :
  unlazy v st = (r, st') -> trace touch (is_normal r) st st'.
Proof.
  destruct st as [fc w]. unfold unlazy, bind, force.
  destruct v as [s|s|items|p|t|b s]; simpl;
    try (intros H; inversion H; subst; apply trace_refl).
  destruct (functions w !! t) as [fn|] eqn:Hfn;
    [|intros H; inversion H; subst; apply trace_refl].
  (* the tag *)
  assert (exists id w1 fn1,
    function_id t fn w = (id, w1) /\ rtc (step touch) (fc, w) (fc, w1) /\
    functions w1 !! t = Some fn1 /\ tag fn1 = Some id /\ truthy id = true)
    as (id & w1 & fn1 & -> & Hsteps & Hfn1 & Htag & Hid).
  { unfold function_id. destruct (truthy_opt (tag fn)) eqn:Ht.
    - destruct (tag fn) as [id|] eqn:Etag; [|done].
      exists id, w, fn. by repeat split.
    - eexists _, _, _. split; [done|]. split.
      + apply rtc_once. by eapply step_tag.
      + simpl. rewrite list_lookup_insert_eq; [|by eapply lookup_lt_Some].
        split; [done|]. split; [done|]. apply truthy_pretty. }
  destruct (cached fc id) as [v|] eqn:Hc.
  - (* already in the function cache *)
    destruct v; intros H; inversion H; subst; apply trace_weaken; exact Hsteps.
  - destruct (call_function t w1) as [[v|e|] w2] eqn:Hcall.
    + pose proof (calls_intro t fc w1 fn1 id (Normal v) w2 Hfn1 Htag Hid Hc Hcall) as Hcf.
      destruct v; intros H; inversion H; subst;
        try (exists (fc, w1); split; [exact Hsteps|right; eauto]).
      simpl. eapply rtc_r; [exact Hsteps|]. by eapply step_call.
    + pose proof (calls_intro t fc w1 fn1 id (Throw e) w2 Hfn1 Htag Hid Hc Hcall) as Hcf.
      intros H; inversion H; subst.
      exists (fc, w1); split; [exact Hsteps|right; eauto].
    + pose proof (calls_intro t fc w1 fn1 id Abort w2 Hfn1 Htag Hid Hc Hcall) as Hcf.
      intros H; inversion H; subst.
      exists (fc, w1); split; [exact Hsteps|right; eauto].
Qed.

(** [mapM] under a transitive, reflexive relation on states. *)
Lemma mapM_rel {S A B} (R : S -> S -> Prop) `{!PreOrder R}
    (f : A -> M S B) (l : list A) :
  (forall x, x ∈ l -> forall s r s', f x s = (r, s') -> R s s') ->
  forall s r s', mapM f l s = (r, s') -> R s s'.
Proof.
  induction l as [|x l IH]; intros Hf s r s' H; simpl in H.
  - inversion H. reflexivity.
  - apply bind_eq in H as [(y & s1 & Hy & H)|(_ & r0 & _ & Hy & _)];
      [|eapply Hf; [apply list_elem_of_here|done]].
    etrans; [eapply Hf; [apply list_elem_of_here|done]|].
    apply bind_eq in H as [(ys & s2 & Hys & H)|(_ & r0 & _ & Hys & _)].
    + inversion H; subst. eapply IH; [|done].
      intros; eapply Hf; [by apply list_elem_of_further|done].
    + eapply IH; [|done].
      intros; eapply Hf; [by apply list_elem_of_further|done].
Qed.

(** [mapM] of traced calls, under a condition [I] the steps keep. *)
Lemma mapM_trace {A B} touch (I : State -> Prop) (f : A -> M State B) :
  (forall st st', I st -> rtc (step touch) st st' -> I st') ->
  (forall x st r st', I st -> f x st = (r, st') -> trace touch (is_normal r) st st') ->
  forall l st r st', I st -> mapM f l st = (r, st') -> trace touch (is_normal r) st st'.
Proof.
  intros HI Hf. induction l as [|x l IH]; intros st r st' Hst H; simpl in H.
  - inversion H. apply trace_refl.
  - apply bind_eq in H as [(y & s1 & Hy & H)|(Hr & r0 & Hr0 & Hy & _)].
    + pose proof (Hf _ _ _ _ Hst Hy) as T1. simpl in T1.
      eapply trace_bind; [exact T1|].
      apply bind_eq in H as [(ys & s2 & Hys & H)|(Hr & r0 & Hr0 & Hys & _)].
      * inversion H; subst. eapply (IH _ (Normal ys)); [|done]. eauto.
      * rewrite Hr, <- Hr0. eapply IH; [|done]. eauto.
    + rewrite Hr, <- Hr0. by eapply Hf.
Qed.

Lemma read_inv p w r w' :
  read p w = (r, w') ->
  w' = w /\ match r with
            | Normal o => heap w !! p = Some o
            | Throw _ => False
            | Abort => heap w !! p = None
            end.
Proof. unfold read. destruct (heap w !! p); intros H; by inversion H. Qed.

Lemma write_inv p f w r w' :
  write p f w = (r, w') -> r = Normal tt /\ w' = update p f w.
Proof. unfold write. intros H; by inversion H. Qed.

Lemma lift_inv {A} (m : M World A) st r st' :
  lift m st = (r, st') -> st'.1 = st.1 /\ m st.2 = (r, st'.2).
Proof.
  unfold lift. destruct (m st.2) as [r0 w0]. intros H; by inversion H.
Qed.

#[local] Instance wsteps_po touch fc : PreOrder (wsteps touch fc).
Proof.
  split.
  - intros w. unfold wsteps. done.
  - intros a b c H1 H2. unfold wsteps in *. by etrans.
Qed.

(** [getDescription] writes [recursing] and [description] only. *)
Lemma getDescription_trace touch fc fuel :
  forall this w r w',
    getDescription fuel this w = (r, w') -> wsteps touch fc w w'.
Proof.
  induction fuel as [|fuel IH]; intros this w r w' H; simpl in H.
  { inversion H. reflexivity. }
  apply bind_eq in H as [(self & w1 & Hr & H)|(_ & r0 & _ & Hr & _)];
    apply read_inv in Hr as [-> Hself]; [|reflexivity].
  destruct (truthy_opt (Parser.description self)); [inversion H; reflexivity|].
  destruct (Parser.recursing self); [inversion H; reflexivity|].
  apply bind_eq in H as [([] & w1 & Hw & H)|(_ & r0 & Hr0 & Hw & _)];
    apply write_inv in Hw as [? ->]; [|by subst r0].
  etrans; [apply rtc_once, (step_recursing touch fc w this true)|].
  destruct (Parser.children self) as [cs|]; [|inversion H; reflexivity].
  assert (Hmap : forall s r1 s1,
    mapM (fun p => match p with
                   | Undefined => throw (undefined_error "children")
                   | Ref q =>
                       let* o := read q in
                       if long_children o
                       then let* d := getDescription fuel q in
                            ret ("(" +:+ d +:+ ")")
                       else getDescription fuel q
                   end) cs s = (r1, s1) -> wsteps touch fc s s1).
  { apply mapM_rel; [apply _|]. intros [|q] _ s r1 s1 Hq.
    - inversion Hq. reflexivity.
    - apply bind_eq in Hq as [(o & s2 & Hr & Hq)|(_ & r0 & _ & Hr & _)];
        apply read_inv in Hr as [-> Ho]; [|reflexivity].
      destruct (long_children o); [|by eapply IH].
      apply bind_eq in Hq as [(d & s2 & Hd & Hq)|(_ & r0 & _ & Hd & _)].
      + inversion Hq; subst. by eapply IH.
      + by eapply IH. }
  apply bind_eq in H as [(descs & w1 & Hm & H)|(_ & r0 & _ & Hm & _)];
    [|by eapply Hmap].
  etrans; [by eapply Hmap|].
  apply bind_eq in H as [([] & w2 & Hw & H)|(_ & r0 & Hr0 & Hw & _)];
    apply write_inv in Hw as [? ->]; [|by subst r0].
  etrans; [apply rtc_once, (step_recursing touch fc w1 this false)|].
  apply bind_eq in H as [(self' & w2 & Hr & H)|(_ & r0 & _ & Hr & _)];
    apply read_inv in Hr as [-> Hself']; [|reflexivity].
  destruct (Parser.options self') as [o|]; [|inversion H; reflexivity].
  apply bind_eq in H as [([] & w2 & Hw & H)|(_ & r0 & Hr0 & Hw & _)];
    apply write_inv in Hw as [? ->]; [|by subst r0].
  inversion H; subst. apply rtc_once, step_description.
Qed.

Lemma annotate_inv {S A} n (m : M S A) s r s' :
  annotate n m s = (r, s') ->
  exists r0, m s = (r0, s') /\ is_normal r0 = is_normal r /\
    match r0 with
    | Normal a => r = Normal a
    | Throw e => r = Throw (append_message e (inside n))
    | Abort => r = Abort
    end.
Proof.
  unfold annotate. destruct (m s) as [[a|e|] s1]; intros H; inversion H; subst;
    eexists; split; try done.
Qed.

Lemma computed_key_truthy quote self w k :
  computed_key quote self w = Normal (Some k) -> truthy k = true.
Proof.
  unfold computed_key.
  destruct (Parser.children self) as [[|c cs]|].
  - destruct (Parser.description self); intros H; inversion H.
    apply truthy_leaf_key.
  - destruct (child_keys _ w) as [[ks|]| |]; intros H; inversion H.
    apply truthy_node_key.
  - destruct (Parser.description self); intros H; inversion H.
    apply truthy_leaf_key.
Qed.

(** Lines 110-121 in one piece: with a key [k] computed, [this] gets it
    and is registered unless the cache already has an entry; with none,
    nothing is written. *)
Lemma key_phase_spec quote this w self r w' :
  heap w !! this = Some self ->
  truthy_opt (Parser.cacheKey self) = false ->
  (let* _ := assign_key quote this in register this) w = (r, w') ->
  match computed_key quote self w with
  | Normal (Some k) =>
      w' = set_cache (match __cache w !! k with
                      | Some _ => __cache w
                      | None => <[k := this]> (__cache w)
                      end) (update this (Parser.set_cacheKey k) w) /\
      r = Normal (match __cache w !! k with
                  | Some q => Some (Ref q)
                  | None => None
                  end)
  | Normal None => w' = w /\ r = Normal None
  | Throw e => w' = w /\ r = Throw e
  | Abort => w' = w /\ r = Abort
  end.
Proof.
  intros Hself Hkey H. unfold assign_key in H.
  unfold bind at 1 2 3 in H. unfold read at 1 in H. rewrite Hself in H.
  pose proof (computed_key_truthy quote self w) as Htr.
  destruct (computed_key quote self w) as [[k|]|e|]; try (by inversion H).
  - specialize (Htr k eq_refl). unfold write in H.
    unfold register, bind, read in H. rewrite lookup_update in H.
    rewrite decide_True in H by done. rewrite Hself in H. simpl in H.
    rewrite Htr in H.
    change (__cache (update this (Parser.set_cacheKey k) w)) with (__cache w) in H.
    destruct (__cache w !! k); inversion H; by subst.
  - unfold ret at 1 in H. unfold register, bind, read in H.
    rewrite Hself, Hkey in H. by inversion H.
Qed.

Lemma frame_untouched st st' p o :
  ext (fun _ => False) st st' ->
  heap st.2 !! p = Some o ->
  exists o', heap st'.2 !! p = Some o' /\
    Parser.id o' = Parser.id o /\ Parser.name o' = Parser.name o /\
    Parser.children o' = Parser.children o /\
    Parser.cacheKey o' = Parser.cacheKey o /\
    Parser.matcher o' = Parser.matcher o /\
    Parser.options o' = Parser.options o /\
    Parser.generateMatcher o' = Parser.generateMatcher o.
Proof.
  intros (H1 & _) Ho. destruct (H1 _ _ Ho) as (o' & Ho' & Hi & Hn & _ & _ & Hf).
  destruct Hf as (?&?&?&?&?); [tauto|]. exists o'. by repeat split.
Qed.

Lemma steps_none touch st st' :
  rtc (step (fun _ => False)) st st' -> rtc (step touch) st st'.
Proof. apply steps_mono. by intros x []. Qed.

(** Lines 107-128. *)
Lemma finish_spec quote touch fc this w self r w' :
  heap w !! this = Some self ->
  truthy_opt (Parser.cacheKey self) = false ->
  is_Some (Parser.children self) ->
  touch this ->
  finish quote this w = (r, w') ->
  wsteps touch fc w w' /\
  (forall a, r = Normal a -> returned w' this a).
Proof.
  intros Hself Hkey Hch Htouch H. unfold finish in H.
  apply bind_eq in H as [(d & w1 & Hd & H)|(Hr & r0 & _ & Hd & _)].
  2:{ split.
      - apply steps_none. by eapply getDescription_trace.
      - intros a ->. done. }
  pose proof (getDescription_trace (fun _ => False) fc _ _ _ _ _ Hd) as T0.
  assert (T1 : wsteps touch fc w w1).
  { by apply steps_none. }
  destruct (frame_untouched _ _ _ _ (steps_ext _ _ _ T0) Hself)
    as (self1 & Hself1 & _ & _ & Hch1 & Hkey1 & _ & _ & _).
  cbn [fst snd] in Hself1. rewrite <- Hch1 in Hch. rewrite <- Hkey1 in Hkey.
  clear Hd T0 Hself Hch1 Hkey1.
  unfold bind at 1, read at 1 in H. rewrite Hself1 in H.
  destruct (Parser.options self1) as [o|] eqn:Ho.
  2:{ inversion H; subst. split; [done|]. by intros a. }
  (* the last lines, once the key phase has found nothing to return *)
  assert (Hlast : forall w2 s2 r w',
    wsteps touch fc w1 w2 ->
    heap w2 !! this = Some s2 ->
    Parser.children s2 = Parser.children self1 ->
    (Parser.cacheKey s2 = Parser.cacheKey self1 \/
     exists k, Parser.cacheKey s2 = Some k /\ truthy k = true /\
               __cache w2 !! k = Some this) ->
    (let* self' := read this in
     match Parser.generateMatcher self', Parser.children self' with
     | Some g, Some cs =>
         let* _ := write this (Parser.set_matcher (g cs)) in ret (Ref this)
     | _, _ => abort
     end) w2 = (r, w') ->
    wsteps touch fc w w' /\ (forall a, r = Normal a -> returned w' this a)).
  { clear H. intros w2 s2 r2 w3 T2 Hs2 Hc2 Hk2 H.
    unfold bind at 1, read at 1 in H. rewrite Hs2 in H.
    destruct (Parser.generateMatcher s2) as [g|];
      [|inversion H; subst; split; [by etrans|by intros a]].
    destruct (Parser.children s2) as [cs|] eqn:Hcs;
      [|inversion H; subst; split; [by etrans|by intros a]].
    apply bind_eq in H as [([] & w4 & Hw & H)|(_ & r0 & Hr0 & Hw & _)];
      apply write_inv in Hw as [? ->]; [|by subst r0].
    inversion H; subst. split.
    - etrans; [exact T1|]. etrans; [exact T2|].
      apply rtc_once. by apply step_matcher.
    - intros a [= <-]. eexists. rewrite lookup_update, decide_True by done.
      rewrite Hs2. split; [done|]. simpl. rewrite Hcs.
      destruct Hk2 as [Hk2|(k & Hk2 & Hk & Hq)].
      + right. rewrite Hk2. split; [done|]. split; [by eexists|done].
      + left. exists k, this. by repeat split. }
  destruct (ParserOptions.cacheable o).
  - pose proof (computed_key_truthy quote self1 w1) as Htr.
    apply bind_eq in H as [(found & w2 & Hp & H)|(Hr & r0 & Hr0 & Hp & _)];
      pose proof (key_phase_spec _ _ _ _ _ _ Hself1 Hkey Hp) as Hspec;
      destruct (computed_key quote self1 w1) as [[k|]|e|];
      destruct Hspec as [-> Hres]; try discriminate Hres;
      try (subst r0; discriminate Hr0);
      try (split; [exact T1|intros a ->; discriminate Hr]).
    + specialize (Htr k eq_refl). injection Hres as ->.
      assert (T2 : wsteps touch fc w1
                (set_cache (match __cache w1 !! k with
                            | Some _ => __cache w1
                            | None => <[k:=this]> (__cache w1)
                            end) (update this (Parser.set_cacheKey k) w1))).
      { apply rtc_once. by eapply step_key. }
      destruct (__cache w1 !! k) as [q|] eqn:Hq.
      * inversion H; subst. split; [by etrans|].
        intros a [= <-]. eexists. cbn [heap set_cache].
        rewrite lookup_update, decide_True by done. rewrite Hself1.
        split; [done|]. left. exists k, q. by repeat split.
      * eapply Hlast; [exact T2| | | |exact H].
        -- cbn [heap set_cache]. rewrite lookup_update, decide_True by done.
           by rewrite Hself1.
        -- done.
        -- right. exists k. repeat split; [done|]. simpl.
           by rewrite lookup_insert_eq.
    + injection Hres as ->.
      eapply Hlast; [reflexivity|exact Hself1|done|by left|exact H].
  - unfold bind at 1 in H. unfold ret at 1 in H.
    eapply Hlast; [reflexivity|exact Hself1|done|by left|exact H].
Qed.

Lemma fresh_not_resolved st p o :
  heap st.2 !! p = Some o -> is_Some (Parser.children o) -> ~ fresh st p.
Proof.
  intros Ho [cs Hcs] Hf. destruct (Hf _ Ho) as [Hn _]. congruence.
Qed.

(** The [try] block: what it writes, and how it leaves [this]. *)
Lemma resolve_children_spec rc this self st r st' :
  (forall p s r s', rc p s = (r, s') -> trace (fresh s) (is_normal r) s s') ->
  heap st.2 !! this = Some self ->
  Parser.children self = None ->
  truthy_opt (Parser.cacheKey self) = false ->
  resolve_children rc this self st = (r, st') ->
  trace (fresh st) (is_normal r) st st' /\
  (is_normal r = true ->
   exists s', heap st'.2 !! this = Some s' /\ is_Some (Parser.children s') /\
     Parser.cacheKey s' = Parser.cacheKey self /\
     Parser.options s' = Parser.options self /\
     Parser.name s' = Parser.name self /\
     Parser.generateMatcher s' = Parser.generateMatcher self).
Proof.
  intros Hrec Hself Hch Hkey H. unfold resolve_children in H.
  assert (Hthis : fresh st this).
  { intros o Ho. assert (o = self) as -> by congruence. done. }
  apply bind_eq in H as [(cs0 & st1 & H1 & H)|(Hr & r0 & Hr0 & H1 & _)].
  2:{ rewrite Hr. split; [|done]. rewrite <- Hr0.
      destruct (Parser.options self) as [o|].
      - apply (mapM_trace (fresh st) (fun _ => True) unlazy
                 (fun _ _ _ _ => I)
                 (fun x s r s' _ => unlazy_trace _ x s r s')
                 _ _ _ _ I H1).
      - inversion H1. apply trace_refl. }
  destruct (Parser.options self) as [o|] eqn:Ho; [|by inversion H1].
  assert (T1 : rtc (step (fun _ => False)) st st1).
  { apply (mapM_trace (fun _ => False) (fun _ => True) unlazy
             (fun _ _ _ _ => I)
             (fun x s r s' _ => unlazy_trace _ x s r s')
             _ _ _ _ I H1). }
  destruct (frame_untouched _ _ _ _ (steps_ext _ _ _ T1) Hself)
    as (self1 & Hself1 & _ & Hname1 & Hch1 & Hkey1 & _ & Hopt1 & Hgen1).
  apply steps_none with (touch := fresh st) in T1.
  apply bind_eq in H as [([] & st2 & H2 & H)|(_ & r0 & Hr0 & H2 & _)];
    apply lift_inv in H2 as [Hfc2 H2]; apply write_inv in H2 as [? Hw2];
    [|by subst r0].
  destruct st1 as [fc1 w1], st2 as [fc2 w2]. cbn [fst snd] in *. subst fc2 w2.
  assert (T2 : rtc (step (fresh st)) st
                 (fc1, update this (Parser.set_children (Ref <$> cs0)) w1)).
  { eapply rtc_r; [exact T1|]. by apply step_children. }
  set (st2 := (fc1, update this (Parser.set_children (Ref <$> cs0)) w1)) in *.
  assert (Hself2 : heap st2.2 !! this
                   = Some (Parser.set_children (Ref <$> cs0) self1)).
  { unfold st2. cbn [snd]. rewrite lookup_update, decide_True by done.
    by rewrite Hself1. }
  assert (Hmono : forall x, fresh st2 x -> fresh st x).
  { intros x. eapply fresh_anti. by apply steps_ext. }
  assert (T3 : forall r3 st3, mapM rc cs0 st2 = (r3, st3) ->
             trace (fresh st2) (is_normal r3) st2 st3).
  { intros r3 st3. apply (mapM_trace _ (fun s => forall x, fresh s x -> fresh st2 x)).
    - intros s s' Hs Hss x Hx. apply Hs. eapply fresh_anti; [|exact Hx].
      by apply steps_ext.
    - intros x s r1 s' Hs Hx. eapply trace_mono; [exact Hs|].
      exact (Hrec _ _ _ _ Hx).
    - done. }
  apply bind_eq in H as [(cs1 & st3 & H3 & H)|(Hr & r0 & Hr0 & H3 & _)].
  2:{ rewrite Hr. split; [|done]. rewrite <- Hr0.
      eapply trace_bind; [exact T2|]. eapply trace_mono; [exact Hmono|]. by apply T3. }
  specialize (T3 _ _ H3). cbn [is_normal] in T3.
  assert (Hnot : ~ fresh st2 this).
  { eapply fresh_not_resolved; [exact Hself2|]. by eexists. }
  destruct (steps_ext _ _ _ T3) as (E3 & _).
  destruct (E3 _ _ Hself2) as (self3 & Hself3 & _ & Hname3 & _ & _ & Hfr).
  destruct (Hfr Hnot) as (Hch3 & Hkey3 & _ & Hopt3 & Hgen3).
  apply lift_inv in H as [Hfc4 H4]. apply write_inv in H4 as [-> Hw4].
  destruct st3 as [fc3 w3], st' as [fc4 w4]. cbn [fst snd] in *. subst fc4 w4.
  split.
  - cbn [is_normal]. unfold trace.
    etrans; [exact T2|]. etrans; [eapply steps_mono; [exact Hmono|exact T3]|].
    apply rtc_once. by apply step_children.
  - intros _. eexists. rewrite lookup_update, decide_True by done.
    rewrite Hself3. split; [done|]. split; [by eexists|].
    simpl. rewrite Hkey3, Hopt3, Hname3, Hgen3. simpl.
    by rewrite Hkey1, Hopt1, Hname1, Hgen1.
Qed.

Lemma resolve_S quote fuel this :
  resolve quote (S fuel) this =
  (let* self := lift (read this) in
   if truthy_opt (Parser.cacheKey self)
   then fun st =>
          (Normal (lookup_cache (default EmptyString (Parser.cacheKey self)) st.2), st)
   else if bool_decide (is_Some (Parser.children self)) then ret (Ref this)
   else
     let* _ := annotate (Parser.name self)
                 (resolve_children (resolve quote fuel) this self) in
     lift (finish quote this)).
Proof. reflexivity. Qed.

(** Every state change of [resolve] is a step on an object that was not
    resolved when the call began. *)
Lemma resolve_trace quote fuel :
  forall this st r st',
    resolve quote fuel this st = (r, st') ->
    trace (fresh st) (is_normal r) st st'.
Proof.
  induction fuel as [|fuel IH]; intros this st r st' H.
  { inversion H. apply trace_refl. }
  rewrite resolve_S in H.
  apply bind_eq in H as [(self & st1 & Hr & H)|(Hr & r0 & Hr0 & Hrd & _)];
    [|apply lift_inv in Hrd as [Hfc Hrd]; apply read_inv in Hrd as [Hw _];
      destruct st, st'; cbn [fst snd] in *; subst; rewrite Hr; apply trace_refl].
  apply lift_inv in Hr as [Hfc Hr]. apply read_inv in Hr as [Hw Hself].
  assert (st1 = st) as -> by (destruct st, st1; cbn [fst snd] in *; by subst).
  clear Hfc Hw.
  destruct (truthy_opt (Parser.cacheKey self)) eqn:Hkey.
  { inversion H. apply trace_refl. }
  destruct (bool_decide (is_Some (Parser.children self))) eqn:Hch.
  { inversion H. apply trace_refl. }
  apply bool_decide_eq_false in Hch.
  assert (Hnone : Parser.children self = None).
  { destruct (Parser.children self); [|done]. destruct Hch. by eexists. }
  assert (Hthis : fresh st this).
  { intros o Ho. assert (o = self) as -> by congruence. done. }
  apply bind_eq in H as [([] & stB & HB & H)|(Hr & r0 & Hr0 & HB & _)];
    apply annotate_inv in HB as (rB & HB & HnB & HrB);
    destruct (resolve_children_spec _ _ _ _ _ _ IH Hself Hnone Hkey HB)
      as [TB PB].
  - destruct rB as [[]| |]; try discriminate HnB.
    destruct (PB eq_refl) as (sB & HsB & HchB & HkeyB & _).
    apply lift_inv in H as [Hfc H].
    assert (HkB : truthy_opt (Parser.cacheKey sB) = false) by (by rewrite HkeyB).
    destruct (finish_spec _ (fresh st) stB.1 _ _ _ _ _ HsB HkB HchB Hthis H)
      as [TF _].
    eapply trace_bind; [exact TB|]. apply trace_weaken.
    unfold wsteps in TF. destruct stB, st'; cbn [fst snd] in *. by subst.
  - rewrite Hr, <- Hr0, <- HnB. exact TB.
Qed.

(** On a normal return, [resolve] either came back from line 96 with
    nothing written, or it hands back what [returned] says. *)
Lemma resolve_returned_gen quote fuel this st a st' :
  resolve quote fuel this st = (Normal a, st') ->
  (st' = st /\ exists self, heap st.2 !! this = Some self /\
      truthy_opt (Parser.cacheKey self) = true /\
      a = early_result st.2 this self) \/
  returned st'.2 this a.
Proof.
  intros H. destruct fuel as [|fuel]; [by inversion H|].
  rewrite resolve_S in H.
  apply bind_eq in H as [(self & st1 & Hr & H)|(Hr & _)]; [|done].
  apply lift_inv in Hr as [Hfc Hr]. apply read_inv in Hr as [Hw Hself].
  assert (st1 = st) as -> by (destruct st, st1; cbn [fst snd] in *; by subst).
  clear Hfc Hw.
  destruct (truthy_opt (Parser.cacheKey self)) eqn:Hkey.
  { inversion H; subst. left. split; [done|]. exists self.
    unfold early_result. by rewrite Hkey. }
  right.
  destruct (bool_decide (is_Some (Parser.children self))) eqn:Hch.
  { inversion H; subst. exists self. split; [done|]. right.
    apply bool_decide_eq_true in Hch. done. }
  apply bool_decide_eq_false in Hch.
  assert (Hnone : Parser.children self = None).
  { destruct (Parser.children self); [|done]. destruct Hch. by eexists. }
  apply bind_eq in H as [([] & stB & HB & H)|(Hr & _)]; [|done].
  apply annotate_inv in HB as (rB & HB & HnB & HrB).
  destruct (resolve_children_spec _ _ _ _ _ _ (resolve_trace quote fuel)
              Hself Hnone Hkey HB) as [TB PB].
  destruct rB as [[]| |]; try discriminate HnB.
  destruct (PB eq_refl) as (sB & HsB & HchB & HkeyB & _).
  apply lift_inv in H as [Hfc H].
  assert (HkB : truthy_opt (Parser.cacheKey sB) = false) by (by rewrite HkeyB).
  destruct (finish_spec _ (fun _ => True) stB.1 _ _ _ _ _ HsB HkB HchB I H)
    as [_ PF].
  by apply PF.
Qed.

Lemma returned_early w this a :
  returned w this a ->
  exists self, heap w !! this = Some self /\ resolved self /\
    a = early_result w this self.
Proof.
  intros (self & Hself & [(k & q & Hk & Ht & Hq & ->)|(Hk & Hc & ->)]);
    exists self; (split; [done|]); unfold resolved, early_result.
  - rewrite Hk. simpl. rewrite Ht. split; [by left|].
    unfold lookup_cache. by rewrite Hq.
  - rewrite Hk. split; [by right|done].
Qed.

Lemma resolve_returned quote fuel this st a st' :
  cache_ok st.2 ->
  resolve quote fuel this st = (Normal a, st') ->
  returned st'.2 this a.
Proof.
  intros Hok H.
  apply resolve_returned_gen in H as [(-> & self & Hself & Hkey & ->)|H]; [|done].
  exists self. split; [done|]. left.
  destruct (Parser.cacheKey self) as [k|] eqn:Hk; [|done].
  destruct (Hok _ _ _ Hself Hk Hkey) as [q Hq].
  exists k, q. unfold early_result, lookup_cache. rewrite Hk. simpl in *.
  rewrite Hkey, Hq. done.
Qed.

Lemma resolve_early quote fuel fc w this self :
  heap w !! this = Some self -> resolved self ->
  resolve quote (S fuel) this (fc, w)
  = (Normal (early_result w this self), (fc, w)).
Proof.
  intros Hself H. rewrite resolve_S.
  unfold bind at 1, lift at 1, read. cbn [fst snd]. rewrite Hself.
  unfold early_result.
  destruct (truthy_opt (Parser.cacheKey self)) eqn:Hk; [reflexivity|].
  destruct H as [H|H]; [congruence|]. by rewrite bool_decide_eq_true_2.
Qed.

(** ** The key a node is given *)

Lemma child_keys_ext cs w w' :
  (forall q, Ref q ∈ cs ->
     Parser.cacheKey <$> heap w' !! q = Parser.cacheKey <$> heap w !! q) ->
  child_keys cs w' = child_keys cs w.
Proof.
  induction cs as [|[|q] cs IH]; intros H; simpl; [done|done|].
  pose proof (H q (list_elem_of_here _ _)) as Hq.
  rewrite IH by (intros; apply H; by apply list_elem_of_further).
  destruct (heap w' !! q) as [o'|], (heap w !! q) as [o|];
    simpl in Hq; try done.
  injection Hq as ->. done.
Qed.

Lemma child_keys_all cs w ks :
  child_keys cs w = Normal (Some ks) ->
  forall q, Ref q ∈ cs ->
    exists o k, heap w !! q = Some o /\ Parser.cacheKey o = Some k.
Proof.
  revert ks. induction cs as [|[|q0] cs IH]; intros ks H q Hq; simpl in H.
  - by apply elem_of_nil in Hq.
  - done.
  - destruct (heap w !! q0) as [o|] eqn:Ho; [|done].
    destruct (Parser.cacheKey o) as [k|] eqn:Hk; [|done].
    destruct (child_keys cs w) as [[ks'|]| |] eqn:Hcs; try done.
    apply elem_of_cons in Hq as [[= ->]|Hq]; [by eauto|].
    by eapply IH.
Qed.

(** The computed key reads the name, the description and the keys of the
    children, nothing else; and a node that gets a key from its children
    is not one of them. *)
Lemma computed_key_frame quote self self' w w' :
  Parser.name self' = Parser.name self ->
  Parser.children self' = Parser.children self ->
  Parser.description self' = Parser.description self ->
  (forall cs q, Parser.children self = Some cs -> Ref q ∈ cs ->
     Parser.cacheKey <$> heap w' !! q = Parser.cacheKey <$> heap w !! q) ->
  computed_key quote self' w' = computed_key quote self w.
Proof.
  intros Hn Hc Hd Hk. unfold computed_key. rewrite Hn, Hc, Hd.
  destruct (Parser.children self) as [[|c cs]|]; try done.
  by rewrite (child_keys_ext (c :: cs) w w') by (intros; by eapply Hk).
Qed.

Lemma computed_key_children quote self w k q cs :
  computed_key quote self w = Normal (Some k) ->
  Parser.children self = Some cs -> Ref q ∈ cs ->
  exists o k', heap w !! q = Some o /\ Parser.cacheKey o = Some k'.
Proof.
  unfold computed_key. intros H Hcs Hq. rewrite Hcs in H.
  destruct cs as [|c cs]; [by apply elem_of_nil in Hq|].
  destruct (child_keys (c :: cs) w) as [[ks|]| |] eqn:E; try done.
  by eapply child_keys_all.
Qed.

(** Lines 107-128 on a node without a key: afterwards its [cacheKey] is
    the key computed from its name and its children's keys (from its
    description, for a leaf) when it is cacheable, and still unset when
    it is not, or when a child has no key. *)
Lemma finish_key quote this w self o a w' :
  heap w !! this = Some self ->
  Parser.cacheKey self = None ->
  Parser.options self = Some o ->
  finish quote this w = (Normal a, w') ->
  exists self', heap w' !! this = Some self' /\
    Parser.name self' = Parser.name self /\
    Parser.children self' = Parser.children self /\
    Parser.cacheKey self' =
      if ParserOptions.cacheable o
      then match computed_key quote self' w' with
           | Normal (Some k) => Some k
           | _ => None
           end
      else None.
Proof.
  intros Hself Hkey Hopt H. unfold finish in H.
  apply bind_eq in H as [(d & w1 & Hd & H)|(Hr & _)]; [|done].
  pose proof (getDescription_trace (fun _ => False) ∅ _ _ _ _ _ Hd) as T0.
  destruct (frame_untouched _ _ _ _ (steps_ext _ _ _ T0) Hself)
    as (self1 & Hself1 & _ & Hname1 & Hch1 & Hkey1 & _ & Hopt1 & _).
  cbn [fst snd] in Hself1.
  rewrite <- Hname1, <- Hch1. rewrite Hkey in Hkey1. rewrite Hopt in Hopt1.
  clear Hd T0 Hself Hname1 Hch1 Hkey Hopt self.
  unfold bind at 1, read at 1 in H. rewrite Hself1, Hopt1 in H.
  (* the last lines *)
  assert (Hlast : forall w2 s2,
    heap w2 !! this = Some s2 ->
    (let* self' := read this in
     match Parser.generateMatcher self', Parser.children self' with
     | Some g, Some cs =>
         let* _ := write this (Parser.set_matcher (g cs)) in ret (Ref this)
     | _, _ => abort
     end) w2 = (Normal a, w') ->
    exists m, w' = update this (Parser.set_matcher m) w2).
  { intros w2 s2 Hs2 H2. unfold bind at 1, read at 1 in H2. rewrite Hs2 in H2.
    destruct (Parser.generateMatcher s2) as [g|]; [|done].
    destruct (Parser.children s2) as [cs|]; [|done].
    unfold bind, write, ret in H2. injection H2 as _ <-. by eexists. }
  assert (Hstable : forall s2 w2 m,
    (forall q, q <> this -> heap w2 !! q = heap w1 !! q) ->
    (forall cs q, Parser.children self1 = Some cs -> Ref q ∈ cs ->
       Parser.cacheKey s2 <> Parser.cacheKey self1 -> q <> this) ->
    heap w2 !! this = Some s2 ->
    Parser.name s2 = Parser.name self1 ->
    Parser.children s2 = Parser.children self1 ->
    Parser.description s2 = Parser.description self1 ->
    computed_key quote (Parser.set_matcher m s2) (update this (Parser.set_matcher m) w2)
    = computed_key quote self1 w1 /\
    computed_key quote s2 w2 = computed_key quote self1 w1).
  { intros s2 w2 m Hother Hnot Hs2 Hn2 Hc2 Hd2.
    assert (Hk : forall cs q, Parser.children self1 = Some cs -> Ref q ∈ cs ->
              Parser.cacheKey <$> heap w2 !! q = Parser.cacheKey <$> heap w1 !! q).
    { intros cs q Hcs Hq. destruct (decide (q = this)) as [->|Hne].
      - rewrite Hs2, Hself1. simpl. f_equal.
        destruct (decide (Parser.cacheKey s2 = Parser.cacheKey self1)); [done|].
        by destruct (Hnot _ _ Hcs Hq).
      - by rewrite Hother. }
    split; apply computed_key_frame; try done.
    intros cs q Hcs Hq. rewrite lookup_update.
    destruct (decide (this = q)) as [<-|]; [|by eapply Hk].
    rewrite <- (Hk _ _ Hcs Hq), Hs2. done. }
  destruct (ParserOptions.cacheable o).
  - apply bind_eq in H as [(found & w2 & Hp & H)|(Hr & _)]; [|done].
    assert (Hkf : truthy_opt (Parser.cacheKey self1) = false) by (by rewrite Hkey1).
    pose proof (key_phase_spec _ _ _ _ _ _ Hself1 Hkf Hp) as Hspec.
    destruct (computed_key quote self1 w1) as [[k|]|e|] eqn:Hck;
      destruct Hspec as [-> Hres]; try discriminate Hres; injection Hres as ->.
    + set (w2 := set_cache (match __cache w1 !! k with
                            | Some _ => __cache w1
                            | None => <[k:=this]> (__cache w1)
                            end) (update this (Parser.set_cacheKey k) w1)) in *.
      assert (Hs2 : heap w2 !! this = Some (Parser.set_cacheKey k self1)).
      { unfold w2. cbn [heap set_cache].
        rewrite lookup_update, decide_True by done. by rewrite Hself1. }
      assert (Hother : forall q, q <> this -> heap w2 !! q = heap w1 !! q).
      { intros q Hq. unfold w2. cbn [heap set_cache].
        rewrite lookup_update, decide_False by done. done. }
      assert (Hnot : forall cs q, Parser.children self1 = Some cs -> Ref q ∈ cs ->
                Parser.cacheKey (Parser.set_cacheKey k self1) <> Parser.cacheKey self1 ->
                q <> this).
      { intros cs q Hcs Hq _ ->.
        destruct (computed_key_children _ _ _ _ _ _ Hck Hcs Hq) as (o' & k' & Ho' & Hk').
        congruence. }
      destruct (__cache w1 !! k) as [q|] eqn:Hq.
      * injection H as _ <-. eexists. split; [exact Hs2|].
        split; [done|]. split; [done|].
        destruct (Hstable _ _ (fun _ _ => Done (MatchFailure EmptyString (mkSpan 0 0))) Hother Hnot Hs2 eq_refl eq_refl eq_refl)
          as [_ ->]. done.
      * destruct (Hlast _ _ Hs2 H) as [m ->].
        eexists. rewrite lookup_update, decide_True by done. rewrite Hs2.
        split; [done|]. split; [done|]. split; [done|].
        destruct (Hstable _ _ m Hother Hnot Hs2 eq_refl eq_refl eq_refl) as [-> _].
        done.
    + destruct (Hlast _ _ Hself1 H) as [m ->].
      eexists. rewrite lookup_update, decide_True by done. rewrite Hself1.
      split; [done|]. split; [done|]. split; [done|].
      destruct (Hstable self1 w1 m) as [-> _]; done.
  - unfold bind at 1, ret at 1 in H.
    destruct (Hlast _ _ Hself1 H) as [m ->].
    eexists. rewrite lookup_update, decide_True by done. rewrite Hself1.
    by repeat split.
Qed.

(** [resolve] on a node as the constructor left it. *)
Lemma resolve_key quote fuel this st self o a st' :
  heap st.2 !! this = Some self ->
  Parser.children self = None ->
  Parser.cacheKey self = None ->
  Parser.options self = Some o ->
  resolve quote fuel this st = (Normal a, st') ->
  exists self', heap st'.2 !! this = Some self' /\
    Parser.name self' = Parser.name self /\
    Parser.cacheKey self' =
      if ParserOptions.cacheable o
      then match computed_key quote self' st'.2 with
           | Normal (Some k) => Some k
           | _ => None
           end
      else None.
Proof.
  intros Hself Hch Hkey Hopt H. destruct fuel as [|fuel]; [by inversion H|].
  destruct st as [fc w]. cbn [fst snd] in Hself. rewrite resolve_S in H.
  unfold bind at 1, lift at 1, read in H. cbn [fst snd] in H.
  rewrite Hself, Hkey, Hch in H.
  cbn [truthy_opt] in H.
  rewrite bool_decide_eq_false_2 in H by (by intros [? ?]).
  apply bind_eq in H as [([] & stB & HB & H)|(Hr & _)]; [|done].
  apply annotate_inv in HB as (rB & HB & HnB & HrB).
  assert (Hkf : truthy_opt (Parser.cacheKey self) = false) by (by rewrite Hkey).
  destruct (resolve_children_spec _ _ _ (fc, w) _ _ (resolve_trace quote fuel)
              Hself Hch Hkf HB) as [_ PB].
  destruct rB as [[]| |]; try discriminate HnB.
  destruct (PB eq_refl) as (sB & HsB & _ & HkeyB & HoptB & HnameB & _).
  apply lift_inv in H as [_ H].
  rewrite Hkey in HkeyB. rewrite Hopt in HoptB.
  destruct (finish_key _ _ _ _ _ _ _ HsB HkeyB HoptB H)
    as (self' & Hself' & Hn & _ & Hk).
  exists self'. split; [done|]. split; [congruence|done].
Qed.

(** ** Invariants of the store *)

Lemma cache_inv_ok w : cache_inv w -> cache_ok w.
Proof. intros [H _] p o k Ho Hk _. by destruct (H _ _ _ Ho Hk). Qed.

Lemma trace_inv (I : World -> Prop) touch ok st st' :
  (forall st st', step touch st st' -> I st.2 -> I st'.2) ->
  (forall t st r st', calls_function t st r st' -> I st.2 -> I st'.2) ->
  trace touch ok st st' -> I st.2 -> I st'.2.
Proof.
  intros Hs Hc.
  assert (Hrtc : forall a b, rtc (step touch) a b -> I a.2 -> I b.2).
  { induction 1; eauto. }
  destruct ok; simpl; [apply Hrtc|].
  intros (st1 & H1 & [->|(t & r & H2)]) HI; eauto.
Qed.

Lemma cache_inv_update p f w :
  (forall o, Parser.cacheKey (f o) = Parser.cacheKey o) ->
  cache_inv w -> cache_inv (update p f w).
Proof.
  intros Hf [H1 H2]. split.
  - intros q o k Ho Hk. rewrite lookup_update in Ho.
    destruct (decide (p = q)) as [->|].
    + destruct (heap w !! q) as [o0|] eqn:E; [|done]. injection Ho as <-.
      rewrite Hf in Hk. by eapply H1.
    + by eapply H1.
  - intros k q Hq. destruct (H2 _ _ Hq) as (o & Ho & Hk).
    rewrite lookup_update. destruct (decide (p = q)) as [->|].
    + rewrite Ho. simpl. eexists. split; [done|]. by rewrite Hf.
    + eauto.
Qed.

Lemma cache_inv_snoc w h o pid :
  Parser.cacheKey o = None ->
  cache_inv w ->
  cache_inv (mkWorld (heap w ++ [o]) pid (__cache w) (LazyId w) h).
Proof.
  intros Ho [H1 H2]. split; simpl.
  - intros p o' k Hp Hk. apply lookup_snoc_Some in Hp as [[_ Hp]|[_ ->]].
    + by eapply H1.
    + congruence.
  - intros k q Hq. destruct (H2 _ _ Hq) as (o' & Ho' & Hk).
    exists o'. split; [|done]. rewrite lookup_app_l; [done|].
    by eapply lookup_lt_Some.
Qed.

Lemma cache_inv_functions w h l :
  cache_inv w -> cache_inv (mkWorld (heap w) (ParserId w) (__cache w) l h).
Proof. intros [H1 H2]. split; simpl; eauto. Qed.

Lemma cache_inv_call t st r st' :
  calls_function t st r st' -> cache_inv st.2 -> cache_inv st'.2.
Proof.
  intros H HI. destruct H as [fc w fn id r w' Hfn Htag Hid Hc Hcall]. simpl in *.
  apply call_function_inv in Hcall
    as [[-> ->]|(fn' & Hfn' & Hfs & Hca & Hla & Hheap)]; [done|].
  destruct w' as [h' pid' c' l' f']. simpl in *. subst.
  destruct Hheap as [(-> & -> & _)|(n & o & g & _ & -> & -> & _)].
  - by apply (cache_inv_functions w).
  - by apply (cache_inv_snoc w).
Qed.

Lemma cache_inv_step touch st st' :
  step touch st st' -> cache_inv st.2 -> cache_inv st'.2.
Proof.
  intros H HI.
  destruct H as [fc w t fn Hfn Htag|st t p st' Hcall|fc w this cs Ht
                |fc w this b|fc w this d|fc w this self k Ht Hself Hkey Htr
                |fc w this m Ht]; cbn [fst snd] in *.
  - by apply (cache_inv_functions w).
  - by eapply cache_inv_call.
  - by apply cache_inv_update.
  - by apply cache_inv_update.
  - by apply cache_inv_update.
  - destruct HI as [H1 H2]. split; cbn [heap __cache set_cache].
    + intros q o k0 Ho Hk0. rewrite lookup_update in Ho.
      destruct (decide (this = q)) as [<-|Hne].
      * rewrite Hself in Ho. injection Ho as <-. simpl in Hk0. injection Hk0 as <-.
        split; [done|]. destruct (__cache w !! k) eqn:E; [by rewrite E|].
        by rewrite lookup_insert_eq.
      * destruct (H1 _ _ _ Ho Hk0) as [Ht' [q' Hq']]. split; [done|].
        destruct (__cache w !! k) eqn:E; [by rewrite Hq'|].
        destruct (decide (k = k0)) as [<-|]; [congruence|].
        rewrite lookup_insert_ne by done. by rewrite Hq'.
    + intros k0 q Hq.
      assert (Hcase : __cache w !! k0 = Some q \/
                      (k0 = k /\ q = this /\ __cache w !! k = None)).
      { destruct (__cache w !! k) eqn:E; [by left|].
        destruct (decide (k = k0)) as [<-|].
        - rewrite lookup_insert_eq in Hq. injection Hq as <-. by right.
        - rewrite lookup_insert_ne in Hq by done. by left. }
      destruct Hcase as [Hq0|(-> & -> & Hnone)].
      * destruct (H2 _ _ Hq0) as (o & Ho & Hk0). rewrite lookup_update.
        destruct (decide (this = q)) as [<-|]; [|eauto].
        rewrite Hself. simpl. eexists. split; [done|]. simpl.
        rewrite Hself in Ho. injection Ho as <-. rewrite Hk0 in Hkey.
        destruct (H1 _ _ _ Hself Hk0) as [Hk0t _]. simpl in Hkey. congruence.
      * rewrite lookup_update, decide_True by done. rewrite Hself. simpl. eauto.
  - by apply cache_inv_update.
Qed.

Lemma ids_ok_update p f w :
  (forall o, Parser.id (f o) = Parser.id o) -> ids_ok w -> ids_ok (update p f w).
Proof.
  intros Hf (H0 & H1 & H2).
  assert (Hl : forall q o, heap (update p f w) !! q = Some o ->
            exists o0, heap w !! q = Some o0 /\ Parser.id o = Parser.id o0).
  { intros q o Ho. rewrite lookup_update in Ho.
    destruct (decide (p = q)) as [->|]; [|eauto].
    destruct (heap w !! q) as [o0|]; [|done]. injection Ho as <-. eauto. }
  split; [done|]. split.
  - intros q o Ho. destruct (Hl _ _ Ho) as (o0 & Ho0 & ->). by eapply H1.
  - intros q q' o o' Hlt Ho Ho'.
    destruct (Hl _ _ Ho) as (o0 & Ho0 & ->).
    destruct (Hl _ _ Ho') as (o0' & Ho0' & ->). exact (H2 _ _ _ _ Hlt Ho0 Ho0').
Qed.

(** The constructor keeps the ids in order: the new object takes the
    counter's value, above every id given before. *)
Lemma ids_ok_snoc w n o g c l h :
  ids_ok w ->
  ids_ok (mkWorld (heap w ++ [Parser.mk (ParserId w) n o g None None None None false])
            (S (ParserId w)) c l h).
Proof.
  intros (H0 & H1 & H2). split; [simpl; lia|]. split; simpl.
  - intros p o' Hp. apply lookup_snoc_Some in Hp as [[_ Hp]|[_ <-]].
    + specialize (H1 _ _ Hp). lia.
    + simpl. lia.
  - intros p q o1 o2 Hlt Hp Hq.
    apply lookup_snoc_Some in Hp as [[Hlp Hp]|[-> <-]];
      apply lookup_snoc_Some in Hq as [[Hlq Hq]|[-> <-]]; try lia.
    + exact (H2 _ _ _ _ Hlt Hp Hq).
    + simpl. specialize (H1 _ _ Hp). lia.
Qed.

Lemma ids_ok_call t st r st' :
  calls_function t st r st' -> ids_ok st.2 -> ids_ok st'.2.
Proof.
  intros H HI. destruct H as [fc w fn id r w' Hfn Htag Hid Hc Hcall]. simpl in *.
  apply call_function_inv in Hcall
    as [[-> ->]|(fn' & Hfn' & Hfs & Hca & Hla & Hheap)]; [done|].
  destruct w' as [h' pid' c' l' f']. simpl in *. subst.
  destruct Hheap as [(-> & -> & _)|(n & o & g & _ & -> & -> & _)].
  - done.
  - by apply ids_ok_snoc.
Qed.

Lemma ids_ok_step touch st st' :
  step touch st st' -> ids_ok st.2 -> ids_ok st'.2.
Proof.
  intros H HI. destruct H; cbn [fst snd] in *;
    first [done | by apply ids_ok_update | by eapply ids_ok_call
          | by apply (ids_ok_update _ (Parser.set_cacheKey _))].
Qed.

Lemma resolve_inv (I : World -> Prop) quote fuel p st r st' :
  (forall touch st st', step touch st st' -> I st.2 -> I st'.2) ->
  (forall t st r st', calls_function t st r st' -> I st.2 -> I st'.2) ->
  resolve quote fuel p st = (r, st') -> I st.2 -> I st'.2.
Proof.
  intros Hs Hc H. eapply trace_inv; [apply Hs|apply Hc|].
  by eapply resolve_trace.
Qed.

Lemma reachable_cache_inv quote w : reachable quote w -> cache_inv w.
Proof.
  induction 1 as [|w n o g _ IH|w b src _ IH|w fuel p fc r st' _ IH H].
  - split; [intros p o k Ho; by destruct p|intros k q Hq].
    simpl in Hq. by rewrite lookup_empty in Hq.
  - by apply (cache_inv_snoc w).
  - by apply (cache_inv_functions w).
  - eapply (resolve_inv cache_inv); [| |exact H|exact IH].
    + intros. by eapply cache_inv_step.
    + intros. by eapply cache_inv_call.
Qed.

Lemma reachable_ids_ok quote w : reachable quote w -> ids_ok w.
Proof.
  induction 1 as [|w n o g _ IH|w b src _ IH|w fuel p fc r st' _ IH H].
  - split; [simpl; lia|]. split; [intros p o Ho; by destruct p|].
    intros p q o o' _ Ho. by destruct p.
  - by apply ids_ok_snoc.
  - done.
  - eapply (resolve_inv ids_ok); [| |exact H|exact IH].
    + intros. by eapply ids_ok_step.
    + intros. by eapply ids_ok_call.
Qed.

Lemma resolve_ext quote fuel p st r st' :
  resolve quote fuel p st = (r, st') -> ext (fresh st) st st'.
Proof. intros H. eapply trace_ext. by eapply resolve_trace. Qed.

(** ** The function cache within one pass *)







(** ** Termination

    [resolve] and [getDescription] are written with fuel; on a
    well-formed store enough fuel is always there, so [Abort] never
    stands for something the program does. *)

Lemma count_app {A} (f : A -> bool) l1 l2 :
  count f (l1 ++ l2) = count f l1 + count f l2.
Proof. induction l1 as [|x l1 IH]; simpl; [done|]. rewrite IH. lia. Qed.

Lemma count_le_length {A} (f : A -> bool) l : count f l <= length l.
Proof. induction l as [|x l IH]; simpl; [done|]. destruct (f x); lia. Qed.

Lemma count_mono {A} (f g : A -> bool) l :
  (forall x, f x = true -> g x = true) -> count f l <= count g l.
Proof.
  intros H. induction l as [|x l IH]; simpl; [done|].
  destruct (f x) eqn:E; [rewrite (H _ E)|destruct (g x)]; lia.
Qed.

Lemma count_insert_le {A} (f : A -> bool) l i x y :
  l !! i = Some x -> (f y = true -> f x = true) ->
  count f (<[i := y]> l) <= count f l.
Proof.
  revert i. induction l as [|z l IH]; intros [|i] Hi H; simpl in *; try done.
  - injection Hi as ->. destruct (f y); [rewrite H by done|destruct (f x)]; lia.
  - specialize (IH _ Hi H). lia.
Qed.

Lemma count_insert_lt {A} (f : A -> bool) l i x y :
  l !! i = Some x -> f x = true -> f y = false ->
  S (count f (<[i := y]> l)) = count f l.
Proof.
  revert i. induction l as [|z l IH]; intros [|i] Hi Hx Hy; simpl in *; try done.
  - injection Hi as ->. rewrite Hx, Hy. lia.
  - rewrite <- (IH _ Hi Hx Hy). lia.
Qed.

Lemma count_alter_le {A} (f : A -> bool) (g : A -> A) l i :
  (forall x, l !! i = Some x -> f (g x) = true -> f x = true) ->
  count f (alter g i l) <= count f l.
Proof.
  revert i. induction l as [|z l IH]; intros [|i] H; simpl in *; try done.
  - destruct (f (g z)) eqn:E; [rewrite (H z eq_refl E)|destruct (f z)]; simpl; lia.
  - apply Nat.add_le_mono_l. exact (IH i H).
Qed.

Lemma count_alter_lt {A} (f : A -> bool) (g : A -> A) l i x :
  l !! i = Some x -> f x = true -> f (g x) = false ->
  S (count f (alter g i l)) = count f l.
Proof.
  revert i. induction l as [|z l IH]; intros [|i] Hi Hx Hy; simpl in *; try done.
  - injection Hi as ->. rewrite Hx, Hy. lia.
  - rewrite <- (IH _ Hi Hx Hy). unfold alter. lia.
Qed.

Lemma same_core_fields o o' :
  same_core o o' ->
  Parser.options o' = Parser.options o /\
  Parser.generateMatcher o' = Parser.generateMatcher o /\
  Parser.children o' = Parser.children o /\
  Parser.cacheKey o' = Parser.cacheKey o.
Proof. intros (_&_&?&?&?&_&?). done. Qed.

Lemma same_core_refl o : same_core o o.
Proof. by repeat split. Qed.

Lemma same_core_trans a b c : same_core a b -> same_core b c -> same_core a c.
Proof.
  intros (A1&A2&A3&A4&A5&A6&A7) (B1&B2&B3&B4&B5&B6&B7).
  repeat split; congruence.
Qed.

#[local] Instance core_only_po : PreOrder core_only.
Proof.
  split.
  - intros w. split; [|done]. apply Forall2_same_length_lookup.
    split; [done|]. intros i x y Hx Hy. assert (x = y) as -> by congruence.
    apply same_core_refl.
  - intros a b c (A1 & A2 & A3 & A4 & A5) (B1 & B2 & B3 & B4 & B5).
    split; [|repeat split; congruence].
    eapply Forall2_trans; [|exact A1|exact B1].
    intros x y z. apply same_core_trans.
Qed.

Lemma core_only_update w this f :
  (forall o, same_core o (f o)) -> core_only w (update this f w).
Proof.
  intros Hf. split; [|done]. unfold update. simpl.
  apply Forall2_same_length_lookup. split; [by rewrite length_alter|].
  intros i x y Hx Hy. destruct (decide (this = i)) as [->|Hne].
  - rewrite list_lookup_alter_eq, Hx in Hy. injection Hy as <-. apply Hf.
  - rewrite list_lookup_alter_ne in Hy by done.
    assert (x = y) as -> by congruence. apply same_core_refl.
Qed.

Lemma core_only_lookup w w' p o :
  core_only w w' -> heap w !! p = Some o ->
  exists o', heap w' !! p = Some o' /\ same_core o o'.
Proof.
  intros [H _] Ho. destruct (Forall2_lookup_l _ _ _ _ _ H Ho) as (o' & Ho' & Hs).
  eauto.
Qed.

Lemma core_only_lookup_r w w' p o' :
  core_only w w' -> heap w' !! p = Some o' ->
  exists o, heap w !! p = Some o /\ same_core o o'.
Proof.
  intros [H _] Ho. destruct (Forall2_lookup_r _ _ _ _ _ H Ho) as (o & Ho' & Hs).
  eauto.
Qed.

Lemma core_only_length w w' : core_only w w' -> length (heap w') = length (heap w).
Proof. intros [H _]. symmetry. by eapply Forall2_length. Qed.

Lemma children_valid_core w w' :
  core_only w w' -> children_valid w -> children_valid w'.
Proof.
  intros Hc Hv p o' cs q Ho' Hcs Hq.
  destruct (core_only_lookup_r _ _ _ _ Hc Ho') as (o & Ho & Hs).
  rewrite (core_only_length _ _ Hc). eapply Hv; [exact Ho| |exact Hq].
  destruct Hs as (_&_&_&_&Hch&_). congruence.
Qed.

Lemma flags_update_recursing w this o b :
  heap w !! this = Some o ->
  flags (update this (Parser.set_recursing b) w) = <[this := b]> (flags w).
Proof.
  intros Ho. unfold flags, update. simpl.
  apply list_eq. intros i. rewrite list_lookup_fmap.
  destruct (decide (this = i)) as [->|Hne].
  - rewrite list_lookup_alter_eq, Ho. simpl.
    rewrite list_lookup_insert_eq; [done|].
    rewrite length_fmap. by eapply lookup_lt_Some.
  - rewrite list_lookup_alter_ne, list_lookup_insert_ne by done.
    by rewrite list_lookup_fmap.
Qed.

Lemma flags_update_description w this d :
  flags (update this (Parser.set_description d) w) = flags w.
Proof.
  unfold flags, update. simpl. apply list_eq. intros i.
  rewrite !list_lookup_fmap. destruct (decide (this = i)) as [->|Hne].
  - rewrite list_lookup_alter_eq. by destruct (heap w !! i).
  - by rewrite list_lookup_alter_ne.
Qed.

Lemma flags_lookup w p o :
  heap w !! p = Some o -> flags w !! p = Some (Parser.recursing o).
Proof. intros H. unfold flags. by rewrite list_lookup_fmap, H. Qed.

(** [mapM] of calls that do not abort. *)
Lemma mapM_total {S A B} (I : S -> Prop) (V : A -> Prop) (Q : S -> B -> Prop)
    (f : A -> M S B) :
  (forall x s, I s -> V x ->
     exists r s', f x s = (r, s') /\ r <> Abort /\
       forall y, r = Normal y ->
         I s' /\ Q s' y /\ forall y0, Q s y0 -> Q s' y0) ->
  forall l s, I s -> Forall V l ->
    exists r s', mapM f l s = (r, s') /\ r <> Abort /\
      forall ys, r = Normal ys ->
        I s' /\ Forall (Q s') ys /\ forall y0, Q s y0 -> Q s' y0.
Proof.
  intros Hf. induction l as [|x l IH]; intros s Hs Hl.
  - exists (Normal []), s. split; [done|]. split; [done|].
    intros ys [= <-]. auto.
  - apply Forall_cons in Hl as [Hx Hl].
    destruct (Hf x s Hs Hx) as (r & s1 & Hfx & Hr & Hn).
    simpl. unfold bind at 1. rewrite Hfx.
    destruct r as [y|e|]; [|by exists (Throw e), s1|done].
    destruct (Hn y eq_refl) as (Hs1 & Hy & Hst1).
    destruct (IH s1 Hs1 Hl) as (r & s2 & Hm & Hr2 & Hn2).
    unfold bind at 1. rewrite Hm.
    destruct r as [ys|e|]; [|by exists (Throw e), s2|done].
    destruct (Hn2 ys eq_refl) as (Hs2 & Hys & Hst2).
    exists (Normal (y :: ys)), s2. split; [done|]. split; [done|].
    intros ? [= <-]. split; [done|]. split; [|by auto].
    apply Forall_cons. split; [by apply Hst2|done].
Qed.

Lemma unflagged_raise w this o :
  heap w !! this = Some o -> Parser.recursing o = false ->
  S (unflagged (update this (Parser.set_recursing true) w)) = unflagged w.
Proof.
  intros Ho Hr. unfold unflagged. rewrite (flags_update_recursing _ _ _ _ Ho).
  apply (count_insert_lt negb _ _ false true); [|done|done].
  rewrite (flags_lookup _ _ _ Ho). by rewrite Hr.
Qed.

(** [getDescription] with more fuel than flags that are down. *)
Lemma getDescription_total fuel :
  forall this w,
    children_valid w -> this < length (heap w) -> unflagged w < fuel ->
    exists r w', getDescription fuel this w = (r, w') /\ r <> Abort /\
      forall d, r = Normal d ->
        core_only w w' /\ flags w' = flags w /\
        forall o, heap w !! this = Some o -> Parser.recursing o = false ->
          exists o', heap w' !! this = Some o' /\ is_Some (Parser.description o').
Proof.
  induction fuel as [|fuel IH]; intros this w Hv Hthis Hfuel; [lia|].
  destruct (lookup_lt_is_Some_2 _ _ Hthis) as [self Hself].
  simpl. unfold bind at 1, read at 1. rewrite Hself.
  destruct (truthy_opt (Parser.description self)) eqn:Hd.
  { eexists _, _. split; [done|]. split; [done|]. intros d _.
    split; [reflexivity|]. split; [done|]. intros o Ho _.
    assert (o = self) as -> by congruence. exists self. split; [done|].
    destruct (Parser.description self); [by eexists|done]. }
  destruct (Parser.recursing self) eqn:Hrec.
  { eexists _, _. split; [done|]. split; [done|]. intros d _.
    split; [reflexivity|]. split; [done|]. intros o Ho Hro.
    assert (o = self) as -> by congruence. congruence. }
  unfold bind at 1, write at 1.
  set (w1 := update this (Parser.set_recursing true) w).
  assert (C1 : core_only w w1) by (apply core_only_update; by repeat split).
  assert (Hfl1 : S (unflagged w1) = unflagged w) by (by eapply unflagged_raise).
  destruct (Parser.children self) as [cs|] eqn:Hcs;
    [|by eexists _, _].
  (* the children *)
  set (F := fun p : jsref =>
              match p with
              | Undefined => throw (undefined_error "children")
              | Ref q =>
                  let* o := read q in
                  if long_children o
                  then let* d := getDescription fuel q in ret ("(" +:+ d +:+ ")")
                  else getDescription fuel q
              end).
  destruct (mapM_total
              (fun s => core_only w1 s /\ flags s = flags w1)
              (fun p => forall q, p = Ref q -> q < length (heap w1))
              (fun _ _ => True) F) with (l := cs) (s := w1)
    as (r & w2 & Hm & Hr & Hn).
  { intros [|q] s [Cs Fs] Vq.
    - eexists _, _. split; [done|]. split; [done|]. by intros y.
    - specialize (Vq q eq_refl).
      assert (Hq : q < length (heap s)) by (by rewrite (core_only_length _ _ Cs)).
      destruct (lookup_lt_is_Some_2 _ _ Hq) as [o Ho].
      destruct (IH q s) as (rq & sq & Hgq & Hrq & Hnq).
      { eapply children_valid_core; [exact Cs|].
        eapply children_valid_core; [exact C1|done]. }
      { done. }
      { unfold unflagged. rewrite Fs. fold (unflagged w1). lia. }
      simpl. unfold bind at 1, read at 1. rewrite Ho.
      assert (Hpost : forall y, rq = Normal y ->
                (core_only w1 sq /\ flags sq = flags w1) /\ True /\
                forall y0 : string, True -> True).
      { intros y ->. destruct (Hnq y eq_refl) as (Cq & Fq & _).
        split; [|done]. split; [by etrans|congruence]. }
      destruct (long_children o).
      + unfold bind at 1. rewrite Hgq. destruct rq as [d| |]; [|by eexists _, _|done].
        eexists _, _. split; [done|]. split; [done|]. intros y _. by apply (Hpost d).
      + eexists _, _. split; [exact Hgq|]. split; [done|]. exact Hpost. }
  { split; [reflexivity|done]. }
  { apply Forall_forall. intros p Hp q ->.
    rewrite (core_only_length _ _ C1). by eapply Hv. }
  unfold bind at 1. rewrite Hm.
  destruct r as [descs|e|]; [|by eexists _, _|done].
  destruct (Hn descs eq_refl) as ([C2 F2] & _).
  unfold bind at 1, write at 1.
  set (w3 := update this (Parser.set_recursing false) w2).
  destruct (core_only_lookup _ _ _ _ (transitivity C1 C2) Hself)
    as (self2 & Hself2 & Hs2).
  unfold bind at 1, read at 1.
  assert (Hself3 : heap w3 !! this = Some (Parser.set_recursing false self2)).
  { unfold w3. rewrite lookup_update, decide_True by done. by rewrite Hself2. }
  rewrite Hself3.
  destruct (Parser.options (Parser.set_recursing false self2)) as [o|];
    [|by eexists _, _].
  unfold bind at 1, write at 1. eexists _, _. split; [done|]. split; [done|].
  intros d _.
  assert (C3 : core_only w2 w3) by (apply core_only_update; by repeat split).
  split; [|split].
  - etrans; [exact C1|]. etrans; [exact C2|]. etrans; [exact C3|].
    apply core_only_update. by repeat split.
  - rewrite flags_update_description. unfold w3.
    rewrite (flags_update_recursing _ _ _ _ Hself2), F2. unfold w1.
    rewrite (flags_update_recursing _ _ _ _ Hself).
    rewrite list_insert_insert_eq. apply list_insert_id.
    rewrite (flags_lookup _ _ _ Hself). by rewrite Hrec.
  - intros _ _ _. eexists. rewrite lookup_update, decide_True by done.
    rewrite Hself3. split; [done|]. by eexists.
Qed.

(** *** Well-formed states and their measure *)

Lemma advance_refl st : wf st -> advance st st.
Proof.
  intros H. split; [done|]. split; [done|]. split; [done|]. split; [done|]. eauto.
Qed.

Lemma advance_trans a b c : advance a b -> advance b c -> advance a c.
Proof.
  intros (A1 & A2 & A3 & A4 & A5) (B1 & B2 & B3 & B4 & B5).
  split; [done|]. split; [lia|]. split; [lia|]. split; [lia|].
  intros p o Ho. destruct (A5 _ _ Ho) as (o1 & Ho1 & E1).
  destruct (B5 _ _ Ho1) as (o2 & Ho2 & E2). exists o2. split; [done|congruence].
Qed.

Lemma valid_lazy_mono w w' v :
  length (heap w) <= length (heap w') ->
  length (functions w) <= length (functions w') ->
  valid_lazy w v -> valid_lazy w' v.
Proof. destruct v; simpl; lia. Qed.

Lemma valid_options_mono w w' o :
  length (heap w) <= length (heap w') ->
  length (functions w) <= length (functions w') ->
  valid_options w o -> valid_options w' o.
Proof. intros H1 H2 H l x Hl Hx. eapply valid_lazy_mono; eauto. Qed.

Lemma valid_body_mono w w' b :
  length (heap w) <= length (heap w') ->
  length (functions w) <= length (functions w') ->
  valid_body w b -> valid_body w' b.
Proof.
  destruct b; simpl; eauto using valid_lazy_mono, valid_options_mono.
Qed.

Lemma count_mono_lt {A} (f g : A -> bool) l i x :
  (forall y, g y = true -> f y = true) ->
  l !! i = Some x -> f x = true -> g x = false ->
  S (count g l) <= count f l.
Proof.
  intros H. revert i. induction l as [|z l IH]; intros [|i] Hi Hx Hy;
    simpl in *; try done.
  - injection Hi as ->. rewrite Hx, Hy. pose proof (count_mono g f l H). lia.
  - specialize (IH _ Hi Hx Hy).
    destruct (g z) eqn:E; [rewrite (H _ E)|destruct (f z)]; lia.
Qed.

Lemma count_Forall2 {A} (f : A -> bool) (R : A -> A -> Prop) l l' :
  (forall x y, R x y -> f y = f x) -> Forall2 R l l' -> count f l' = count f l.
Proof.
  intros H. induction 1 as [|x y l l' Hxy _ IH]; simpl; [done|].
  by rewrite (H _ _ Hxy), IH.
Qed.

(** A write to fields of one object that is, or now becomes, resolved. *)
Lemma advance_update fc w this o f :
  wf (fc, w) ->
  heap w !! this = Some o ->
  (forall cs q, Parser.children (f o) = Some cs -> Ref q ∈ cs ->
     q < length (heap w)) ->
  (forall opts, Parser.options (f o) = Some opts -> Parser.options o = Some opts) ->
  is_Some (Parser.children (f o)) ->
  Parser.recursing (f o) = Parser.recursing o ->
  advance (fc, w) (fc, update this f w) /\
  (Parser.children o = None ->
   S (measure (fc, update this f w)) <= measure (fc, w)).
Proof.
  intros [W1 W2 W3 W4 W5 W6] Ho Hcs Hopt Hsome Hrec. cbn [fst snd] in *.
  assert (Hlen : length (heap (update this f w)) = length (heap w)).
  { unfold update. simpl. apply length_alter. }
  assert (Hlook : forall p o', heap (update this f w) !! p = Some o' ->
            (p = this /\ o' = f o) \/ (p <> this /\ heap w !! p = Some o')).
  { intros p o' Hp. rewrite lookup_update in Hp.
    destruct (decide (this = p)) as [<-|]; [|by right; auto].
    rewrite Ho in Hp. injection Hp as <-. by left. }
  split; [split; [|split; [|split; [|split]]]|].
  - split; cbn [fst snd]; rewrite ?Hlen.
    + intros p o' cs q Hp Hc Hq. rewrite Hlen.
      destruct (Hlook _ _ Hp) as [[-> ->]|[_ Hp']].
      * by eapply Hcs.
      * by eapply W1.
    + intros p o' opts Hp Ho'. eapply valid_options_mono; [| |].
      3:{ destruct (Hlook _ _ Hp) as [[-> ->]|[_ Hp']].
          - eapply W2; [exact Ho|]. by apply Hopt.
          - by eapply W2. }
      all: by rewrite ?Hlen.
    + intros t fn Hfn. eapply valid_body_mono; [| |by eapply W3]; by rewrite ?Hlen.
    + intros id p. apply W4.
    + intros k q. apply W5.
    + intros p o' Hp Hc. destruct (Hlook _ _ Hp) as [[-> ->]|[_ Hp']].
      * destruct Hsome as [? Hs]. congruence.
      * by eapply W6.
  - unfold measure. cbn [fst snd]. unfold update. simpl.
    pose proof (count_alter_le unresolved f (heap w) this) as Hle.
    assert (H : count unresolved (alter f this (heap w)) <= count unresolved (heap w)).
    { apply Hle. intros x Hx. assert (x = o) as -> by congruence.
      unfold unresolved at 1. destruct Hsome as [? ->]. done. }
    lia.
  - cbn [fst snd]. lia.
  - done.
  - intros p o0 Hp. cbn [fst snd] in *. rewrite lookup_update.
    destruct (decide (this = p)) as [<-|]; [|eauto].
    rewrite Ho. simpl. exists (f o). split; [done|].
    assert (o0 = o) as -> by congruence. done.
  - intros Hnone. unfold measure. cbn [fst snd]. unfold update. simpl.
    assert (H : S (count unresolved (alter f this (heap w)))
                = count unresolved (heap w)).
    { apply (count_alter_lt unresolved f _ _ o); [done| |].
      - unfold unresolved. by rewrite Hnone.
      - unfold unresolved. by destruct Hsome as [? ->]. }
    lia.
Qed.

(** Descriptions and flags written and put back. *)
Lemma advance_core fc w w' :
  wf (fc, w) -> core_only w w' -> flags w' = flags w -> advance (fc, w) (fc, w').
Proof.
  intros [W1 W2 W3 W4 W5 W6] C Hfl. cbn [fst snd] in *.
  pose proof (core_only_length _ _ C) as Hlen.
  destruct C as (CH & CP & CC & CL & CF).
  assert (C : core_only w w') by done.
  split; [split; cbn [fst snd]; rewrite ?Hlen, ?CF, ?CC|].
  - by eapply children_valid_core.
  - intros p o' opts Hp Hopt.
    destruct (core_only_lookup_r _ _ _ _ C Hp) as (o & Ho & Hs).
    apply same_core_fields in Hs as (Hso & _).
    eapply valid_options_mono; [| |eapply W2; [exact Ho|congruence]];
      by rewrite ?Hlen, ?CF.
  - intros t fn Hfn. eapply valid_body_mono; [| |by eapply W3];
      by rewrite ?Hlen, ?CF.
  - done.
  - done.
  - intros p o' Hp Hc.
    destruct (core_only_lookup_r _ _ _ _ C Hp) as (o & Ho & Hs).
    apply same_core_fields in Hs as (_ & Hg & Hch & _).
    destruct (W6 _ _ Ho) as [Hgen Hr]; [congruence|]. split; [congruence|].
    pose proof (flags_lookup _ _ _ Hp) as F1.
    pose proof (flags_lookup _ _ _ Ho) as F2. congruence.
  - split; [|split; [|split]]; cbn [fst snd]; rewrite ?CF; try lia.
    + unfold measure. cbn [fst snd]. rewrite CF.
      rewrite (count_Forall2 unresolved same_core (heap w) (heap w')); [lia| |done].
      intros x y Hs. apply same_core_fields in Hs as (_ & _ & Hch & _).
      unfold unresolved. by rewrite Hch.
    + intros p o Ho. destruct (core_only_lookup _ _ _ _ C Ho) as (o' & Ho' & _).
      exists o'. split; [done|].
      pose proof (flags_lookup _ _ _ Ho') as F1.
      pose proof (flags_lookup _ _ _ Ho) as F2. congruence.
Qed.

Lemma uncached_insert (fc : FunctionCache) id v fn :
  uncached (<[id := v]> fc) fn = true -> cached fc id = None ->
  uncached fc fn = true.
Proof.
  unfold uncached. destruct (tag fn) as [id'|]; [|done].
  destruct (truthy id'); [|done].
  destruct (decide (id = id')) as [<-|Hne].
  - intros _ ->. done.
  - by rewrite cached_insert_ne.
Qed.

Lemma wf_functions fc w l fs :
  wf (fc, w) ->
  length fs = length (functions w) ->
  (forall t fn, fs !! t = Some fn ->
     exists fn0, functions w !! t = Some fn0 /\ body fn = body fn0) ->
  wf (fc, mkWorld (heap w) (ParserId w) (__cache w) l fs).
Proof.
  intros [W1 W2 W3 W4 W5 W6] Hlen Hfs. cbn [fst snd] in *.
  split; cbn [fst snd heap functions __cache]; try done.
  - intros p o opts Hp Ho. eapply valid_options_mono; [| |by eapply W2]; simpl; lia.
  - intros t fn Hfn. destruct (Hfs _ _ Hfn) as (fn0 & Hfn0 & ->).
    eapply valid_body_mono; [| |by eapply W3]; simpl; lia.
Qed.

(** The tag given to a function object. *)
Lemma advance_tag fc w t fn id :
  wf (fc, w) -> functions w !! t = Some fn -> truthy_opt (tag fn) = false ->
  advance (fc, w)
    (fc, mkWorld (heap w) (ParserId w) (__cache w) (S (LazyId w))
           (<[t := mkFunction (Some id) (body fn) (source fn) (calls fn)]>
              (functions w))).
Proof.
  intros Hwf Hfn Htag. split; [|split; [|split; [|split]]]; cbn [fst snd heap functions].
  - apply wf_functions; [done|apply length_insert|].
    intros t' fn' Hfn'. destruct (decide (t = t')) as [<-|Hne].
    + rewrite list_lookup_insert_eq in Hfn' by (by eapply lookup_lt_Some).
      injection Hfn' as <-. eauto.
    + rewrite list_lookup_insert_ne in Hfn' by done. eauto.
  - unfold measure. cbn [fst snd heap functions].
    pose proof (count_insert_le (uncached fc) (functions w) t fn
                  (mkFunction (Some id) (body fn) (source fn) (calls fn)) Hfn) as H.
    assert (uncached fc fn = true).
    { unfold uncached. destruct (tag fn) as [i|]; [|done]. simpl in Htag.
      by rewrite Htag. }
    specialize (H (fun _ => H0)). lia.
  - done.
  - apply length_insert.
  - eauto.
Qed.

(** A call of a function object that hands back a Parser. *)
Lemma advance_call fc w t fn id p w' :
  wf (fc, w) -> functions w !! t = Some fn -> tag fn = Some id ->
  truthy id = true -> cached fc id = None ->
  call_function t w = (Normal (LParser p), w') ->
  advance (fc, w) (<[id := LParser p]> fc, w') /\ p < length (heap w').
Proof.
  intros Hwf Hfn Htag Hid Hc Hcall. pose proof Hwf as [W1 W2 W3 W4 W5 W6].
  cbn [fst snd] in *.
  apply call_function_inv in Hcall
    as [[? _]|(fn' & Hfn' & Hfs & Hca & Hla & Hheap)]; [done|].
  rewrite Hfn in Hfn'. injection Hfn' as <-.
  set (fn' := mkFunction (tag fn) (body fn) (source fn) (S (calls fn))) in *.
  assert (Hlenf : length (functions w') = length (functions w)).
  { rewrite Hfs. apply length_insert. }
  assert (Hfns : forall t' f, functions w' !! t' = Some f ->
            exists f0, functions w !! t' = Some f0 /\ body f = body f0).
  { intros t' f Hf. rewrite Hfs in Hf. destruct (decide (t = t')) as [<-|Hne].
    - rewrite list_lookup_insert_eq in Hf by (by eapply lookup_lt_Some).
      injection Hf as <-. eauto.
    - rewrite list_lookup_insert_ne in Hf by done. eauto. }
  assert (Hmf : S (count (uncached (<[id := LParser p]> fc)) (functions w'))
                <= count (uncached fc) (functions w)).
  { etrans; [apply (count_mono_lt (uncached fc) _ (functions w') t fn')|].
    - intros y Hy. by eapply uncached_insert.
    - rewrite Hfs. apply list_lookup_insert_eq. by eapply lookup_lt_Some.
    - unfold uncached, fn'. simpl. by rewrite Htag, Hid, Hc.
    - unfold uncached, fn', cached. simpl. rewrite Htag, Hid.
      by rewrite lookup_insert_eq.
    - rewrite Hfs. apply (count_insert_le _ _ _ fn); [done|].
      intros _. unfold uncached. by rewrite Htag, Hid, Hc. }
  assert (Hp : p < length (heap w') /\ length (heap w) <= length (heap w')).
  { destruct Hheap as [(-> & _ & Hb)|(n & o & g & _ & -> & _ & Hr)].
    - split; [|done]. specialize (W3 _ _ Hfn). rewrite Hb in W3. exact W3.
    - injection Hr as ->. rewrite length_app. simpl. lia. }
  destruct Hp as [Hp Hlenh]. split; [|exact Hp].
  assert (Hfc : forall id' q, <[id := LParser p]> fc !! id' = Some (LParser q) ->
            q < length (heap w')).
  { intros id' q Hq. destruct (decide (id = id')) as [<-|Hne].
    - rewrite lookup_insert_eq in Hq. by injection Hq as <-.
    - rewrite lookup_insert_ne in Hq by done. specialize (W4 _ _ Hq). lia. }
  destruct w' as [h' pid' c' l' f']. cbn [heap functions __cache LazyId ParserId] in *.
  subst c' l'.
  destruct Hheap as [(-> & -> & _)|(n & o & g & Hb & -> & -> & _)].
  - split; [|split; [|split; [|split]]]; cbn [fst snd heap functions]; try done.
    + destruct (wf_functions fc w (LazyId w) f' Hwf Hlenf Hfns) as [V1 V2 V3 V4 V5 V6].
      split; cbn [fst snd heap functions __cache] in *; done.
    + unfold measure. cbn [fst snd heap functions]. lia.
    + eauto.
  - set (new := Parser.mk (ParserId w) n (Some o) (Some g)
                  None None None None false) in *.
    assert (Hsn : forall q o', (heap w ++ [new])%list !! q = Some o' ->
              heap w !! q = Some o' \/ o' = new).
    { intros q o' Hq. apply lookup_snoc_Some in Hq as [[_ ?]|[_ ?]]; auto. }
    assert (Hlh : length (heap w ++ [new])%list = S (length (heap w))).
    { rewrite length_app. simpl. lia. }
    split; [|split; [|split; [|split]]]; cbn [fst snd heap functions]; try done.
    + split; cbn [fst snd heap functions __cache].
      * intros q o' cs q' Hq Hcs Hq'. cbn [heap] in *. rewrite Hlh.
        destruct (Hsn _ _ Hq) as [Hq0| ->]; [|done].
        specialize (W1 _ _ _ _ Hq0 Hcs Hq'). lia.
      * intros q o' opts Hq Hopt. cbn [heap] in *.
        eapply (valid_options_mono w); [cbn [heap]; lia|cbn [functions]; lia|].
        destruct (Hsn _ _ Hq) as [Hq0| ->]; [by eapply W2|].
        injection Hopt as <-. specialize (W3 _ _ Hfn). by rewrite Hb in W3.
      * intros t' f Hf. destruct (Hfns _ _ Hf) as (f0 & Hf0 & ->).
        eapply (valid_body_mono w); [cbn [heap]; lia|cbn [functions]; lia|by eapply W3].
      * exact Hfc.
      * intros k q Hq. specialize (W5 _ _ Hq). lia.
      * intros q o' Hq Hcs. cbn [heap] in *.
        destruct (Hsn _ _ Hq) as [Hq0| ->]; [by eapply W6|].
        split; [by eexists|done].
    + unfold measure. cbn [fst snd heap functions]. rewrite count_app. simpl. lia.
    + intros q o' Hq. exists o'. split; [|done].
      rewrite lookup_app_l; [done|]. by eapply lookup_lt_Some.
Qed.

(** [unlazy] on a valid reference does not abort. *)
Lemma unlazy_total v st r st' :
  wf st -> valid_lazy st.2 v -> unlazy v st = (r, st') ->
  r <> Abort /\
  forall p, r = Normal p -> advance st st' /\ p < length (heap st'.2).
Proof.
  destruct st as [fc w]. intros Hwf Hv. unfold unlazy, bind, force. cbn [fst snd] in *.
  destruct v as [s|s|items|p|t|b s]; simpl;
    try (intros H; inversion H; subst; split; [done|by intros p]).
  { intros H; inversion H; subst. split; [done|]. intros ? [= <-].
    split; [by apply advance_refl|done]. }
  simpl in Hv. destruct (lookup_lt_is_Some_2 _ _ Hv) as [fn Hfn]. rewrite Hfn.
  assert (exists id w1 fn1,
    function_id t fn w = (id, w1) /\ advance (fc, w) (fc, w1) /\
    functions w1 !! t = Some fn1 /\ tag fn1 = Some id /\ truthy id = true)
    as (id & w1 & fn1 & -> & Hadv & Hfn1 & Htag & Hid).
  { unfold function_id. destruct (truthy_opt (tag fn)) eqn:Ht.
    - destruct (tag fn) as [id|] eqn:Etag; [|done].
      exists id, w, fn. split; [done|]. split; [by apply advance_refl|done].
    - eexists _, _, _. split; [done|]. split; [by apply advance_tag|].
      simpl. rewrite list_lookup_insert_eq; [|by eapply lookup_lt_Some].
      split; [done|]. split; [done|]. apply truthy_pretty. }
  pose proof Hadv as (Hwf1 & _).
  destruct (cached fc id) as [v|] eqn:Hc.
  - assert (Hfc : fc !! id = Some v).
    { unfold cached in Hc. destruct (fc !! id) as [v'|]; [|done].
      destruct (truthy_lazy v'); by inversion Hc. }
    destruct v; intros H; inversion H; subst; (split; [done|]); try (by intros p).
    intros ? [= <-]. split; [done|]. eapply (wf_fcache _ Hwf1). exact Hfc.
  - destruct (call_function t w1) as [[v|e|] w2] eqn:Hcall.
    + destruct v; intros H; inversion H; subst; (split; [done|]); try (by intros p).
      intros ? [= <-].
      destruct (advance_call _ _ _ _ _ _ _ Hwf1 Hfn1 Htag Hid Hc Hcall) as [A Hp].
      split; [by eapply advance_trans|done].
    + intros H; inversion H; subst. split; [done|]. by intros p.
    + unfold call_function in Hcall. rewrite Hfn1 in Hcall.
      destruct (body fn1); simpl in Hcall; discriminate Hcall.
Qed.

(** A generic way to read [mapM_total] for functions given by their
    equations. *)
Lemma mapM_no_abort {A B} (I : State -> Prop) (V : A -> Prop)
    (Q : State -> B -> Prop) (f : A -> M State B) :
  (forall x s r s', I s -> V x -> f x s = (r, s') ->
     r <> Abort /\
     forall y, r = Normal y -> I s' /\ Q s' y /\ forall y0, Q s y0 -> Q s' y0) ->
  forall l s r s', I s -> Forall V l -> mapM f l s = (r, s') ->
    r <> Abort /\
    forall ys, r = Normal ys ->
      I s' /\ Forall (Q s') ys /\ forall y0, Q s y0 -> Q s' y0.
Proof.
  intros Hf l s r s' Hs Hl H.
  destruct (mapM_total I V Q f) with (l := l) (s := s)
    as (r2 & s2 & H2 & Hr & Hn); [|done|done|].
  - intros x s0 Hs0 Hx. destruct (f x s0) as [r0 s0'] eqn:E.
    exists r0, s0'. split; [done|]. by eapply Hf.
  - rewrite H in H2. injection H2 as <- <-. done.
Qed.

Lemma child_keys_total cs w :
  (forall q, Ref q ∈ cs -> q < length (heap w)) -> child_keys cs w <> Abort.
Proof.
  induction cs as [|[|q] cs IH]; intros H; simpl; [done|done|].
  destruct (lookup_lt_is_Some_2 (heap w) q) as [o ->].
  { apply H, list_elem_of_here. }
  destruct (Parser.cacheKey o); [|done].
  assert (IH' : child_keys cs w <> Abort).
  { apply IH. intros q' Hq'. apply H. by apply list_elem_of_further. }
  by destruct (child_keys cs w) as [[ks|]| |].
Qed.

Lemma computed_key_total quote self w :
  is_Some (Parser.description self) ->
  (forall cs q, Parser.children self = Some cs -> Ref q ∈ cs -> q < length (heap w)) ->
  computed_key quote self w <> Abort.
Proof.
  intros [d Hd] Hv. unfold computed_key. rewrite Hd.
  destruct (Parser.children self) as [[|c cs]|]; try done.
  pose proof (child_keys_total (c :: cs) w (fun q => Hv _ q eq_refl)) as H.
  by destruct (child_keys (c :: cs) w) as [[ks|]| |].
Qed.

Lemma advance_cache fc w c :
  wf (fc, w) ->
  (forall k q, c !! k = Some q -> q < length (heap w)) ->
  advance (fc, w) (fc, set_cache c w).
Proof.
  intros [W1 W2 W3 W4 W5 W6] Hc.
  split; [by split|]. split; [done|]. split; [done|]. split; [done|]. eauto.
Qed.

(** Lines 124-128. *)
Lemma tail_total fc this w o r w' :
  wf (fc, w) -> heap w !! this = Some o ->
  is_Some (Parser.children o) -> is_Some (Parser.generateMatcher o) ->
  (let* self' := read this in
   match Parser.generateMatcher self', Parser.children self' with
   | Some g, Some cs =>
       let* _ := write this (Parser.set_matcher (g cs)) in ret (Ref this)
   | _, _ => abort
   end) w = (r, w') ->
  r <> Abort /\
  forall a, r = Normal a ->
    advance (fc, w) (fc, w') /\ forall q, a = Ref q -> q < length (heap w').
Proof.
  intros Hwf Ho [cs Hcs] [g Hg] H.
  unfold bind at 1, read at 1 in H. rewrite Ho, Hg, Hcs in H.
  unfold bind, write, ret in H. injection H as <- <-. split; [done|].
  intros a [= <-].
  destruct (advance_update fc w this o (Parser.set_matcher (g cs)) Hwf Ho)
    as [A _]; simpl; try done.
  - intros cs' q Hcs'. rewrite Hcs in Hcs'. injection Hcs' as <-.
    by eapply (wf_children _ Hwf).
  - split; [done|]. intros q [= <-]. rewrite length_alter.
    by eapply lookup_lt_Some.
Qed.

(** Lines 107-128 do not abort. *)
Lemma finish_total quote fc this w o r w' :
  wf (fc, w) -> heap w !! this = Some o ->
  is_Some (Parser.children o) -> is_Some (Parser.generateMatcher o) ->
  Parser.recursing o = false ->
  truthy_opt (Parser.cacheKey o) = false ->
  finish quote this w = (r, w') ->
  r <> Abort /\
  forall a, r = Normal a ->
    advance (fc, w) (fc, w') /\ forall q, a = Ref q -> q < length (heap w').
Proof.
  intros Hwf Ho Hch Hgen Hrec Hkey H. unfold finish in H.
  destruct (getDescription_total (description_fuel w) this w)
    as (r0 & w1 & Hd & Hr0 & Hn0).
  { exact (wf_children _ Hwf). }
  { by eapply lookup_lt_Some. }
  { unfold description_fuel, unflagged.
    pose proof (count_le_length negb (flags w)) as Hc.
    unfold flags in Hc at 2. rewrite length_fmap in Hc. lia. }
  unfold bind at 1 in H. rewrite Hd in H.
  destruct r0 as [d|e|]; [|injection H as <- <-; split; [done|by intros a]|done].
  destruct (Hn0 d eq_refl) as (C & Hfl & Hdesc).
  destruct (Hdesc _ Ho Hrec) as (o1 & Ho1 & Hd1).
  destruct (core_only_lookup _ _ _ _ C Ho) as (o1' & Ho1' & Hs).
  assert (o1' = o1) as -> by congruence.
  apply same_core_fields in Hs as (Hopt1 & Hgen1 & Hch1 & Hkey1).
  pose proof (advance_core fc w w1 Hwf C Hfl) as A1.
  pose proof A1 as (Hwf1 & _).
  rewrite <- Hch1 in Hch. rewrite <- Hgen1 in Hgen. rewrite <- Hkey1 in Hkey.
  unfold bind at 1, read at 1 in H. rewrite Ho1 in H.
  destruct (Parser.options o1) as [opts|];
    [|injection H as <- <-; split; [done|by intros a]].
  assert (Htail : forall w2 o2 r w',
    advance (fc, w1) (fc, w2) -> heap w2 !! this = Some o2 ->
    Parser.children o2 = Parser.children o1 ->
    Parser.generateMatcher o2 = Parser.generateMatcher o1 ->
    (let* self' := read this in
     match Parser.generateMatcher self', Parser.children self' with
     | Some g, Some cs =>
         let* _ := write this (Parser.set_matcher (g cs)) in ret (Ref this)
     | _, _ => abort
     end) w2 = (r, w') ->
    r <> Abort /\
    forall a, r = Normal a ->
      advance (fc, w) (fc, w') /\ forall q, a = Ref q -> q < length (heap w')).
  { intros w2 o2 r2 w3 A2 Ho2 Hc2 Hg2 H2. pose proof A2 as (Hwf2 & _).
    rewrite <- Hc2 in Hch. rewrite <- Hg2 in Hgen.
    destruct (tail_total fc this w2 o2 r2 w3 Hwf2 Ho2 Hch Hgen H2) as [Hr Hn].
    split; [done|]. intros a Ha. destruct (Hn a Ha) as [A3 Hq].
    split; [|done]. eapply advance_trans; [exact A1|].
    eapply advance_trans; [exact A2|exact A3]. }
  destruct (ParserOptions.cacheable opts).
  - apply bind_eq in H as [(found & w2 & Hp & H)|(Hr & r1 & Hr1 & Hp & Hm)];
      pose proof (key_phase_spec _ _ _ _ _ _ Ho1 Hkey Hp) as Hspec;
      pose proof (computed_key_total quote o1 w1 Hd1
                    (fun cs q => wf_children _ Hwf1 this o1 cs q Ho1)) as Hno;
      destruct (computed_key quote o1 w1) as [[k|]|e|];
      try done; destruct Hspec as [-> Hres]; try discriminate Hres;
      try (subst r1; discriminate Hr1).
    + injection Hres as ->.
      set (w2 := set_cache (match __cache w1 !! k with
                            | Some _ => __cache w1
                            | None => <[k:=this]> (__cache w1)
                            end) (update this (Parser.set_cacheKey k) w1)) in *.
      destruct (advance_update fc w1 this o1 (Parser.set_cacheKey k) Hwf1 Ho1)
        as [Au _]; simpl; try done.
      { intros cs q Hcs. by eapply (wf_children _ Hwf1). }
      assert (A2 : advance (fc, w1) (fc, w2)).
      { eapply advance_trans; [exact Au|]. destruct Au as (Hwfu & _).
        apply advance_cache; [done|].
        assert (Hlen : length (heap (update this (Parser.set_cacheKey k) w1))
                       = length (heap w1)).
        { unfold update. simpl. apply length_alter. }
        intros k' q Hq. rewrite Hlen.
        change (__cache (update this (Parser.set_cacheKey k) w1)) with (__cache w1) in Hq.
        destruct (__cache w1 !! k) eqn:Hk.
        - by eapply (wf_cache _ Hwf1).
        - destruct (decide (k = k')) as [<-|Hne].
          + rewrite lookup_insert_eq in Hq. injection Hq as <-.
            by eapply lookup_lt_Some.
          + rewrite lookup_insert_ne in Hq by done. by eapply (wf_cache _ Hwf1). }
      assert (Ho2 : heap w2 !! this = Some (Parser.set_cacheKey k o1)).
      { unfold w2. cbn [heap set_cache].
        rewrite lookup_update, decide_True by done. by rewrite Ho1. }
      destruct (__cache w1 !! k) as [q|] eqn:Hq.
      * injection H as <- <-. split; [done|]. intros a [= <-].
        split; [by eapply advance_trans|]. intros q' [= <-].
        pose proof (wf_cache _ Hwf1 _ _ Hq) as Hlt. cbn [fst snd] in Hlt.
        destruct A2 as (_ & _ & Hl & _). cbn [fst snd] in Hl. lia.
      * by eapply (Htail w2 _ r w' A2 Ho2).
    + injection Hres as ->.
      eapply (Htail w1 o1 r w'); [by apply advance_refl|done..].
    + subst r1. destruct r; done.
  - unfold bind at 1, ret at 1 in H.
    eapply (Htail w1 o1 r w'); [by apply advance_refl|done..].
Qed.

(** The [try] block does not abort, given that the recursive calls do
    not. *)
Lemma resolve_children_total (rc : loc -> M State jsref) fuel this self st r st' :
  (forall p s r s',
     wf s -> p < length (heap s.2) -> measure s < fuel -> rc p s = (r, s') ->
     r <> Abort /\
     forall a, r = Normal a ->
       advance s s' /\ forall q, a = Ref q -> q < length (heap s'.2)) ->
  wf st -> heap st.2 !! this = Some self -> Parser.children self = None ->
  measure st < S fuel ->
  resolve_children rc this self st = (r, st') ->
  r <> Abort /\ (is_normal r = true -> advance st st').
Proof.
  intros Hrc Hwf Hself Hch Hfuel H. unfold resolve_children in H.
  destruct (Parser.options self) as [o|] eqn:Ho.
  2:{ unfold bind at 1, throw in H. injection H as <- <-. done. }
  (* forcing the lazy children *)
  destruct (mapM unlazy (default [] (ParserOptions.children o)) st)
    as [r1 st1] eqn:H1.
  destruct (mapM_no_abort (fun s => advance st s) (fun x => valid_lazy st.2 x)
              (fun s (p : loc) => p < length (heap s.2)) unlazy)
    with (l := default [] (ParserOptions.children o)) (s := st) (r := r1) (s' := st1)
    as [Hr1 Hn1]; [|by apply advance_refl| |exact H1|].
  { intros x s r0 s' As Vx Hx. pose proof As as (Hwfs & _ & Hl1 & Hl2 & _).
    destruct (unlazy_total x s r0 s' Hwfs) as [Hr0 Hn0]; [|done|].
    { eapply valid_lazy_mono; [| |exact Vx]; lia. }
    split; [done|]. intros p Hp. destruct (Hn0 p Hp) as [A Hlt].
    split; [by eapply advance_trans|]. split; [done|].
    intros y0 Hy0. destruct A as (_ & _ & Hl & _). lia. }
  { apply Forall_forall. intros x Hx.
    destruct (ParserOptions.children o) as [l|] eqn:Hl; [|by apply elem_of_nil in Hx].
    eapply (wf_options _ Hwf); eauto. }
  unfold bind at 1 in H. rewrite H1 in H.
  destruct r1 as [cs0|e|]; [|injection H as <- <-; done|done].
  destruct (Hn1 cs0 eq_refl) as (A1 & Hcs0 & _).
  pose proof A1 as (Hwf1 & Hm1 & _).
  assert (T1 : rtc (step (fun _ => False)) st st1).
  { apply (mapM_trace (fun _ => False) (fun _ => True) unlazy
             (fun _ _ _ _ => I)
             (fun x s r s' _ => unlazy_trace _ x s r s')
             _ _ _ _ I H1). }
  destruct (frame_untouched _ _ _ _ (steps_ext _ _ _ T1) Hself)
    as (self1 & Hself1 & _ & _ & Hch1 & _).
  (* the first assignment to [this.children] *)
  unfold bind at 1, lift at 1, write at 1 in H.
  destruct st1 as [fc1 w1]. cbn [fst snd] in *.
  set (w2 := update this (Parser.set_children (Ref <$> cs0)) w1) in *.
  destruct (advance_update fc1 w1 this self1 (Parser.set_children (Ref <$> cs0))
              Hwf1 Hself1) as [A2 Hdec]; simpl; try done.
  { intros cs q [= <-] Hq. apply list_elem_of_fmap in Hq as (p & [= ->] & Hp).
    rewrite Forall_forall in Hcs0. by apply Hcs0. }
  fold w2 in A2, Hdec. rewrite Hch1 in Hdec. specialize (Hdec Hch).
  pose proof A2 as (Hwf2 & _ & Hl2 & _).
  (* the recursive calls *)
  destruct (mapM rc cs0 (fc1, w2)) as [r3 st3] eqn:H3.
  destruct (mapM_no_abort (fun s => advance (fc1, w2) s)
              (fun p => p < length (heap w2))
              (fun s (a : jsref) => forall q, a = Ref q -> q < length (heap s.2)) rc)
    with (l := cs0) (s := (fc1, w2)) (r := r3) (s' := st3)
    as [Hr3 Hn3]; [|by apply advance_refl| |exact H3|].
  { intros p s r0 s' As Vp Hp. pose proof As as (Hwfs & Hms & Hls & _).
    cbn [fst snd] in *.
    destruct (Hrc p s r0 s' Hwfs) as [Hr0 Hn0]; [lia|lia|done|].
    split; [done|]. intros a Ha. destruct (Hn0 a Ha) as [A Hq].
    split; [by eapply advance_trans|]. split; [done|].
    intros y0 Hy0 q Hq0. specialize (Hy0 q Hq0).
    destruct A as (_ & _ & Hl & _). lia. }
  { rewrite Forall_forall in Hcs0. apply Forall_forall. intros p Hp.
    specialize (Hcs0 p Hp). cbn [fst snd] in *. lia. }
  unfold bind at 1 in H. rewrite H3 in H.
  destruct r3 as [cs1|e|]; [|injection H as <- <-; done|done].
  destruct (Hn3 cs1 eq_refl) as (A3 & Hcs1 & _).
  pose proof A3 as (Hwf3 & _ & Hl3 & _ & _).
  (* the second assignment *)
  unfold lift, write in H. destruct st3 as [fc3 w3]. cbn [fst snd] in *.
  injection H as <- <-. split; [done|]. intros _.
  assert (Hthis3 : is_Some (heap w3 !! this)).
  { apply lookup_lt_is_Some_2. apply lookup_lt_Some in Hself1. lia. }
  destruct Hthis3 as [self3 Hself3].
  destruct (advance_update fc3 w3 this self3 (Parser.set_children cs1)
              Hwf3 Hself3) as [A4 _]; simpl; try done.
  { intros cs q [= <-] Hq. rewrite Forall_forall in Hcs1. by eapply Hcs1. }
  eapply advance_trans; [exact A1|]. eapply advance_trans; [exact A2|].
  eapply advance_trans; [exact A3|exact A4].
Qed.

(** With more fuel than the measure of a well-formed state, [resolve]
    returns or throws: it does not abort. *)
Lemma resolve_total quote fuel :
  forall this st r st',
    wf st -> this < length (heap st.2) -> measure st < fuel ->
    resolve quote fuel this st = (r, st') ->
    r <> Abort /\
    forall a, r = Normal a ->
      advance st st' /\ forall q, a = Ref q -> q < length (heap st'.2).
Proof.
  induction fuel as [|fuel IH]; intros this st r st' Hwf Hthis Hfuel H; [lia|].
  destruct (lookup_lt_is_Some_2 _ _ Hthis) as [self Hself].
  rewrite resolve_S in H. destruct st as [fc w]. cbn [fst snd] in *.
  unfold bind at 1, lift at 1, read in H. cbn [fst snd] in H. rewrite Hself in H.
  destruct (truthy_opt (Parser.cacheKey self)) eqn:Hkey.
  { injection H as <- <-. split; [done|]. intros a [= <-].
    split; [by apply advance_refl|]. intros q Hq. unfold lookup_cache in Hq.
    cbn [fst snd] in *. destruct (__cache w !! _) as [q'|] eqn:E; [|done].
    injection Hq as <-. by eapply (wf_cache _ Hwf). }
  destruct (bool_decide (is_Some (Parser.children self))) eqn:Hch.
  { injection H as <- <-. split; [done|]. intros a [= <-].
    split; [by apply advance_refl|]. by intros q [= <-]. }
  apply bool_decide_eq_false in Hch.
  assert (Hnone : Parser.children self = None).
  { destruct (Parser.children self); [|done]. destruct Hch. by eexists. }
  destruct (wf_unresolved _ Hwf _ _ Hself Hnone) as [Hgen Hrec].
  apply bind_eq in H as [([] & stB & HB & H)|(Hr & r0 & Hr0 & HB & Hm)];
    apply annotate_inv in HB as (rB & HB & HnB & HrB);
    destruct (resolve_children_total _ fuel _ _ _ _ _ (IH) Hwf Hself Hnone Hfuel HB)
      as [HnoB HadvB].
  - destruct rB as [[]| |]; try discriminate HnB.
    specialize (HadvB eq_refl).
    destruct (resolve_children_spec _ _ _ (fc, w) _ _ (resolve_trace quote fuel)
                Hself Hnone Hkey HB) as [_ PB].
    destruct (PB eq_refl) as (sB & HsB & HchB & HkeyB & _ & _ & HgenB).
    pose proof HadvB as (HwfB & _ & _ & _ & HflB).
    destruct (HflB _ _ Hself) as (sB' & HsB' & HrecB).
    assert (sB' = sB) as -> by congruence.
    apply lift_inv in H as [Hfc H]. destruct stB as [fcB wB], st' as [fc' w'].
    cbn [fst snd] in *. subst fc'.
    destruct (finish_total quote fcB this wB sB r w' HwfB HsB HchB) as [Hr Hn];
      try congruence.
    split; [done|]. intros a Ha. destruct (Hn a Ha) as [A Hq].
    split; [by eapply advance_trans|done].
  - destruct rB as [[]|e|]; [subst r0; discriminate Hr0| |done].
    subst r0. destruct r; done.
Qed.

(** Worlds built by the constructors are well-formed. *)
Lemma wf_init : wf (∅, init_world).
Proof.
  split; cbn [fst snd].
  - intros p o cs q Hp. by destruct p.
  - intros p o opts Hp. by destruct p.
  - intros t fn Ht. by destruct t.
  - intros id p Hp. by rewrite lookup_empty in Hp.
  - intros k q Hq. simpl in Hq. by rewrite lookup_empty in Hq.
  - intros p o Hp. by destruct p.
Qed.

Lemma wf_newParser fc w n opts g :
  wf (fc, w) -> valid_options w opts -> wf (fc, (newParser n opts g w).2).
Proof.
  intros [W1 W2 W3 W4 W5 W6] Hopts. cbn [fst snd] in *.
  set (new := Parser.mk (ParserId w) n (Some opts) (Some g)
                None None None None false).
  assert (Hsn : forall q o', (heap w ++ [new])%list !! q = Some o' ->
            heap w !! q = Some o' \/ o' = new).
  { intros q o' Hq. apply lookup_snoc_Some in Hq as [[_ ?]|[_ ?]]; auto. }
  assert (Hlh : length (heap w ++ [new])%list = S (length (heap w))).
  { rewrite length_app. simpl. lia. }
  split; cbn [fst snd newParser heap functions __cache]; fold new.
  - intros q o' cs q' Hq Hcs Hq'. cbn [heap] in *. rewrite Hlh.
    destruct (Hsn _ _ Hq) as [Hq0| ->]; [|done].
    specialize (W1 _ _ _ _ Hq0 Hcs Hq'). lia.
  - intros q o' opts' Hq Hopt. cbn [heap] in *.
    eapply (valid_options_mono w); [cbn [heap]; lia|cbn [functions]; lia|].
    destruct (Hsn _ _ Hq) as [Hq0| ->]; [by eapply W2|].
    by injection Hopt as <-.
  - intros t' f Hf.
    eapply (valid_body_mono w); [cbn [heap]; lia|cbn [functions]; lia|by eapply W3].
  - intros id p Hp. specialize (W4 _ _ Hp). rewrite Hlh. lia.
  - intros k q Hq. specialize (W5 _ _ Hq). rewrite Hlh. lia.
  - intros q o' Hq Hcs. cbn [heap] in *.
    destruct (Hsn _ _ Hq) as [Hq0| ->]; [by eapply W6|].
    split; [by eexists|done].
Qed.

Lemma wf_newFunction fc w b src :
  wf (fc, w) -> valid_body w b -> wf (fc, (newFunction b src w).2).
Proof.
  intros [W1 W2 W3 W4 W5 W6] Hb. cbn [fst snd] in *.
  assert (Hlf : length (functions w ++ [mkFunction None b src 0])%list
                = S (length (functions w))).
  { rewrite length_app. simpl. lia. }
  split; cbn [fst snd newFunction set_functions heap functions __cache]; try done.
  - intros q o' opts' Hq Hopt.
    eapply (valid_options_mono w); [simpl; lia|simpl; rewrite Hlf; lia|].
    by eapply W2.
  - intros t' f Hf. cbn [functions] in Hf.
    eapply (valid_body_mono w); [simpl; lia|simpl; rewrite Hlf; lia|].
    apply lookup_snoc_Some in Hf as [[_ Hf]|[_ <-]]; [by eapply W3|done].
Qed.

(** The two [alt] nodes of [ex_world] resolve with any fuel above 4. *)
Example ex_world_total fuel :
  4 < fuel -> (resolve ex_quote fuel 2 (∅, ex_world)).1 <> Abort.
Proof.
  intros Hfuel.
  destruct (resolve ex_quote fuel 2 (∅, ex_world)) as [r st'] eqn:H.
  eapply (resolve_total ex_quote fuel 2 (∅, ex_world)); [| | |exact H].
  - unfold ex_world. repeat apply wf_newParser; try apply wf_init.
    all: intros l x [= <-] Hx;
      repeat (apply elem_of_cons in Hx as [->|Hx]; [simpl; lia|]);
      by apply elem_of_nil in Hx.
  - simpl. lia.
  - vm_compute. lia.
Qed.

(** ** The claims about resolution *)

(** Equal keys, same object: the core of canonicalization. *)
Lemma same_key_same_object quote w0 p1 p2 fuel1 fuel2 fc1 fc2 r1 r2 st1 st2 o1 o2 k :
  cache_inv w0 ->
  resolve quote fuel1 p1 (fc1, w0) = (Normal r1, st1) ->
  resolve quote fuel2 p2 (fc2, st1.2) = (Normal r2, st2) ->
  heap st2.2 !! p1 = Some o1 ->
  heap st2.2 !! p2 = Some o2 ->
  Parser.cacheKey o1 = Some k ->
  Parser.cacheKey o2 = Some k ->
  r1 = r2 /\
  exists q c, r1 = Ref q /\ __cache st2.2 !! k = Some q /\
    heap st2.2 !! q = Some c /\ Parser.cacheKey c = Some k.
Proof.
  intros Hinv H1 H2 Ho1 Ho2 Hk1 Hk2.
  assert (Hinv1 : cache_inv st1.2).
  { eapply (resolve_inv cache_inv); [| |exact H1|exact Hinv].
    - intros. by eapply cache_inv_step.
    - intros. by eapply cache_inv_call. }
  assert (Hinv2 : cache_inv st2.2).
  { eapply (resolve_inv cache_inv); [| |exact H2|exact Hinv1].
    - intros. by eapply cache_inv_step.
    - intros. by eapply cache_inv_call. }
  destruct (proj1 Hinv2 _ _ _ Ho1 Hk1) as [Htr _].
  pose proof (resolve_returned _ _ _ (fc1, w0) _ _ (cache_inv_ok _ Hinv) H1) as R1.
  pose proof (resolve_returned _ _ _ (fc2, st1.2) _ _ (cache_inv_ok _ Hinv1) H2) as R2.
  pose proof (resolve_ext _ _ _ _ _ _ H2) as (E1 & E2 & _).
  cbn [fst snd] in *.
  (* the second call *)
  destruct R2 as (o2' & Ho2' & R2). assert (o2' = o2) as -> by congruence.
  destruct R2 as [(k2 & q2 & Hk2' & _ & Hq2 & ->)|(Hf & _)];
    [|rewrite Hk2 in Hf; simpl in Hf; congruence].
  assert (k2 = k) as -> by congruence.
  (* the first call, and what the second left of it *)
  destruct R1 as (s1 & Hs1 & R1).
  destruct (E1 _ _ Hs1) as (o1' & Ho1' & _ & _ & _ & Hkeep & Hframe).
  assert (o1' = o1) as -> by congruence.
  destruct R1 as [(k1 & q1 & Hk1' & Ht1 & Hq1 & ->)|(Hf & Hc & _)].
  - rewrite Hk1' in Hkeep. simpl in Hkeep. specialize (Hkeep Ht1).
    assert (k1 = k) as -> by congruence.
    apply E2 in Hq1. assert (q1 = q2) as -> by congruence.
    split; [done|].
    destruct (proj2 Hinv2 _ _ Hq2) as (c & Hc & Hkc). by exists q2, c.
  - destruct Hframe as (_ & Hsame & _).
    { eapply fresh_not_resolved; [exact Hs1|exact Hc]. }
    rewrite Hk1 in Hsame. rewrite <- Hsame in Hf. simpl in Hf. congruence.
Qed.

Lemma computed_key_signature quote o1 w1 o2 w2 :
  Parser.name o1 = Parser.name o2 ->
  signature o1 w1 = signature o2 w2 ->
  computed_key quote o1 w1 = computed_key quote o2 w2.
Proof.
  unfold signature, computed_key. intros ->.
  destruct (Parser.children o1) as [[|c1 cs1]|], (Parser.children o2) as [[|c2 cs2]|];
    intros H; try discriminate H; try (by injection H as ->).
  assert (E : child_keys (c1 :: cs1) w1 = child_keys (c2 :: cs2) w2)
    by (by injection H).
  by rewrite E.
Qed.

Lemma computed_key_keyed quote o w :
  keyed (signature o w) -> exists k, computed_key quote o w = Normal (Some k).
Proof.
  unfold signature, computed_key, keyed.
  destruct (Parser.children o) as [[|c cs]|].
  - destruct (Parser.description o); [by eexists|done].
  - destruct (child_keys (c :: cs) w) as [[ks|]| |]; [by eexists|done..].
  - destruct (Parser.description o); [by eexists|done].
Qed.

(** C1. Canonicalization: two parser nodes, each as its constructor left
    it, both cacheable and with the same name, whose children once
    resolved carry the same cache keys (structurally identical children;
    for leaves, the same description), end with equal cache keys, and the
    two [resolve()] calls return the very same object: the instance the
    canonicalization cache has registered under that key. *)
Theorem canonical_identity quote w0 p1 p2 s1 s2 opt1 opt2
    fuel1 fuel2 fc1 fc2 r1 r2 st1 st2 o1 o2 :
  cache_inv w0 ->
  heap w0 !! p1 = Some s1 -> constructed s1 opt1 ->
  heap st1.2 !! p2 = Some s2 -> constructed s2 opt2 ->
  ParserOptions.cacheable opt1 = true ->
  ParserOptions.cacheable opt2 = true ->
  Parser.name s1 = Parser.name s2 ->
  resolve quote fuel1 p1 (fc1, w0) = (Normal r1, st1) ->
  resolve quote fuel2 p2 (fc2, st1.2) = (Normal r2, st2) ->
  heap st1.2 !! p1 = Some o1 ->
  heap st2.2 !! p2 = Some o2 ->
  signature o1 st1.2 = signature o2 st2.2 ->
  keyed (signature o1 st1.2) ->
  r1 = r2 /\
  exists q c k, r1 = Ref q /\ __cache st2.2 !! k = Some q /\
    heap st2.2 !! q = Some c /\ Parser.cacheKey c = Some k /\
    Parser.cacheKey o2 = Some k /\ Parser.cacheKey o1 = Some k.
Proof.
  intros Hinv Hs1 (Hopt1 & Hch1 & Hkey1) Hs2 (Hopt2 & Hch2 & Hkey2)
    Hc1 Hc2 Hname H1 H2 Ho1 Ho2 Hsig Hkeyed.
  destruct (resolve_key _ _ _ (fc1, w0) _ _ _ _ Hs1 Hch1 Hkey1 Hopt1 H1)
    as (o1' & Ho1' & Hn1 & Hk1).
  assert (o1' = o1) as -> by congruence. rewrite Hc1 in Hk1.
  destruct (resolve_key _ _ _ (fc2, st1.2) _ _ _ _ Hs2 Hch2 Hkey2 Hopt2 H2)
    as (o2' & Ho2' & Hn2 & Hk2).
  assert (o2' = o2) as -> by congruence. rewrite Hc2 in Hk2.
  destruct (computed_key_keyed quote _ _ Hkeyed) as [k Hk].
  rewrite <- (computed_key_signature quote o1 st1.2 o2 st2.2) in Hk2
    by (done || congruence).
  rewrite Hk in Hk1, Hk2.
  (* the key of the first node is still there after the second call *)
  assert (Hinv1 : cache_inv st1.2).
  { eapply (resolve_inv cache_inv); [| |exact H1|exact Hinv].
    - intros. by eapply cache_inv_step.
    - intros. by eapply cache_inv_call. }
  destruct (proj1 Hinv1 _ _ _ Ho1 Hk1) as [Htr _].
  pose proof (resolve_ext _ _ _ _ _ _ H2) as (E1 & _).
  destruct (E1 _ _ Ho1) as (o1'' & Ho1'' & _ & _ & _ & Hkeep & _).
  rewrite Hk1 in Hkeep. specialize (Hkeep Htr).
  destruct (same_key_same_object quote w0 p1 p2 fuel1 fuel2 fc1 fc2 r1 r2
              st1 st2 o1'' o2 k Hinv H1 H2 Ho1'' Ho2 Hkeep Hk2)
    as (Heq & q & c & -> & Hq & Hc & Hkc).
  split; [done|]. by exists q, c, k.
Qed.

(** C2. [resolve()] is idempotent: once a call has returned an object,
    every later call on the same parser, with whatever function cache,
    returns that same object and writes nothing; and a parser that is
    already resolved ([children] set, or [cacheKey] set) is answered from
    lines 96-97 without any resolution being redone. *)
Theorem resolve_idempotent quote this :
  (forall fuel st a st',
     resolve quote fuel this st = (Normal a, st') ->
     forall fuel2 fc2,
       resolve quote (S fuel2) this (fc2, st'.2) = (Normal a, (fc2, st'.2))) /\
  (forall w self,
     heap w !! this = Some self -> resolved self ->
     forall fuel fc,
       resolve quote (S fuel) this (fc, w)
       = (Normal (early_result w this self), (fc, w))).
Proof.
  split.
  - intros fuel st a st' H fuel2 fc2.
    apply resolve_returned_gen in H as [(-> & self & Hself & Hkey & ->)|H].
    + apply resolve_early; [done|by left].
    + apply returned_early in H as (self & Hself & Hres & ->).
      by apply resolve_early.
  - intros w self Hself Hres fuel fc. by apply resolve_early.
Qed.


(** C9. In every world a program can reach, a [cacheKey] that is set
    has an entry in the canonicalization cache (and the entry is a stored
    object carrying that key); so the early return of [resolve()] never
    yields [undefined], and whatever [resolve()] returns is a stored
    Parser object.  On a well-formed store the call does end, with fuel
    above the state's measure: it throws, or it returns such an object. *)
Theorem cache_key_registered quote w :
  reachable quote w ->
  (forall p o k, heap w !! p = Some o -> Parser.cacheKey o = Some k ->
     exists q c, __cache w !! k = Some q /\ heap w !! q = Some c /\
       Parser.cacheKey c = Some k) /\
  (forall p o fuel fc, heap w !! p = Some o -> is_Some (Parser.cacheKey o) ->
     exists q, resolve quote (S fuel) p (fc, w) = (Normal (Ref q), (fc, w))) /\
  (forall fuel p fc a st',
     resolve quote fuel p (fc, w) = (Normal a, st') ->
     exists q c, a = Ref q /\ heap st'.2 !! q = Some c) /\
  (forall fuel p fc,
     wf (fc, w) -> p < length (heap w) -> measure (fc, w) < fuel ->
     (exists e st', resolve quote fuel p (fc, w) = (Throw e, st')) \/
     (exists q c st', resolve quote fuel p (fc, w) = (Normal (Ref q), st') /\
        heap st'.2 !! q = Some c)).
Proof.
  intros Hreach. pose proof (reachable_cache_inv _ _ Hreach) as Hinv.
  assert (Hentry : forall p o k, heap w !! p = Some o -> Parser.cacheKey o = Some k ->
            exists q c, __cache w !! k = Some q /\ heap w !! q = Some c /\
              Parser.cacheKey c = Some k).
  { intros p o k Ho Hk. destruct (proj1 Hinv _ _ _ Ho Hk) as [_ [q Hq]].
    destruct (proj2 Hinv _ _ Hq) as (c & Hc & Hkc). by exists q, c. }
  assert (Hret : forall fuel p fc a st',
            resolve quote fuel p (fc, w) = (Normal a, st') ->
            exists q c, a = Ref q /\ heap st'.2 !! q = Some c).
  { intros fuel p fc a st' H.
    assert (Hinv' : cache_inv st'.2).
    { eapply (resolve_inv cache_inv); [| |exact H|exact Hinv].
      - intros. by eapply cache_inv_step.
      - intros. by eapply cache_inv_call. }
    apply resolve_returned in H; [|by apply cache_inv_ok].
    destruct H as (self & Hself & [(k & q & _ & _ & Hq & ->)|(_ & _ & ->)]).
    + destruct (proj2 Hinv' _ _ Hq) as (c & Hc & _). by exists q, c.
    + by exists p, self. }
  split; [exact Hentry|]. split; [|split; [exact Hret|]].
  - intros p o fuel fc Ho [k Hk].
    destruct (Hentry _ _ _ Ho Hk) as (q & c & Hq & _).
    destruct (proj1 Hinv _ _ _ Ho Hk) as [Ht _].
    exists q. rewrite (resolve_early quote fuel fc w p o Ho).
    + unfold early_result, lookup_cache. rewrite Hk. simpl. by rewrite Ht, Hq.
    + left. rewrite Hk. exact Ht.
  - intros fuel p fc Hwf Hp Hfuel.
    destruct (resolve quote fuel p (fc, w)) as [r st'] eqn:H.
    destruct (resolve_total quote fuel p (fc, w) r st' Hwf Hp Hfuel H) as [Hr _].
    destruct r as [a|e|]; [|left; by eauto|done].
    right. destruct (Hret _ _ _ _ _ H) as (q & c & -> & Hc). by exists q, c, st'.
Qed.

(** C10. Every Parser is given the value of the counter [ParserId] as it
    is constructed, and the counter goes up: ids are positive, grow
    strictly with the order of construction, and no two stored Parsers
    share one. *)
Theorem parser_ids_distinct quote w :
  reachable quote w ->
  ids_ok w /\
  (forall p q o o', p <> q -> heap w !! p = Some o -> heap w !! q = Some o' ->
     Parser.id o <> Parser.id o') /\
  (forall n opts g,
     exists o, heap (newParser n opts g w).2 !! (newParser n opts g w).1 = Some o /\
       Parser.id o = ParserId w /\
       forall q o', heap w !! q = Some o' -> Parser.id o' < Parser.id o).
Proof.
  intros Hreach. pose proof (reachable_ids_ok _ _ Hreach) as Hok.
  split; [exact Hok|]. destruct Hok as (H0 & H1 & H2). split.
  - intros p q o o' Hne Ho Ho'.
    destruct (decide (p < q)) as [Hlt|Hge].
    + pose proof (H2 _ _ _ _ Hlt Ho Ho'). lia.
    + assert (Hlt : q < p) by lia. pose proof (H2 _ _ _ _ Hlt Ho' Ho). lia.
  - intros n opts g. eexists. simpl. split.
    + by rewrite list_lookup_middle.
    + split; [done|]. intros q o' Ho'. simpl. specialize (H1 _ _ Ho'). lia.
Qed.

(** ** Failures during resolution *)

#[local] Instance heap_grows_po : PreOrder heap_grows.
Proof.
  split.
  - intros st. exists []. by rewrite app_nil_r.
  - intros a b c [e1 H1] [e2 H2]. exists (e1 ++ e2)%list.
    by rewrite H2, H1, app_assoc.
Qed.



(** ** The claims about [map], [execute] and [run] *)

(** C8. The parser built by [p.map(f)] is named "map", has [p] as its
    only child, and its matcher schedules [p] with a continuation that
    turns a success with span [s] and value [v] into a success with the
    same span and the value [f(v, s)] ([f] itself when [f] is not
    callable), and hands a failure back unchanged. *)
Theorem map_transforms_success this f w :
  exists o g,
    heap (Parser_map this f w).2 !! (Parser_map this f w).1 = Some o /\
    Parser.name o = "map" /\
    Parser.options o = Some (ParserOptions.mk (Some [LParser this]) None false) /\
    Parser.generateMatcher o = Some g /\
    forall children stream index,
      exists k, g children stream index = Schedule (Ref this) index k /\
        (forall s v,
           k (MatchSuccess s v)
           = Done (MatchSuccess s match f with
                                  | Callable h => h v s
                                  | Constant c => c
                                  end)) /\
        (forall m s, k (MatchFailure m s) = Done (MatchFailure m s)).
Proof.
  eexists _, _. simpl. rewrite list_lookup_middle by done.
  repeat split. intros children stream index.
  exists (map_continuation f). repeat split.
Qed.



(** C5. [execute] hands the engine's match back as a value, a failure
    like a success.  [run] throws a [ParseError] exactly when the
    execution of the consuming parser produced a [MatchFailure], with
    that failure's message and span, and returns the value of a
    [MatchSuccess]. *)
Theorem run_throws_on_failure quote (EngineOptions : Type)
    (Engine_execute : Sequence -> EngineOptions -> jsref -> M World (option Match))
    (chain : loc -> loc -> (value -> value -> value) -> World -> loc * World)
    (simple_end : World -> loc * World)
    fuel this stream (options : EngineOptions) w :
  (forall r w1 m w2,
     resolve_fresh quote fuel this w = (Normal r, w1) ->
     Engine_execute stream options r w1 = (Normal (Some m), w2) ->
     execute quote EngineOptions Engine_execute fuel this stream options w
     = (Normal (Some m), w2)) /\
  (forall c w0 r w1 rv w2,
     consume chain simple_end this w = (c, w0) ->
     resolve_fresh quote fuel c w0 = (Normal (Ref r), w1) ->
     execute quote EngineOptions Engine_execute fuel r stream options w1
     = (Normal (Some rv), w2) ->
     (forall m span,
        run quote EngineOptions Engine_execute chain simple_end
            fuel this stream options w = (Throw (ParseError m span), w2)
        <-> rv = MatchFailure m span) /\
     (forall span v,
        rv = MatchSuccess span v ->
        run quote EngineOptions Engine_execute chain simple_end
            fuel this stream options w = (Normal v, w2))).
Proof.
  split.
  - intros r w1 m w2 Hr He. unfold execute, bind. by rewrite Hr.
  - intros c w0 r w1 rv w2 Hc Hr He.
    assert (Hrun : run quote EngineOptions Engine_execute chain simple_end
                     fuel this stream options w
                   = match rv with
                     | MatchFailure m span => (Throw (ParseError m span), w2)
                     | MatchSuccess _ v => (Normal v, w2)
                     end).
    { unfold run. rewrite Hc. unfold bind at 1. rewrite Hr.
      unfold bind at 1. rewrite He. by destruct rv. }
    rewrite Hrun. split.
    + intros m span. destruct rv as [s v|m' s']; split; intros H;
        try discriminate H; by inversion H.
    + by intros span v ->.
Qed.

(** * Further properties *)

(** ** Printing: [toString] and [inspect] *)

Lemma pretty_N_char_digit x : is_digit (pretty_N_char x) = true.
Proof.
  destruct x as [|p]; [done|].
  do 4 (destruct p as [p|p|]; try done).
Qed.

Lemma pretty_N_go_digits x s :
  digits s = true -> digits (pretty_N_go x s) = true.
Proof.
  revert s. induction (N.lt_wf_0 x) as [x _ IH]. intros s Hs.
  destruct (decide (x = 0)%N) as [->|Hx].
  - by rewrite pretty_N_go_0.
  - rewrite pretty_N_go_step by lia. apply IH.
    + apply N.div_lt; lia.
    + simpl. by rewrite pretty_N_char_digit.
Qed.

Lemma pretty_digits (n : nat) : digits (pretty n) = true.
Proof.
  unfold pretty, pretty_nat, pretty, pretty_N.
  destruct (decide _); [done|]. by apply pretty_N_go_digits.
Qed.

Lemma digits_split a b c c' r r' :
  digits a = true -> digits b = true ->
  is_digit c = false -> is_digit c' = false ->
  a +:+ String c r = b +:+ String c' r' -> a = b /\ r = r'.
Proof.
  revert b. induction a as [|x a IH]; intros [|y b] Ha Hb Hc Hc' H; simpl in *.
  - by injection H.
  - injection H as -> _. apply andb_true_iff in Hb as [Hb _]. congruence.
  - injection H as -> _. apply andb_true_iff in Ha as [Ha _]. congruence.
  - injection H as -> H. apply andb_true_iff in Ha as [_ Ha].
    apply andb_true_iff in Hb as [_ Hb].
    destruct (IH b Ha Hb Hc Hc' H) as [-> ->]. done.
Qed.

Lemma toString_id o o' : toString o = toString o' -> Parser.id o = Parser.id o'.
Proof.
  unfold toString. intros H. simpl in H.
  injection H as H.
  apply digits_split in H as [H _]; try apply pretty_digits; try done.
  by apply (inj pretty) in H.
Qed.

(** ids decide the position in the store *)
Lemma ids_ok_inj w p q o o' :
  ids_ok w -> heap w !! p = Some o -> heap w !! q = Some o' ->
  Parser.id o = Parser.id o' -> p = q.
Proof.
  intros (_ & _ & Hmono) Hp Hq Hid.
  destruct (lt_eq_lt_dec p q) as [[Hlt| ->]|Hlt]; [|done|].
  - pose proof (Hmono _ _ _ _ Hlt Hp Hq). lia.
  - pose proof (Hmono _ _ _ _ Hlt Hq Hp). lia.
Qed.

(** X1. In every world a program can reach, [toString()] tells the
    Parser objects apart: two different objects never print the same
    ["Parser[id, name]"], whatever their names. *)
Theorem toString_distinct quote w p q o o' :
  reachable quote w ->
  heap w !! p = Some o -> heap w !! q = Some o' ->
  p <> q -> toString o <> toString o'.
Proof.
  intros Hr Hp Hq Hne H. apply Hne.
  eapply ids_ok_inj; eauto using reachable_ids_ok, toString_id.
Qed.

Lemma inspect_id o o' : inspect o = inspect o' -> Parser.id o = Parser.id o'.
Proof.
  unfold inspect. intros H.
  destruct (truthy_opt (Parser.description o)), (truthy_opt (Parser.description o'));
    simpl in H; try discriminate H.
  - injection H as H.
    apply digits_split in H as [H _]; try apply pretty_digits; try done.
    by apply (inj pretty) in H.
  - injection H as H.
    apply digits_split in H as [H _]; try apply pretty_digits; try done.
    by apply (inj pretty) in H.
Qed.

(** X2. In every world a program can reach, [inspect()] tells the
    Parser objects apart as well, resolved (["Parser[id, description]"])
    or not (["(unresolved id)"]). *)
Theorem inspect_distinct quote w p q o o' :
  reachable quote w ->
  heap w !! p = Some o -> heap w !! q = Some o' ->
  p <> q -> inspect o <> inspect o'.
Proof.
  intros Hr Hp Hq Hne H. apply Hne.
  eapply ids_ok_inj; eauto using reachable_ids_ok, inspect_id.
Qed.

(** ** Descriptions *)

Lemma getDescription_S fuel this :
  getDescription (S fuel) this =
  (let* self := read this in
   if truthy_opt (Parser.description self)
   then ret (default EmptyString (Parser.description self))
   else if Parser.recursing self then ret "..."
   else
     let* _ := write this (Parser.set_recursing true) in
     match Parser.children self with
     | None => throw (undefined_error "map")
     | Some cs =>
         let* descs := mapM (describe_child (getDescription fuel)) cs in
         let* _ := write this (Parser.set_recursing false) in
         let* self' := read this in
         match Parser.options self' with
         | None => throw (undefined_error "describe")
         | Some o =>
             let d := default (defaultDescribe (Parser.name self'))
                              (ParserOptions.describe o) descs in
             let* _ := write this (Parser.set_description d) in
             ret d
         end
     end).
Proof. reflexivity. Qed.

Lemma getDescription_core fuel :
  forall this w r w', getDescription fuel this w = (r, w') -> core_only w w'.
Proof.
  induction fuel as [|fuel IH]; intros this w r w' H.
  { inversion H. reflexivity. }
  rewrite getDescription_S in H.
  apply bind_eq in H as [(self & w1 & Hr & H)|(_ & r0 & _ & Hr & _)];
    apply read_inv in Hr as [-> Hself]; [|reflexivity].
  destruct (truthy_opt (Parser.description self)); [inversion H; reflexivity|].
  destruct (Parser.recursing self); [inversion H; reflexivity|].
  apply bind_eq in H as [([] & w1 & Hw & H)|(_ & r0 & Hr0 & Hw & _)];
    apply write_inv in Hw as [? ->]; [|by subst r0].
  etrans; [apply (core_only_update w this (Parser.set_recursing true)); by repeat split|].
  destruct (Parser.children self) as [cs|]; [|inversion H; reflexivity].
  assert (Hmap : forall s r1 s1,
    mapM (describe_child (getDescription fuel)) cs s = (r1, s1) -> core_only s s1).
  { apply mapM_rel; [apply _|]. intros [|q] _ s r1 s1 Hq.
    - inversion Hq. reflexivity.
    - apply bind_eq in Hq as [(o & s2 & Hr & Hq)|(_ & r0 & _ & Hr & _)];
        apply read_inv in Hr as [-> Ho]; [|reflexivity].
      destruct (long_children o); [|by eapply IH].
      apply bind_eq in Hq as [(d & s2 & Hd & Hq)|(_ & r0 & _ & Hd & _)].
      + inversion Hq; subst. by eapply IH.
      + by eapply IH. }
  apply bind_eq in H as [(descs & w1 & Hm & H)|(_ & r0 & _ & Hm & _)];
    [|by eapply Hmap].
  etrans; [by eapply Hmap|].
  apply bind_eq in H as [([] & w2 & Hw & H)|(_ & r0 & Hr0 & Hw & _)];
    apply write_inv in Hw as [? ->]; [|by subst r0].
  etrans; [apply (core_only_update w1 this (Parser.set_recursing false)); by repeat split|].
  apply bind_eq in H as [(self' & w2 & Hr & H)|(_ & r0 & _ & Hr & _)];
    apply read_inv in Hr as [-> Hself']; [|reflexivity].
  destruct (Parser.options self') as [o|]; [|inversion H; reflexivity].
  apply bind_eq in H as [([] & w2 & Hw & H)|(_ & r0 & Hr0 & Hw & _)];
    apply write_inv in Hw as [? ->]; [|by subst r0].
  inversion H; subst. apply core_only_update. by repeat split.
Qed.

(** X3. Whatever it returns or throws, [getDescription()] writes
    nothing but [description] and [recursing] fields: the other fields of
    every object, the store's size, [ParserId], [__cache], [LazyId] and
    the function objects are as before. *)
Theorem getDescription_writes fuel this w :
  core_only w (getDescription fuel this w).2.
Proof.
  destruct (getDescription fuel this w) as [r w'] eqn:H. by eapply getDescription_core.
Qed.

Lemma mapM_more {S A B} (f g : A -> M S B) :
  (forall x s r s', f x s = (r, s') -> r <> Abort -> g x s = (r, s')) ->
  forall l s r s', mapM f l s = (r, s') -> r <> Abort -> mapM g l s = (r, s').
Proof.
  intros Hfg. induction l as [|x l IH]; intros s r s' H Hr; [done|].
  simpl in *. unfold bind in *.
  destruct (f x s) as [ry s1] eqn:Hx.
  assert (ry <> Abort).
  { intros ->. inversion H; subst. done. }
  rewrite (Hfg _ _ _ _ Hx) by done.
  destruct ry as [y|e|]; [|done|done].
  destruct (mapM f l s1) as [rl s2] eqn:Hl.
  assert (rl <> Abort).
  { intros ->. inversion H; subst. done. }
  rewrite (IH _ _ _ Hl) by done. done.
Qed.

Lemma getDescription_more fuel :
  forall this w r w',
    getDescription fuel this w = (r, w') -> r <> Abort ->
    getDescription (S fuel) this w = (r, w').
Proof.
  induction fuel as [|fuel IH]; intros this w r w' H Hr.
  { inversion H; subst. done. }
  rewrite getDescription_S in H |- *. unfold bind in H |- * at 1.
  destruct (read this w) as [[self|e|] w1]; [|done|done].
  destruct (truthy_opt (Parser.description self)); [done|].
  destruct (Parser.recursing self); [done|].
  unfold bind in H |- * at 1.
  destruct (write this (Parser.set_recursing true) w1) as [[[]|e|] w2]; [|done|done].
  destruct (Parser.children self) as [cs|]; [|done].
  unfold bind in H |- * at 1.
  destruct (mapM (describe_child (getDescription fuel)) cs w2) as [rm wm] eqn:Hm.
  assert (rm <> Abort).
  { intros ->. inversion H; subst. done. }
  rewrite (mapM_more (describe_child (getDescription fuel))
             (describe_child (getDescription (S fuel)))) with (r := rm) (s' := wm);
    [exact H| |exact Hm|done].
  intros [|q] s r1 s1 Hq Hr1; [done|].
  simpl in *. unfold bind in Hq |- * at 1.
  destruct (read q s) as [[o|e|] s2]; [|done|done].
  destruct (long_children o); [|by apply IH].
  unfold bind in Hq |- * at 1.
  destruct (getDescription fuel q s2) as [rq sq] eqn:Hg.
  assert (rq <> Abort).
  { intros ->. inversion Hq; subst. done. }
  by rewrite (IH _ _ _ _ Hg).
Qed.

Lemma getDescription_fuel_le fuel fuel' this w r w' :
  getDescription fuel this w = (r, w') -> r <> Abort -> fuel <= fuel' ->
  getDescription fuel' this w = (r, w').
Proof.
  intros H Hr Hle. induction Hle as [|m _ IH]; [done|].
  by apply getDescription_more.
Qed.

(** X4. [getDescription()] ends on every store whose [children]
    references point to stored objects, cyclic grammars included: the
    [recursing] flags bound the depth by the number of objects, which is
    the bound [resolve()] runs it with.  The result does not depend on
    the bound, and a normal return leaves every flag as it was. *)
Theorem getDescription_terminates this w :
  children_valid w -> this < length (heap w) ->
  exists r w', r <> Abort /\
    (forall fuel, description_fuel w <= fuel ->
       getDescription fuel this w = (r, w')) /\
    (is_normal r = true -> flags w' = flags w).
Proof.
  intros Hv Hthis.
  destruct (getDescription_total (description_fuel w) this w Hv Hthis)
    as (r & w' & H & Hr & Hn).
  { unfold description_fuel, unflagged, flags.
    pose proof (count_le_length negb (Parser.recursing <$> heap w)) as Hc.
    rewrite length_fmap in Hc. lia. }
  exists r, w'. split; [done|]. split.
  - intros fuel Hle. by eapply getDescription_fuel_le.
  - destruct r as [d| |]; try done. intros _. by destruct (Hn d eq_refl) as (_ & ? & _).
Qed.

Lemma update_insert this f w self :
  heap w !! this = Some self -> update this f w = store this (f self) w.
Proof.
  intros H. unfold update, store. f_equal. apply list_eq. intros j.
  destruct (decide (this = j)) as [<-|Hne].
  - rewrite list_lookup_alter_eq, H. simpl.
    symmetry. apply list_lookup_insert_eq. by eapply lookup_lt_Some.
  - by rewrite list_lookup_alter_ne, list_lookup_insert_ne.
Qed.

Lemma lookup_store this x w :
  this < length (heap w) -> heap (store this x w) !! this = Some x.
Proof. intros H. unfold store. simpl. by apply list_lookup_insert_eq. Qed.

Lemma update_store this f x w :
  this < length (heap w) -> update this f (store this x w) = store this (f x) w.
Proof.
  intros H. rewrite (update_insert this f _ x) by (by apply lookup_store).
  unfold store, set_heap. simpl. f_equal. by rewrite list_insert_insert_eq.
Qed.


Lemma write_store this f x w :
  this < length (heap w) ->
  write this f (store this x w) = (Normal tt, store this (f x) w).
Proof. intros H. unfold write. by rewrite update_store. Qed.

Lemma store_self this x w : heap w !! this = Some x -> store this x w = w.
Proof.
  intros H. unfold store, set_heap. rewrite list_insert_id by done. by destruct w.
Qed.

Lemma describe_children_described fuel w1 w cs :
  (forall q o, heap w !! q = Some o -> truthy_opt (Parser.description o) = true ->
     heap w1 !! q = Some o) ->
  Forall (described w) cs ->
  mapM (describe_child (getDescription (S fuel))) cs w1
  = (Normal (shown_child w <$> cs), w1).
Proof.
  intros Hsame. induction 1 as [|c cs (q & o & -> & Ho & Hd) _ IH]; [done|].
  cbn [mapM describe_child fmap list_fmap shown_child].
  unfold bind at 1. unfold bind at 1, read at 1.
  rewrite (Hsame _ _ Ho Hd).
  assert (Hg : getDescription (S fuel) q w1
               = (Normal (default EmptyString (Parser.description o)), w1)).
  { rewrite getDescription_S. unfold bind, read. by rewrite (Hsame _ _ Ho Hd), Hd. }
  rewrite Ho.
  destruct (long_children o).
  - unfold bind at 1. rewrite Hg. unfold ret at 1. unfold bind at 1. rewrite IH. done.
  - rewrite Hg. unfold bind at 1. rewrite IH. done.
Qed.

Lemma getDescription_over_described fuel this w self cs o :
  heap w !! this = Some self ->
  truthy_opt (Parser.description self) = false ->
  Parser.recursing self = false ->
  Parser.children self = Some cs ->
  Parser.options self = Some o ->
  Forall (described w) cs ->
  let d := default (defaultDescribe (Parser.name self))
                   (ParserOptions.describe o) (shown_child w <$> cs) in
  getDescription (S (S fuel)) this w
  = (Normal d, store this (Parser.set_description d self) w).
Proof.
  intros Hself Hd Hrec Hcs Ho Hall d.
  rewrite getDescription_S. unfold bind at 1, read at 1. rewrite Hself, Hd, Hrec.
  unfold bind at 1, write at 1. rewrite Hcs.
  set (w1 := update this (Parser.set_recursing true) w).
  unfold bind at 1.
  rewrite (describe_children_described fuel w1 w cs); [| |done].
  2:{ intros q oq Hq Hdq. unfold w1. rewrite lookup_update.
      destruct (decide (this = q)) as [<-|]; [|done]. congruence. }
  unfold bind at 1, write at 1. unfold bind at 1, read at 1.
  assert (H3 : heap (update this (Parser.set_recursing false) w1) !! this
               = Some self).
  { unfold w1. rewrite !lookup_update, !decide_True by done. rewrite Hself. simpl.
    f_equal. destruct self; simpl in *. by subst. }
  rewrite H3, Ho. fold d. unfold bind at 1, write at 1. unfold ret. f_equal.
  rewrite (update_insert _ _ _ _ H3).
  unfold w1, update, store, set_heap. simpl. f_equal.
  apply list_eq. intros j. destruct (decide (this = j)) as [<-|Hne].
  - rewrite !list_lookup_insert_eq; [done|..]; rewrite ?length_alter;
      by eapply lookup_lt_Some.
  - by rewrite !list_lookup_insert_ne, !list_lookup_alter_ne.
Qed.

(** X5. On a node without description whose children all have theirs,
    [getDescription()] returns [describe(list)], or
    [defaultDescribe(name)(list)] when the options give no [describe],
    where [list] holds each child's description, in parentheses when the
    child has more than one child of its own; it stores the result in
    [description] and changes nothing else. *)
Theorem getDescription_described fuel this w self cs o :
  heap w !! this = Some self ->
  truthy_opt (Parser.description self) = false ->
  Parser.recursing self = false ->
  Parser.children self = Some cs ->
  Parser.options self = Some o ->
  Forall (described w) cs ->
  let d := default (defaultDescribe (Parser.name self))
                   (ParserOptions.describe o) (shown_child w <$> cs) in
  getDescription (S (S fuel)) this w
  = (Normal d, store this (Parser.set_description d self) w).
Proof. apply getDescription_over_described. Qed.

Lemma mapM_app_throw {S A B} (f : A -> M S B) pre x post s ys s1 e s2 :
  mapM f pre s = (Normal ys, s1) -> f x s1 = (Throw e, s2) ->
  mapM f (pre ++ x :: post) s = (Throw e, s2).
Proof.
  revert s ys. induction pre as [|y pre IH]; intros s ys Hpre Hx.
  - inversion Hpre; subst. cbn [app mapM]. unfold bind at 1. by rewrite Hx.
  - cbn [app mapM] in Hpre |- *. unfold bind at 1 in Hpre. unfold bind at 1.
    destruct (f y s) as [[b|e0|] s0]; [|done|done].
    unfold bind at 1 in Hpre. unfold bind at 1.
    destruct (mapM f pre s0) as [[bs|e0|] s3] eqn:Hm; [|done|done].
    inversion Hpre; subst. by rewrite (IH _ _ Hm Hx).
Qed.

(** X6. When the first child without a description is an object that
    was never resolved ([children] undefined), [getDescription()] throws
    the TypeError of [this.children.map] and leaves the [recursing] flags
    of the node and of that child raised; from then on
    [getDescription()] on the node answers ["..."]. *)
Theorem getDescription_unresolved_child fuel this w self pre q post oq :
  heap w !! this = Some self ->
  truthy_opt (Parser.description self) = false ->
  Parser.recursing self = false ->
  Parser.children self = Some (pre ++ Ref q :: post)%list ->
  Forall (described w) pre ->
  heap w !! q = Some oq ->
  truthy_opt (Parser.description oq) = false ->
  Parser.recursing oq = false ->
  Parser.children oq = None ->
  let w' := update q (Parser.set_recursing true)
              (update this (Parser.set_recursing true) w) in
  getDescription (S (S fuel)) this w = (Throw (undefined_error "map"), w') /\
  forall fuel', getDescription (S fuel') this w' = (Normal "...", w').
Proof.
  intros Hself Hd Hrec Hcs Hpre Hq Hdq Hrq Hcq w'.
  assert (Hne : this <> q) by (intros ->; congruence).
  set (w1 := update this (Parser.set_recursing true) w).
  assert (Hq1 : heap w1 !! q = Some oq).
  { unfold w1. by rewrite lookup_update, decide_False. }
  split.
  - rewrite getDescription_S. unfold bind at 1, read at 1. rewrite Hself, Hd, Hrec.
    unfold bind at 1, write at 1. rewrite Hcs. fold w1. unfold bind at 1.
    rewrite (mapM_app_throw _ pre (Ref q) post w1 (shown_child w <$> pre) w1
               (undefined_error "map") w'); [done| |].
    + apply describe_children_described; [|done].
      intros p o Hp Hdp. unfold w1. rewrite lookup_update.
      destruct (decide (this = p)) as [<-|]; [|done]. congruence.
    + cbn [describe_child]. unfold bind at 1, read at 1. rewrite Hq1.
      unfold long_children. rewrite Hcq.
      rewrite getDescription_S. unfold bind at 1, read at 1. rewrite Hq1, Hdq, Hrq.
      unfold bind at 1, write at 1. by rewrite Hcq.
  - intros fuel'. rewrite getDescription_S. unfold bind at 1, read at 1.
    unfold w'. rewrite lookup_update, decide_False by done.
    fold w1. unfold w1. rewrite lookup_update, decide_True by done.
    rewrite Hself. simpl. by rewrite Hd.
Qed.

(** X7. What [getDescription()] returns for a node whose [recursing]
    flag is down is the node's [description] afterwards; when it is not
    the empty string, every later call returns it again and writes
    nothing. *)
Theorem getDescription_memo fuel this w d w' o :
  getDescription fuel this w = (Normal d, w') ->
  heap w !! this = Some o -> Parser.recursing o = false ->
  exists o', heap w' !! this = Some o' /\ Parser.description o' = Some d /\
    (truthy d = true ->
     forall fuel', getDescription (S fuel') this w' = (Normal d, w')).
Proof.
  intros H Ho Hrec.
  assert (Hagain : forall o', heap w' !! this = Some o' ->
            Parser.description o' = Some d -> truthy d = true ->
            forall fuel', getDescription (S fuel') this w' = (Normal d, w')).
  { intros o' Ho' Hd Ht fuel'. rewrite getDescription_S.
    unfold bind, read. rewrite Ho', Hd. simpl. by rewrite Ht. }
  destruct fuel as [|fuel]; [done|].
  rewrite getDescription_S in H. unfold bind at 1, read at 1 in H. rewrite Ho in H.
  destruct (truthy_opt (Parser.description o)) eqn:Hd.
  { destruct (Parser.description o) as [d0|] eqn:E; [|done].
    cbn [default] in H. inversion H; subst. exists o.
    split; [done|]. split; [done|]. intros Ht. by eapply Hagain. }
  rewrite Hrec in H.
  apply bind_eq in H as [([] & w1 & Hw & H)|(? & _)]; [|done].
  destruct (Parser.children o) as [cs|]; [|done].
  apply bind_eq in H as [(descs & w2 & Hm & H)|(? & _)]; [|done].
  apply bind_eq in H as [([] & w3 & Hw3 & H)|(? & _)]; [|done].
  apply bind_eq in H as [(self' & w4 & Hr & H)|(? & _)]; [|done].
  apply read_inv in Hr as [-> Hself'].
  destruct (Parser.options self') as [opts|]; [|done].
  apply bind_eq in H as [([] & w5 & Hw5 & H)|(? & _)]; [|done].
  apply write_inv in Hw5 as [_ ->]. inversion H; subst. clear H.
  match goal with
  | |- context [update this (Parser.set_description ?dd) w3] => set (d := dd)
  end.
  assert (Hl : heap (update this (Parser.set_description d) w3) !! this
               = Some (Parser.set_description d self')).
  { rewrite lookup_update, decide_True, Hself' by done. done. }
  exists (Parser.set_description d self').
  split; [done|]. split; [done|]. intros Ht. by eapply Hagain.
Qed.

(** ** Forcing lazy references *)

(** What [function_id] leaves: the function has a truthy tag, and only
    the tag and [LazyId] may have changed. *)
Lemma function_id_spec t fn w id w1 :
  functions w !! t = Some fn ->
  function_id t fn w = (id, w1) ->
  truthy id = true /\
  functions w1 !! t = Some (mkFunction (Some id) (body fn) (source fn) (calls fn)) /\
  heap w1 = heap w /\ __cache w1 = __cache w /\ ParserId w1 = ParserId w /\
  length (functions w1) = length (functions w) /\
  function_id t (mkFunction (Some id) (body fn) (source fn) (calls fn)) w1 = (id, w1).
Proof.
  intros Hfn. unfold function_id. destruct (truthy_opt (tag fn)) eqn:Ht.
  - destruct (tag fn) as [id0|] eqn:Etag; [|done]. simpl in *.
    intros H; inversion H; subst. rewrite Ht.
    split; [done|]. split; [|done]. rewrite Hfn. f_equal. destruct fn; simpl in *.
    by subst.
  - intros H; inversion H; subst. simpl. rewrite truthy_pretty.
    rewrite list_lookup_insert_eq by (by eapply lookup_lt_Some).
    by rewrite length_insert.
Qed.


(** X9. Within a pass [unlazy] is idempotent: once it has returned
    a parser for a lazy reference, asking again in the state it left
    returns the same parser and changes nothing (a function is answered
    from the function cache). *)
Theorem unlazy_idempotent v st p st' :
  unlazy v st = (Normal p, st') -> unlazy v st' = (Normal p, st').
Proof.
  destruct st as [fc w]. unfold unlazy at 1. unfold bind, force.
  destruct v as [s|s|items|p0|t|b s]; cbn [implicits]; try done.
  { intros H; inversion H; subst. done. }
  cbn [snd fst].
  destruct (functions w !! t) as [fn|] eqn:Hfn; [|done].
  destruct (function_id t fn w) as [id w1] eqn:Hid.
  destruct (function_id_spec _ _ _ _ _ Hfn Hid) as (Ht & Hfn1 & _ & _ & _ & _ & Hid1).
  assert (Hagain : forall fc' w2 fn2,
            functions w2 !! t = Some fn2 -> tag fn2 = Some id ->
            cached fc' id = Some (LParser p) ->
            unlazy (LFunction t) (fc', w2) = (Normal p, (fc', w2))).
  { intros fc' w2 fn2 Hfn2 Htag Hc. unfold unlazy, bind, force. cbn [snd fst].
    rewrite Hfn2. unfold function_id. rewrite Htag.
    change (default EmptyString (Some id)) with id. cbn [truthy_opt].
    rewrite Ht, Hc. done. }
  destruct (cached fc id) as [v|] eqn:Hc.
  - destruct v; cbn [implicits]; intros H; inversion H; subst.
    by eapply Hagain.
  - destruct (call_function t w1) as [r2 w2] eqn:Hcall.
    destruct r2 as [v|e|]; [|done|done].
    destruct v; cbn [implicits]; intros H; inversion H; subst.
    apply call_function_inv in Hcall as [[? _]|(fn1 & Hfn1' & Hf & _)]; [done|].
    eapply Hagain.
    + rewrite Hf. apply list_lookup_insert_eq. by eapply lookup_lt_Some.
    + simpl. rewrite Hfn1 in Hfn1'. by inversion Hfn1'.
    + unfold cached. by rewrite lookup_insert_eq.
Qed.

Lemma tags_ok_keep w w' :
  (forall i f', functions w' !! i = Some f' ->
     tag f' = None \/ exists f, functions w !! i = Some f /\ tag f' = tag f) ->
  LazyId w <= LazyId w' ->
  tags_ok w -> tags_ok w'.
Proof.
  intros Hf Hl [H1 H2]. split.
  - intros t fn id Hfn Htag.
    destruct (Hf _ _ Hfn) as [E|(f & Hfo & E)]; [congruence|].
    rewrite E in Htag. destruct (H1 _ _ _ Hfo Htag) as (n & Hn & ->).
    exists n. split; [lia|done].
  - intros t1 t2 f1 f2 id Hf1 Hf2 Ht1 Ht2.
    destruct (Hf _ _ Hf1) as [E|(g1 & Hg1 & E1)]; [congruence|].
    destruct (Hf _ _ Hf2) as [E|(g2 & Hg2 & E2)]; [congruence|].
    rewrite E1 in Ht1. rewrite E2 in Ht2. by eapply H2.
Qed.

Lemma tags_ok_call t st r st' :
  calls_function t st r st' -> tags_ok st.2 -> tags_ok st'.2.
Proof.
  intros H HI. destruct H as [fc w fn id r w' Hfn Htag Hid Hc Hcall]. simpl in *.
  apply call_function_inv in Hcall
    as [[-> ->]|(fn' & Hfn' & Hfs & Hca & Hla & _)]; [done|].
  eapply (tags_ok_keep w w'); [|by rewrite Hla|exact HI].
  intros i f' Hi. right. rewrite Hfs in Hi.
  destruct (decide (t = i)) as [<-|Hne].
  - rewrite list_lookup_insert_eq in Hi by (by eapply lookup_lt_Some).
    inversion Hi; subst. by exists fn'.
  - rewrite list_lookup_insert_ne in Hi by done. by exists f'.
Qed.

Lemma tags_ok_step touch st st' :
  step touch st st' -> tags_ok st.2 -> tags_ok st'.2.
Proof.
  intros H HI.
  destruct H as [fc w t fn Hfn Ht|st t p st' Hcall|fc w this cs _|fc w this b
                |fc w this d|fc w this self k _ _ _ _|fc w this m _];
    cbn [fst snd] in *;
    try (eapply tags_ok_keep; [|reflexivity|exact HI]; intros i f' Hi; right;
         by exists f').
  - (* a new tag *)
    destruct HI as [H1 H2].
    assert (Hnone : tag fn = None).
    { destruct (tag fn) as [id|] eqn:E; [|done].
      destruct (H1 _ _ _ Hfn E) as (n & _ & ->).
      simpl in Ht. by rewrite truthy_pretty in Ht. }
    assert (Hold : forall i f', i <> t ->
              <[t := mkFunction (Some (pretty (LazyId w))) (body fn) (source fn)
                       (calls fn)]> (functions w) !! i = Some f' ->
              functions w !! i = Some f').
    { intros i f' Hne Hi. by rewrite list_lookup_insert_ne in Hi. }
    assert (Hnew : forall f',
              <[t := mkFunction (Some (pretty (LazyId w))) (body fn) (source fn)
                       (calls fn)]> (functions w) !! t = Some f' ->
              tag f' = Some (pretty (LazyId w))).
    { intros f' Hi.
      rewrite list_lookup_insert_eq in Hi by (by eapply lookup_lt_Some).
      by inversion Hi. }
    assert (Hfresh : forall i f, functions w !! i = Some f ->
              tag f <> Some (pretty (LazyId w))).
    { intros i f Hi E. destruct (H1 _ _ _ Hi E) as (n & Hn & En).
      apply (inj pretty) in En. lia. }
    split; simpl.
    + intros i f' id Hi Htag. destruct (decide (i = t)) as [->|Hne].
      * rewrite (Hnew _ Hi) in Htag. inversion Htag. exists (LazyId w). split; [lia|done].
      * destruct (H1 _ _ _ (Hold _ _ Hne Hi) Htag) as (n & Hn & ->).
        exists n. split; [lia|done].
    + intros t1 t2 f1 f2 id Hf1 Hf2 Ht1 Ht2.
      destruct (decide (t1 = t)) as [->|Hne1], (decide (t2 = t)) as [->|Hne2];
        [done| | |].
      * rewrite (Hnew _ Hf1) in Ht1. inversion Ht1; subst.
        by destruct (Hfresh _ _ (Hold _ _ Hne2 Hf2)).
      * rewrite (Hnew _ Hf2) in Ht2. inversion Ht2; subst.
        by destruct (Hfresh _ _ (Hold _ _ Hne1 Hf1)).
      * eapply H2; [by apply Hold|by apply Hold|done|done].
  - by eapply tags_ok_call.
Qed.

Lemma reachable_tags_ok quote w : reachable quote w -> tags_ok w.
Proof.
  induction 1 as [|w n o g _ IH|w b src _ IH|w fuel p fc r st' _ IH H].
  - split; intros t; intros; by destruct t.
  - eapply (tags_ok_keep w); [|reflexivity|exact IH]. intros i f' Hi. right. by exists f'.
  - eapply (tags_ok_keep w); [|reflexivity|exact IH]. intros i f' Hi. simpl in Hi.
    apply lookup_snoc_Some in Hi as [[_ Hi]|[_ <-]]; [right; by exists f'|by left].
  - eapply (resolve_inv tags_ok); [| |exact H|exact IH].
    + intros. by eapply tags_ok_step.
    + intros. by eapply tags_ok_call.
Qed.

(** X10. In every world a program can reach, the
    [__packrattle_cache_id] tags are the decimal numerals of numbers below
    [LazyId], and no two function objects carry the same tag: entries of
    the function cache never collide. *)
Theorem function_tags_distinct quote w t1 t2 f1 f2 id :
  reachable quote w ->
  functions w !! t1 = Some f1 -> functions w !! t2 = Some f2 ->
  t1 <> t2 -> tag f1 = Some id ->
  tag f2 <> Some id /\ exists n, n < LazyId w /\ id = pretty n.
Proof.
  intros Hr Hf1 Hf2 Hne Ht1. destruct (reachable_tags_ok _ _ Hr) as [H1 H2].
  split; [|exact (H1 _ _ _ Hf1 Ht1)]. intros Ht2. apply Hne.
  exact (H2 _ _ _ _ _ Hf1 Hf2 Ht1 Ht2).
Qed.

(** ** What [resolve] leaves behind *)

(** The [try] block of [resolve], phase by phase: once the lazy children
    have been forced, the node holds them, and nothing a child's
    [resolve] does changes the node's own resolution fields. *)
Lemma resolve_children_exact rc this self o st r st' :
  (forall p s r s', rc p s = (r, s') -> trace (fresh s) (is_normal r) s s') ->
  heap st.2 !! this = Some self ->
  Parser.children self = None ->
  Parser.options self = Some o ->
  resolve_children rc this self st = (r, st') ->
  forall cs0 st1,
    mapM unlazy (default [] (ParserOptions.children o)) st = (Normal cs0, st1) ->
    exists r3 st3 self3,
      mapM rc cs0 (st1.1, update this (Parser.set_children (Ref <$> cs0)) st1.2)
      = (r3, st3) /\
      heap st3.2 !! this = Some self3 /\
      Parser.children self3 = Some (Ref <$> cs0) /\
      Parser.id self3 = Parser.id self /\
      Parser.name self3 = Parser.name self /\
      Parser.cacheKey self3 = Parser.cacheKey self /\
      Parser.matcher self3 = Parser.matcher self /\
      Parser.options self3 = Parser.options self /\
      Parser.generateMatcher self3 = Parser.generateMatcher self /\
      match r3 with
      | Normal cs1 =>
          r = Normal tt /\ st' = (st3.1, update this (Parser.set_children cs1) st3.2)
      | Throw e => r = Throw e /\ st' = st3
      | Abort => r = Abort /\ st' = st3
      end.
Proof.
  intros Hrec Hself Hch Ho H cs0 st1 H1. unfold resolve_children in H.
  rewrite Ho in H. unfold bind at 1 in H. rewrite H1 in H.
  assert (T1 : rtc (step (fun _ => False)) st st1).
  { apply (mapM_trace (fun _ => False) (fun _ => True) unlazy
             (fun _ _ _ _ => I)
             (fun x s r s' _ => unlazy_trace _ x s r s')
             _ _ _ _ I H1). }
  destruct (frame_untouched _ _ _ _ (steps_ext _ _ _ T1) Hself)
    as (self1 & Hself1 & Hid1 & Hname1 & Hch1 & Hkey1 & Hm1 & Hopt1 & Hgen1).
  unfold bind at 1, lift at 1, write at 1 in H.
  destruct st1 as [fc1 w1]. cbn [fst snd] in *.
  set (st2 := (fc1, update this (Parser.set_children (Ref <$> cs0)) w1)) in *.
  assert (Hself2 : heap st2.2 !! this
                   = Some (Parser.set_children (Ref <$> cs0) self1)).
  { unfold st2. cbn [snd]. rewrite lookup_update, decide_True by done.
    by rewrite Hself1. }
  destruct (mapM rc cs0 st2) as [r3 st3] eqn:H3.
  assert (T3 : trace (fresh st2) (is_normal r3) st2 st3).
  { revert H3. apply (mapM_trace _ (fun s => forall x, fresh s x -> fresh st2 x)).
    - intros s s' Hs Hss x Hx. apply Hs. eapply fresh_anti; [|exact Hx].
      by apply steps_ext.
    - intros x s r1 s' Hs Hx. eapply trace_mono; [exact Hs|].
      exact (Hrec _ _ _ _ Hx).
    - done. }
  assert (Hnot : ~ fresh st2 this).
  { eapply fresh_not_resolved; [exact Hself2|]. by eexists. }
  destruct (trace_ext _ _ _ _ T3) as (E3 & _).
  destruct (E3 _ _ Hself2) as (self3 & Hself3 & Hid3 & Hname3 & _ & _ & Hfr).
  destruct (Hfr Hnot) as (Hch3 & Hkey3 & Hm3 & Hopt3 & Hgen3).
  exists r3, st3, self3. split; [done|]. split; [done|].
  simpl in Hch3, Hkey3, Hm3, Hopt3, Hgen3, Hid3, Hname3.
  repeat (split; [congruence|]).
  unfold bind at 1 in H. rewrite H3 in H.
  destruct r3 as [cs1|e|]; [|by inversion H|by inversion H].
  unfold lift, write in H. destruct st3 as [fc3 w3]. by inversion H.
Qed.

Lemma cache_inv_core w w' : core_only w w' -> cache_inv w -> cache_inv w'.
Proof.
  intros C [H1 H2]. pose proof C as (_ & _ & Hc & _). split.
  - intros p o k Ho Hk. destruct (core_only_lookup_r _ _ _ _ C Ho) as (o0 & Ho0 & S0).
    destruct S0 as (_ & _ & _ & _ & _ & _ & Hk0). rewrite Hc.
    apply (H1 p o0 k Ho0). congruence.
  - intros k q Hq. rewrite Hc in Hq. destruct (H2 _ _ Hq) as (o & Ho & Hk).
    destruct (core_only_lookup _ _ _ _ C Ho) as (o' & Ho' & S0).
    destruct S0 as (_ & _ & _ & _ & _ & _ & Hk0). exists o'. split; [done|congruence].
Qed.

(** Lines 107-128 on a node whose children are resolved: what is
    returned, and how the node is left. *)
Lemma finish_outcome quote this w self o g cs a w' :
  cache_inv w ->
  heap w !! this = Some self ->
  Parser.cacheKey self = None ->
  Parser.children self = Some cs ->
  Parser.options self = Some o ->
  Parser.generateMatcher self = Some g ->
  Parser.matcher self = None ->
  finish quote this w = (Normal a, w') ->
  exists o', heap w' !! this = Some o' /\ Parser.children o' = Some cs /\
    ((a = Ref this /\ Parser.matcher o' = Some (g cs) /\
      Parser.options o' = None /\ Parser.generateMatcher o' = None /\
      (ParserOptions.cacheable o = false -> Parser.cacheKey o' = None) /\
      (forall k, Parser.cacheKey o' = Some k -> __cache w' !! k = Some this)) \/
     (exists k q, q <> this /\ a = Ref q /\ Parser.cacheKey o' = Some k /\
        __cache w' !! k = Some q /\ Parser.matcher o' = None /\
        Parser.options o' = Some o /\ Parser.generateMatcher o' = Some g /\
        ParserOptions.cacheable o = true)).
Proof.
  intros Hinv Hself Hkey Hcs Ho Hg Hm H. unfold finish in H.
  apply bind_eq in H as [(d & w1 & Hd & H)|(? & _)]; [|done].
  pose proof (getDescription_core _ _ _ _ _ Hd) as C.
  pose proof (cache_inv_core _ _ C Hinv) as Hinv1.
  destruct (core_only_lookup _ _ _ _ C Hself) as (self1 & Hself1 & S1).
  destruct S1 as (_ & _ & Ho1 & Hg1 & Hcs1 & Hm1 & Hkey1).
  rewrite Ho in Ho1. rewrite Hg in Hg1. rewrite Hcs in Hcs1. rewrite Hm in Hm1.
  rewrite Hkey in Hkey1. clear Hd C Hinv Hself Hkey Hcs Ho Hg Hm.
  unfold bind at 1, read at 1 in H. rewrite Hself1, Ho1 in H.
  assert (Hlast : forall w2 s2 a w',
    heap w2 !! this = Some s2 ->
    Parser.children s2 = Some cs -> Parser.generateMatcher s2 = Some g ->
    (let* self' := read this in
     match Parser.generateMatcher self', Parser.children self' with
     | Some g, Some cs =>
         let* _ := write this (Parser.set_matcher (g cs)) in ret (Ref this)
     | _, _ => abort
     end) w2 = (Normal a, w') ->
    a = Ref this /\ w' = update this (Parser.set_matcher (g cs)) w2 /\
    heap w' !! this = Some (Parser.set_matcher (g cs) s2)).
  { clear H. intros w2 s2 a2 w3 Hs2 Hc2 Hg2 H.
    unfold bind at 1, read at 1 in H. rewrite Hs2, Hg2, Hc2 in H.
    unfold bind, write, ret in H. inversion H; subst.
    split; [done|]. split; [done|].
    rewrite lookup_update, decide_True by done. by rewrite Hs2. }
  destruct (ParserOptions.cacheable o) eqn:Hcache.
  - apply bind_eq in H as [(found & w2 & Hp & H)|(? & _)]; [|done].
    assert (Hf : truthy_opt (Parser.cacheKey self1) = false) by (by rewrite Hkey1).
    pose proof (key_phase_spec _ _ _ _ _ _ Hself1 Hf Hp) as Hspec.
    destruct (computed_key quote self1 w1) as [[k|]|e|];
      destruct Hspec as [-> Hres]; try discriminate Hres.
    + (* a key *)
      assert (Hs2 : forall c, heap (set_cache c (update this (Parser.set_cacheKey k) w1))
                      !! this = Some (Parser.set_cacheKey k self1)).
      { intros c. change (heap (update this (Parser.set_cacheKey k) w1) !! this
                          = Some (Parser.set_cacheKey k self1)).
        rewrite lookup_update, decide_True by done. by rewrite Hself1. }
      destruct (__cache w1 !! k) as [q|] eqn:Hq; injection Hres as ->.
      * inversion H; subst. eexists. split; [apply Hs2|]. split; [done|].
        right. exists k, q. split.
        { intros ->. destruct (proj2 Hinv1 _ _ Hq) as (c & Hc & Hkc). congruence. }
        by repeat split.
      * destruct (Hlast _ _ _ _ (Hs2 _) Hcs1 Hg1 H) as (-> & -> & Hl).
        eexists. split; [exact Hl|]. split; [done|]. left.
        split; [done|]. split; [done|]. split; [done|]. split; [done|].
        split; [done|]. intros k' [= <-].
        change (<[k := this]> (__cache w1) !! k = Some this). apply lookup_insert_eq.
    + (* no key *)
      injection Hres as ->.
      destruct (Hlast _ _ _ _ Hself1 Hcs1 Hg1 H) as (-> & -> & Hl).
      eexists. split; [exact Hl|]. split; [done|]. left.
      split; [done|]. split; [done|]. split; [done|]. split; [done|].
      split; [done|]. simpl. by rewrite Hkey1.
  - unfold bind at 1, ret at 1 in H.
    destruct (Hlast _ _ _ _ Hself1 Hcs1 Hg1 H) as (-> & -> & Hl).
    eexists. split; [exact Hl|]. split; [done|]. left.
    split; [done|]. split; [done|]. split; [done|]. split; [done|].
    split; [by simpl|]. simpl. by rewrite Hkey1.
Qed.

Lemma mapM_length {S A B} (f : A -> M S B) l s ys s' :
  mapM f l s = (Normal ys, s') -> length ys = length l.
Proof.
  revert s ys. induction l as [|x l IH]; intros s ys H; simpl in H.
  - by inversion H.
  - apply bind_eq in H as [(y & s1 & _ & H)|(? & _)]; [|done].
    apply bind_eq in H as [(ys' & s2 & Hl & H)|(? & _)]; [|done].
    inversion H; subst. simpl. f_equal. by eapply IH.
Qed.

Lemma resolve_children_forced rc this self o st st' :
  Parser.options self = Some o ->
  resolve_children rc this self st = (Normal tt, st') ->
  exists cs0 st1,
    mapM unlazy (default [] (ParserOptions.children o)) st = (Normal cs0, st1).
Proof.
  intros Ho H. unfold resolve_children in H. rewrite Ho in H.
  unfold bind at 1 in H.
  destruct (mapM unlazy (default [] (ParserOptions.children o)) st)
    as [[cs0|e|] st1]; [by eexists _, _|done|done].
Qed.

Lemma cache_inv_trace touch ok st st' :
  trace touch ok st st' -> cache_inv st.2 -> cache_inv st'.2.
Proof.
  apply (trace_inv cache_inv).
  - intros. by eapply cache_inv_step.
  - intros. by eapply cache_inv_call.
Qed.

Lemma resolve_outcome_cases quote fuel this st self o g a st' :
  cache_inv st.2 ->
  heap st.2 !! this = Some self ->
  constructed self o ->
  Parser.generateMatcher self = Some g ->
  Parser.matcher self = None ->
  resolve quote fuel this st = (Normal a, st') ->
  exists o' cs, heap st'.2 !! this = Some o' /\ Parser.children o' = Some cs /\
    length cs = length (default [] (ParserOptions.children o)) /\
    ((a = Ref this /\ Parser.matcher o' = Some (g cs) /\
      Parser.options o' = None /\ Parser.generateMatcher o' = None /\
      (ParserOptions.cacheable o = false -> Parser.cacheKey o' = None) /\
      (forall k, Parser.cacheKey o' = Some k -> __cache st'.2 !! k = Some this)) \/
     (exists k q, q <> this /\ a = Ref q /\ Parser.cacheKey o' = Some k /\
        __cache st'.2 !! k = Some q /\ Parser.matcher o' = None /\
        Parser.options o' = Some o /\ Parser.generateMatcher o' = Some g /\
        ParserOptions.cacheable o = true)).
Proof.
  intros Hinv Hself (Ho & Hch & Hkey) Hg Hm H.
  destruct st as [fc w]. cbn [fst snd] in *.
  destruct fuel as [|fuel]; [done|]. rewrite resolve_S in H.
  unfold bind at 1, lift at 1, read at 1 in H. cbn [fst snd] in H.
  rewrite Hself in H. rewrite Hkey, Hch in H. cbn [truthy_opt] in H.
  rewrite bool_decide_eq_false_2 in H by (by intros [? ?]).
  apply bind_eq in H as [([] & st1 & Ha & H)|(? & _)]; [|done].
  apply annotate_inv in Ha as (r0 & Hrc & _ & Hr0).
  destruct r0 as [[]|e|]; [|done|done]. clear Hr0.
  assert (Hrec : forall p s r s',
            resolve quote fuel p s = (r, s') -> trace (fresh s) (is_normal r) s s').
  { intros p s r s'. apply resolve_trace. }
  assert (Hf : truthy_opt (Parser.cacheKey self) = false) by (by rewrite Hkey).
  destruct (resolve_children_spec _ this self (fc, w) _ _ Hrec Hself Hch Hf Hrc) as [T _].
  pose proof (cache_inv_trace _ _ (fc, w) _ T Hinv) as Hinv1.
  destruct (resolve_children_forced _ _ _ _ _ _ Ho Hrc) as (cs0 & st0 & H0).
  destruct (resolve_children_exact _ this self o (fc, w) _ _ Hrec Hself Hch Ho Hrc _ _ H0)
    as (r3 & st3 & self3 & H3 & Hself3 & _ & _ & _ & Hk3 & Hm3 & Ho3 & Hg3 & Hr3).
  destruct r3 as [cs1|e|]; destruct Hr3 as [Hr3 ->]; try discriminate Hr3.
  apply lift_inv in H as [_ H]. cbn [fst snd] in *.
  eapply (finish_outcome quote this _ (Parser.set_children cs1 self3) o g cs1) in H;
    [|done|..].
  - destruct H as (o' & Ho' & Hc' & Hcases). exists o', cs1.
    split; [done|]. split; [done|]. split; [|done].
    rewrite (mapM_length _ _ _ _ _ H3). by rewrite (mapM_length _ _ _ _ _ H0).
  - rewrite lookup_update, decide_True by done. by rewrite Hself3.
  - simpl. congruence.
  - done.
  - simpl. congruence.
  - simpl. congruence.
  - simpl. congruence.
Qed.

(** X11. What a normal [resolve()] leaves of a node that was as its
    constructor left it: [children] holds one resolved reference per lazy
    child, and either the node itself is returned, with
    [matcher = generateMatcher(children)], [options] and [generateMatcher]
    deleted and, if it has a cache key, registered under it; or it is
    cacheable and another object, the one [__cache] holds under its new
    key, is returned, and the node is left without matcher, [options] and
    [generateMatcher] still in place. *)
Theorem resolve_outcome quote fuel this fc w self o g a st' :
  cache_inv w ->
  heap w !! this = Some self ->
  constructed self o ->
  Parser.generateMatcher self = Some g ->
  Parser.matcher self = None ->
  resolve quote fuel this (fc, w) = (Normal a, st') ->
  exists o' cs, heap st'.2 !! this = Some o' /\ Parser.children o' = Some cs /\
    length cs = length (default [] (ParserOptions.children o)) /\
    ((a = Ref this /\ Parser.matcher o' = Some (g cs) /\
      Parser.options o' = None /\ Parser.generateMatcher o' = None /\
      (ParserOptions.cacheable o = false -> Parser.cacheKey o' = None) /\
      (forall k, Parser.cacheKey o' = Some k -> __cache st'.2 !! k = Some this)) \/
     (exists k q, q <> this /\ a = Ref q /\ Parser.cacheKey o' = Some k /\
        __cache st'.2 !! k = Some q /\ Parser.matcher o' = None /\
        Parser.options o' = Some o /\ Parser.generateMatcher o' = Some g /\
        ParserOptions.cacheable o = true)).
Proof. apply (resolve_outcome_cases quote fuel this (fc, w)). Qed.

Lemma resolve_fixed_point quote w fuel p fc a st' :
  cache_inv w ->
  resolve quote fuel p (fc, w) = (Normal a, st') ->
  exists q, a = Ref q /\
    forall fuel' fc',
      resolve quote (S fuel') q (fc', st'.2) = (Normal (Ref q), (fc', st'.2)).
Proof.
  intros Hinv H.
  assert (Hinv' : cache_inv st'.2).
  { eapply cache_inv_trace; [by eapply resolve_trace|done]. }
  apply resolve_returned in H; [|by apply cache_inv_ok].
  destruct H as (self & Hself & [(k & q & Hk & Ht & Hq & ->)|(Hf & Hc & ->)]).
  - exists q. split; [done|]. intros fuel' fc'.
    destruct (proj2 Hinv' _ _ Hq) as (c & Hc & Hkc).
    rewrite (resolve_early quote fuel' fc' st'.2 q c Hc).
    + unfold early_result, lookup_cache. rewrite Hkc. simpl. by rewrite Ht, Hq.
    + left. by rewrite Hkc.
  - exists p. split; [done|]. intros fuel' fc'.
    rewrite (resolve_early quote fuel' fc' st'.2 p self Hself); [|by right].
    unfold early_result. by rewrite Hf.
Qed.

(** X12. The object [resolve()] returns resolves to itself:
    [p.resolve().resolve()] is [p.resolve()], and the second call writes
    nothing. *)
Theorem resolve_result_canonical quote w fuel p fc a st' :
  cache_inv w ->
  resolve quote fuel p (fc, w) = (Normal a, st') ->
  exists q, a = Ref q /\
    forall fuel' fc',
      resolve quote (S fuel') q (fc', st'.2) = (Normal (Ref q), (fc', st'.2)).
Proof. apply resolve_fixed_point. Qed.

(** X13. [resolve()] never removes or replaces an entry of [__cache],
    never removes an object or changes its [id] or [name], and leaves
    [children], [cacheKey], [matcher], [options] and [generateMatcher] of
    every object that was already resolved as they were. *)
Theorem resolve_keeps_resolved quote fuel p fc w r st' :
  resolve quote fuel p (fc, w) = (r, st') ->
  (forall k q, __cache w !! k = Some q -> __cache st'.2 !! k = Some q) /\
  (forall q o, heap w !! q = Some o ->
     exists o', heap st'.2 !! q = Some o' /\
       Parser.id o' = Parser.id o /\ Parser.name o' = Parser.name o /\
       (resolved o ->
        Parser.children o' = Parser.children o /\
        Parser.cacheKey o' = Parser.cacheKey o /\
        Parser.matcher o' = Parser.matcher o /\
        Parser.options o' = Parser.options o /\
        Parser.generateMatcher o' = Parser.generateMatcher o)).
Proof.
  intros H. destruct (resolve_ext _ _ _ _ _ _ H) as (E1 & E2 & _).
  split; [exact E2|]. intros q o Ho.
  destruct (E1 _ _ Ho) as (o' & Ho' & Hid & Hn & _ & _ & Hfr).
  exists o'. split; [done|]. split; [done|]. split; [done|].
  intros Hres. apply Hfr. intros Hfresh. destruct (Hfresh _ Ho) as [Hc Hk].
  destruct Hres as [Hres|[cs Hres]]; congruence.
Qed.

Lemma child_keys_Forall2 w cs ks :
  Forall2 (has_key w) cs ks -> child_keys cs w = Normal (Some ks).
Proof.
  induction 1 as [|c k cs ks (q & o & -> & Ho & Hk) _ IH]; [done|].
  simpl. by rewrite Ho, Hk, IH.
Qed.

Lemma child_keys_keyless w pre c post :
  Forall (fun c => exists k, has_key w c k) pre -> keyless w c ->
  child_keys (pre ++ c :: post) w = Normal None.
Proof.
  intros Hpre (q & o & -> & Ho & Hk).
  induction Hpre as [|c pre (k & q' & o' & -> & Ho' & Hk') _ IH]; simpl.
  - by rewrite Ho, Hk.
  - rewrite Ho', Hk'. simpl in IH. by rewrite IH.
Qed.

(** X14. The cache key of a cacheable node with children: when every
    child carries a key it is [name(q1,...,qn)], the [qi] the quoted keys
    of the children in order, and [resolve()] returns the object
    registered under it; when a child carries none (the children before it
    carrying theirs), the node gets no key and [resolve()] returns the
    node itself. *)
Theorem resolve_node_key quote fuel this fc w self o a st' o' cs :
  cache_inv w ->
  heap w !! this = Some self ->
  constructed self o ->
  ParserOptions.cacheable o = true ->
  resolve quote fuel this (fc, w) = (Normal a, st') ->
  heap st'.2 !! this = Some o' ->
  Parser.children o' = Some cs -> cs <> [] ->
  (forall ks, Forall2 (has_key st'.2) cs ks ->
     let k := Parser.name self +:+ "(" +:+ String.concat "," (quote <$> ks) +:+ ")" in
     Parser.cacheKey o' = Some k /\
     exists q, a = Ref q /\ __cache st'.2 !! k = Some q) /\
  (forall pre c post, cs = (pre ++ c :: post)%list ->
     Forall (fun c => exists k, has_key st'.2 c k) pre -> keyless st'.2 c ->
     Parser.cacheKey o' = None /\ a = Ref this).
Proof.
  intros Hinv Hself (Ho & Hch & Hkey) Hc H Ho' Hcs Hne.
  destruct (resolve_key quote fuel this (fc, w) self o a st' Hself Hch Hkey Ho H)
    as (o'' & Ho'' & Hn & Hk).
  assert (o'' = o') as -> by congruence. rewrite Hc in Hk.
  apply resolve_returned in H; [|by apply (cache_inv_ok w)].
  destruct H as (o'' & Ho3 & Hret). assert (o'' = o') as -> by congruence.
  assert (Hck : computed_key quote o' st'.2 =
                match child_keys cs st'.2 with
                | Normal (Some ks) => Normal (Some (node_key quote (Parser.name o') ks))
                | Normal None => Normal None
                | Throw e => Throw e
                | Abort => Abort
                end).
  { unfold computed_key. rewrite Hcs. by destruct cs. }
  split.
  - intros ks Hks k. rewrite Hck, (child_keys_Forall2 _ _ _ Hks) in Hk.
    unfold node_key in Hk. rewrite Hn in Hk. fold k in Hk. split; [done|].
    destruct Hret as [(k' & q & Hk' & _ & Hq & ->)|(Hf & _)].
    + exists q. split; [done|]. congruence.
    + rewrite Hk in Hf. simpl in Hf.
      assert (truthy k = true); [|congruence].
      apply (computed_key_truthy quote o' st'.2). rewrite Hck.
      rewrite (child_keys_Forall2 _ _ _ Hks). unfold node_key. by rewrite Hn.
  - intros pre c post -> Hpre Hkl.
    rewrite Hck, (child_keys_keyless _ _ _ _ Hpre Hkl) in Hk. split; [done|].
    destruct Hret as [(k' & q & Hk' & _)|(_ & _ & ->)]; [congruence|done].
Qed.



(** X18. [p.map(f).resolve()], when it returns, returns the new node
    itself (it is not cacheable): a node named ["map"] with one resolved
    child, no cache key, and a matcher that schedules [p], the object
    [map] was called on, with the continuation of [f]. *)
Theorem map_resolve quote fuel this f fc w a st' :
  cache_inv w ->
  resolve quote fuel (Parser_map this f w).1 (fc, (Parser_map this f w).2)
  = (Normal a, st') ->
  a = Ref (Parser_map this f w).1 /\
  exists o' r,
    heap st'.2 !! (Parser_map this f w).1 = Some o' /\
    Parser.name o' = "map" /\
    Parser.children o' = Some [r] /\
    Parser.cacheKey o' = None /\
    Parser.options o' = None /\
    Parser.matcher o' = Some (map_matcher this f [r]) /\
    forall stream index,
      map_matcher this f [r] stream index
      = Schedule (Ref this) index (map_continuation f).
Proof.
  intros Hinv H.
  set (opts := ParserOptions.mk (Some [LParser this]) None false).
  set (self := Parser.mk (ParserId w) "map" (Some opts) (Some (map_matcher this f))
                 None None None None false).
  assert (Hself : heap (fc, (Parser_map this f w).2).2 !! (Parser_map this f w).1
                  = Some self).
  { simpl. by rewrite lookup_app_r, Nat.sub_diag. }
  assert (Hinv1 : cache_inv (fc, (Parser_map this f w).2).2).
  { simpl. by apply (cache_inv_snoc w). }
  destruct (resolve_ext _ _ _ _ _ _ H) as (E1 & _).
  destruct (E1 _ _ Hself) as (o1 & Ho1 & _ & Hname & _).
  destruct (resolve_outcome_cases quote fuel _ _ self opts (map_matcher this f) a st'
              Hinv1 Hself) as (o' & cs & Ho' & Hcs & Hlen & Hcases);
    [done|done|done|exact H|].
  assert (o1 = o') as -> by congruence.
  destruct Hcases as [(-> & Hm & Hopt & _ & Hk & _)|(k & q & _ & _ & _ & _ & _ & _ & _ & Hc)];
    [|done].
  split; [done|]. destruct cs as [|r [|]]; try done.
  exists o', r. split; [done|]. split; [done|]. split; [done|].
  split; [by apply Hk|]. split; [done|]. split; [done|]. done.
Qed.



(** ** [resolve] ends *)





(** ** [run] *)

(** X19. [run()] resolves the consuming parser once: the [resolve()]
    inside [execute()] finds the object already resolved and returns it
    unchanged, so the engine runs on the object the first [resolve()]
    returned, in the state that call left, and its [Match] decides the
    result. *)
Theorem run_resolves_once quote (EngineOptions : Type)
    (Engine_execute : Sequence -> EngineOptions -> jsref -> M World (option Match))
    (chain : loc -> loc -> (value -> value -> value) -> World -> loc * World)
    (simple_end : World -> loc * World)
    fuel this stream (options : EngineOptions) w r st2 :
  cache_inv (consume chain simple_end this w).2 ->
  resolve quote fuel (consume chain simple_end this w).1
    (∅, (consume chain simple_end this w).2) = (Normal (Ref r), st2) ->
  run quote EngineOptions Engine_execute chain simple_end fuel this stream options w
  = (let* rv := Engine_execute stream options (Ref r) in
     match rv with
     | Some (MatchFailure m span) => throw (ParseError m span)
     | Some (MatchSuccess _ v) => ret v
     | None => throw (Error "impossible")
     end) st2.2.
Proof.
  intros Hinv H. unfold run.
  destruct (consume chain simple_end this w) as [c w1]. cbn [fst snd] in *.
  unfold bind at 1, resolve_fresh at 1. rewrite H.
  destruct (resolve_fixed_point _ _ _ _ _ _ _ Hinv H) as (q & [= <-] & Hagain).
  destruct fuel as [|fuel]; [done|].
  unfold execute. unfold bind at 1. unfold bind at 1. unfold resolve_fresh.
  rewrite Hagain. reflexivity.
Qed.

(** ** Worked grammars *)

Lemma ex_world_reachable : reachable ex_quote ex_world.
Proof. unfold ex_world. repeat apply reach_new. apply reach_init. Qed.

Example ex_first_result : ex_first.1 = Normal (Ref 2).
Proof. vm_compute. reflexivity. Qed.

Example ex_second_result : ex_second.1 = Normal (Ref 2).
Proof. vm_compute. reflexivity. Qed.

Example ex_second_key :
  Parser.cacheKey <$> heap ex_second.2.2 !! 3 = Some (Some ex_key).
Proof. vm_compute. reflexivity. Qed.

(** C4. The implicit conversions are not there: a string, a RegExp or an
    array met by [unlazy] throws "unimplemented", and resolving the
    grammar of the "turns strings into parsers" test fails. *)
Theorem implicit_literals_unimplemented quote :
  (forall s st, unlazy (LString s) st = (Throw (Error "unimplemented"), st)) /\
  (forall s st, unlazy (LRegExp s) st = (Throw (Error "unimplemented"), st)) /\
  (forall l st, unlazy (LArray l) st = (Throw (Error "unimplemented"), st)) /\
  resolve quote 2 0 (∅, ex_strings_world)
  = (Throw (Error "unimplemented (inside chain)"), (∅, ex_strings_world)).
Proof. repeat split. Qed.

Lemma ex_world_wf : wf (∅, ex_world).
Proof.
  unfold ex_world. repeat apply wf_newParser; try apply wf_init.
  all: intros l x [= <-] Hx;
    repeat (apply elem_of_cons in Hx as [->|Hx]; [simpl; lia|]);
    by apply elem_of_nil in Hx.
Qed.

Lemma ex_first_wf : wf ex_first.2.
Proof.
  destruct (resolve_total ex_quote 5 2 (∅, ex_world) ex_first.1 ex_first.2)
    as [_ H].
  - apply ex_world_wf.
  - simpl. lia.
  - vm_compute. lia.
  - vm_compute. reflexivity.
  - destruct (H (Ref 2)) as [(Hwf & _) _]; [vm_compute; reflexivity|exact Hwf].
Qed.

Lemma ex_first_cache_inv : cache_inv ex_first.2.2.
Proof.
  apply (reachable_cache_inv ex_quote).
  apply (reach_resolve ex_quote ex_world 4 2 ∅ (Normal (Ref 2)) ex_first.2).
  - apply ex_world_reachable.
  - vm_compute. reflexivity.
Qed.

Lemma ex_two_lazy_reachable :
  reachable ex_quote (resolve ex_quote 3 0 (∅, ex_two_lazy_world)).2.2.
Proof.
  eapply (reach_resolve ex_quote ex_two_lazy_world 3 0 ∅).
  - unfold ex_two_lazy_world. apply reach_new. repeat apply reach_function.
    apply reach_init.
  - apply surjective_pairing.
Qed.

(** ** Witnesses *)

Lemma canonical_identity_witness :
  Ref 2 = Ref 2 /\
  exists q c k, Ref 2 = Ref q /\ __cache ex_second.2.2 !! k = Some q /\
    heap ex_second.2.2 !! q = Some c /\ Parser.cacheKey c = Some k /\
    Parser.cacheKey (default ex_object (heap ex_second.2.2 !! 3)) = Some k /\
    Parser.cacheKey (default ex_object (heap ex_first.2.2 !! 2)) = Some k.
Proof.
  eapply (canonical_identity ex_quote ex_world 2 3
            (default ex_object (heap ex_world !! 2))
            (default ex_object (heap ex_world !! 3))
            (ParserOptions.mk (Some [LParser 0; LParser 1]) None true)
            (ParserOptions.mk (Some [LParser 1; LParser 0]) None true)
            4 4 ∅ ∅ (Ref 2) (Ref 2) ex_first.2 ex_second.2).
  - apply (reachable_cache_inv ex_quote). apply ex_world_reachable.
  - reflexivity.
  - repeat split.
  - vm_compute. reflexivity.
  - repeat split.
  - reflexivity.
  - reflexivity.
  - reflexivity.
  - vm_compute. reflexivity.
  - vm_compute. reflexivity.
  - vm_compute. reflexivity.
  - vm_compute. reflexivity.
  - vm_compute. reflexivity.
  - vm_compute. exact I.
Defined.

Lemma resolve_idempotent_witness :
  resolve ex_quote 1 2 (∅, ex_first.2.2) = (Normal (Ref 2), (∅, ex_first.2.2)).
Proof.
  apply (proj1 (resolve_idempotent ex_quote 2) 4 (∅, ex_world) (Ref 2) ex_first.2).
  vm_compute. reflexivity.
Defined.


Example ex_lazy_calls :
  calls_of (resolve ex_quote 3 0 (∅, ex_lazy_world)).2.2 0 = 1 /\
  (resolve ex_quote 3 0 (∅, ex_lazy_world)).1 = Normal (Ref 0).
Proof. vm_compute. split; reflexivity. Qed.

Lemma cache_key_registered_witness :
  (forall p o k, heap ex_second.2.2 !! p = Some o -> Parser.cacheKey o = Some k ->
     exists q c, __cache ex_second.2.2 !! k = Some q /\
       heap ex_second.2.2 !! q = Some c /\ Parser.cacheKey c = Some k) /\
  (forall p o fuel fc, heap ex_second.2.2 !! p = Some o ->
     is_Some (Parser.cacheKey o) ->
     exists q, resolve ex_quote (S fuel) p (fc, ex_second.2.2)
               = (Normal (Ref q), (fc, ex_second.2.2))) /\
  (forall fuel p fc a st',
     resolve ex_quote fuel p (fc, ex_second.2.2) = (Normal a, st') ->
     exists q c, a = Ref q /\ heap st'.2 !! q = Some c) /\
  (forall fuel p fc,
     wf (fc, ex_second.2.2) -> p < length (heap ex_second.2.2) ->
     measure (fc, ex_second.2.2) < fuel ->
     (exists e st', resolve ex_quote fuel p (fc, ex_second.2.2) = (Throw e, st')) \/
     (exists q c st',
        resolve ex_quote fuel p (fc, ex_second.2.2) = (Normal (Ref q), st') /\
        heap st'.2 !! q = Some c)).
Proof.
  apply (cache_key_registered ex_quote ex_second.2.2).
  apply (reach_resolve ex_quote ex_first.2.2 4 3 ∅ ex_second.1 ex_second.2).
  - apply (reach_resolve ex_quote ex_world 4 2 ∅ ex_first.1 ex_first.2).
    + apply ex_world_reachable.
    + exact (surjective_pairing ex_first).
  - exact (surjective_pairing ex_second).
Defined.

Lemma parser_ids_distinct_witness :
  ids_ok ex_world /\
  (forall p q o o', p <> q -> heap ex_world !! p = Some o ->
     heap ex_world !! q = Some o' -> Parser.id o <> Parser.id o') /\
  (forall n opts g,
     exists o, heap (newParser n opts g ex_world).2 !! (newParser n opts g ex_world).1
               = Some o /\
       Parser.id o = ParserId ex_world /\
       forall q o', heap ex_world !! q = Some o' -> Parser.id o' < Parser.id o).
Proof. apply (parser_ids_distinct ex_quote ex_world). apply ex_world_reachable. Defined.



Lemma run_throws_on_failure_witness :
  run ex_quote unit ex_engine ex_chain ex_end 3 0 [] tt ex_world
  = (Throw (ParseError "Expected end" (mkSpan 0 0)),
     (run ex_quote unit ex_engine ex_chain ex_end 3 0 [] tt ex_world).2).
Proof.
  destruct (run_throws_on_failure ex_quote unit ex_engine ex_chain ex_end
              3 0 [] tt ex_world) as [_ H].
  destruct (H (consume ex_chain ex_end 0 ex_world).1
              (consume ex_chain ex_end 0 ex_world).2
              5
              (resolve_fresh ex_quote 3 5 (consume ex_chain ex_end 0 ex_world).2).2
              (MatchFailure "Expected end" (mkSpan 0 0))
              (run ex_quote unit ex_engine ex_chain ex_end 3 0 [] tt ex_world).2)
    as [H1 _].
  - reflexivity.
  - vm_compute. reflexivity.
  - vm_compute. reflexivity.
  - apply H1. reflexivity.
Defined.

Lemma toString_distinct_witness :
  0 <> 1 /\
  toString (default ex_object (heap ex_world !! 0))
  <> toString (default ex_object (heap ex_world !! 1)).
Proof.
  split; [lia|].
  apply (toString_distinct ex_quote ex_world 0 1);
    [apply ex_world_reachable|reflexivity|reflexivity|lia].
Defined.

Lemma inspect_distinct_witness :
  0 <> 1 /\
  inspect (default ex_object (heap ex_world !! 0))
  <> inspect (default ex_object (heap ex_world !! 1)).
Proof.
  split; [lia|].
  apply (inspect_distinct ex_quote ex_world 0 1);
    [apply ex_world_reachable|reflexivity|reflexivity|lia].
Defined.

Lemma getDescription_terminates_witness :
  exists r w', r <> Abort /\
    (forall fuel, description_fuel ex_first.2.2 <= fuel ->
       getDescription fuel 2 ex_first.2.2 = (r, w')) /\
    (is_normal r = true -> flags w' = flags ex_first.2.2).
Proof.
  apply (getDescription_terminates 2 ex_first.2.2).
  - exact (wf_children ex_first.2 ex_first_wf).
  - vm_compute. lia.
Defined.

Lemma getDescription_described_witness :
  getDescription 2 2 ex_partial_world
  = (Normal "opt:end",
     store 2 (Parser.set_description "opt:end"
                (default ex_object (heap ex_partial_world !! 2)))
       ex_partial_world).
Proof.
  assert (Hall : Forall (described ex_partial_world) [Ref 0]).
  { repeat constructor. eexists 0, _. repeat split; reflexivity. }
  exact (getDescription_described 0 2 ex_partial_world
           (default ex_object (heap ex_partial_world !! 2)) [Ref 0]
           (ParserOptions.mk (Some [LParser 0]) None false)
           eq_refl eq_refl eq_refl eq_refl eq_refl Hall).
Defined.

Lemma getDescription_unresolved_child_witness :
  getDescription 2 3 ex_partial_world
  = (Throw (undefined_error "map"),
     update 1 (Parser.set_recursing true)
       (update 3 (Parser.set_recursing true) ex_partial_world)) /\
  forall fuel',
    getDescription (S fuel') 3
      (update 1 (Parser.set_recursing true)
         (update 3 (Parser.set_recursing true) ex_partial_world))
    = (Normal "...",
       update 1 (Parser.set_recursing true)
         (update 3 (Parser.set_recursing true) ex_partial_world)).
Proof.
  apply (getDescription_unresolved_child 0 3 ex_partial_world
           (default ex_object (heap ex_partial_world !! 3)) [Ref 0] 1 []
           (default ex_object (heap ex_partial_world !! 1)));
    try reflexivity.
  repeat constructor. eexists 0, _. repeat split; reflexivity.
Defined.

Lemma getDescription_memo_witness :
  exists o', heap (getDescription 2 2 ex_partial_world).2 !! 2 = Some o' /\
    Parser.description o' = Some "opt:end" /\
    (truthy "opt:end" = true ->
     forall fuel',
       getDescription (S fuel') 2 (getDescription 2 2 ex_partial_world).2
       = (Normal "opt:end", (getDescription 2 2 ex_partial_world).2)).
Proof.
  apply (getDescription_memo 2 2 ex_partial_world "opt:end"
           (getDescription 2 2 ex_partial_world).2
           (default ex_object (heap ex_partial_world !! 2)));
    vm_compute; reflexivity.
Defined.


Lemma unlazy_idempotent_witness :
  unlazy (LFunction 0) (unlazy (LFunction 0) (∅, ex_lazy_world)).2
  = (Normal 1, (unlazy (LFunction 0) (∅, ex_lazy_world)).2).
Proof.
  apply (unlazy_idempotent (LFunction 0) (∅, ex_lazy_world) 1).
  vm_compute. reflexivity.
Defined.

Lemma function_tags_distinct_witness :
  0 <> 1 /\
  tag (default (mkFunction None (ThrowError EmptyString) EmptyString 0)
         (functions (resolve ex_quote 3 0 (∅, ex_two_lazy_world)).2.2 !! 1))
  <> Some "0" /\
  exists n, n < LazyId (resolve ex_quote 3 0 (∅, ex_two_lazy_world)).2.2 /\
    "0" = pretty n.
Proof.
  split; [lia|].
  apply (function_tags_distinct ex_quote
           (resolve ex_quote 3 0 (∅, ex_two_lazy_world)).2.2 0 1
           (default (mkFunction None (ThrowError EmptyString) EmptyString 0)
              (functions (resolve ex_quote 3 0 (∅, ex_two_lazy_world)).2.2 !! 0)));
    [apply ex_two_lazy_reachable|vm_compute; reflexivity|vm_compute; reflexivity
    |lia|vm_compute; reflexivity].
Defined.

Lemma resolve_outcome_witness :
  exists o' cs, heap ex_second.2.2 !! 3 = Some o' /\ Parser.children o' = Some cs /\
    length cs
    = length (default []
                (ParserOptions.children
                   (ParserOptions.mk (Some [LParser 1; LParser 0]) None true))) /\
    ((Ref 2 = Ref 3 /\ Parser.matcher o' = Some (ex_matcher cs) /\
      Parser.options o' = None /\ Parser.generateMatcher o' = None /\
      (ParserOptions.cacheable
         (ParserOptions.mk (Some [LParser 1; LParser 0]) None true) = false ->
       Parser.cacheKey o' = None) /\
      (forall k, Parser.cacheKey o' = Some k -> __cache ex_second.2.2 !! k = Some 3)) \/
     (exists k q, q <> 3 /\ Ref 2 = Ref q /\ Parser.cacheKey o' = Some k /\
        __cache ex_second.2.2 !! k = Some q /\ Parser.matcher o' = None /\
        Parser.options o'
        = Some (ParserOptions.mk (Some [LParser 1; LParser 0]) None true) /\
        Parser.generateMatcher o' = Some ex_matcher /\
        ParserOptions.cacheable
          (ParserOptions.mk (Some [LParser 1; LParser 0]) None true) = true)).
Proof.
  apply (resolve_outcome ex_quote 4 3 ∅ ex_first.2.2
           (default ex_object (heap ex_first.2.2 !! 3))
           (ParserOptions.mk (Some [LParser 1; LParser 0]) None true)
           ex_matcher (Ref 2) ex_second.2).
  - exact ex_first_cache_inv.
  - vm_compute. reflexivity.
  - split; [|split]; vm_compute; reflexivity.
  - vm_compute. reflexivity.
  - vm_compute. reflexivity.
  - vm_compute. reflexivity.
Defined.

Lemma resolve_result_canonical_witness :
  exists q, Ref 2 = Ref q /\
    forall fuel' fc',
      resolve ex_quote (S fuel') q (fc', ex_first.2.2)
      = (Normal (Ref q), (fc', ex_first.2.2)).
Proof.
  apply (resolve_result_canonical ex_quote ex_world 4 2 ∅ (Ref 2) ex_first.2).
  - apply (reachable_cache_inv ex_quote). apply ex_world_reachable.
  - vm_compute. reflexivity.
Defined.

Lemma resolve_keeps_resolved_witness :
  (forall k q, __cache ex_first.2.2 !! k = Some q ->
     __cache ex_second.2.2 !! k = Some q) /\
  (forall q o, heap ex_first.2.2 !! q = Some o ->
     exists o', heap ex_second.2.2 !! q = Some o' /\
       Parser.id o' = Parser.id o /\ Parser.name o' = Parser.name o /\
       (resolved o ->
        Parser.children o' = Parser.children o /\
        Parser.cacheKey o' = Parser.cacheKey o /\
        Parser.matcher o' = Parser.matcher o /\
        Parser.options o' = Parser.options o /\
        Parser.generateMatcher o' = Parser.generateMatcher o)).
Proof.
  apply (resolve_keeps_resolved ex_quote 4 3 ∅ ex_first.2.2
           (Normal (Ref 2)) ex_second.2).
  vm_compute. reflexivity.
Defined.

Lemma resolve_node_key_witness :
  (forall ks, Forall2 (has_key ex_first.2.2) [Ref 0; Ref 0] ks ->
     let k := Parser.name (default ex_object (heap ex_world !! 2)) +:+ "("
                +:+ String.concat "," (ex_quote <$> ks) +:+ ")" in
     Parser.cacheKey (default ex_object (heap ex_first.2.2 !! 2)) = Some k /\
     exists q, Ref 2 = Ref q /\ __cache ex_first.2.2 !! k = Some q) /\
  (forall pre c post, [Ref 0; Ref 0] = (pre ++ c :: post)%list ->
     Forall (fun c => exists k, has_key ex_first.2.2 c k) pre ->
     keyless ex_first.2.2 c ->
     Parser.cacheKey (default ex_object (heap ex_first.2.2 !! 2)) = None /\
     Ref 2 = Ref 2).
Proof.
  apply (resolve_node_key ex_quote 4 2 ∅ ex_world
           (default ex_object (heap ex_world !! 2))
           (ParserOptions.mk (Some [LParser 0; LParser 1]) None true)
           (Ref 2) ex_first.2).
  - apply (reachable_cache_inv ex_quote). apply ex_world_reachable.
  - reflexivity.
  - repeat split.
  - reflexivity.
  - vm_compute. reflexivity.
  - vm_compute. reflexivity.
  - vm_compute. reflexivity.
  - discriminate.
Defined.




Lemma map_resolve_witness :
  Ref 4 = Ref (Parser_map 0 (Constant VNull) ex_world).1 /\
  exists o' r,
    heap (resolve ex_quote 3 4 (∅, (Parser_map 0 (Constant VNull) ex_world).2)).2.2
      !! (Parser_map 0 (Constant VNull) ex_world).1 = Some o' /\
    Parser.name o' = "map" /\
    Parser.children o' = Some [r] /\
    Parser.cacheKey o' = None /\
    Parser.options o' = None /\
    Parser.matcher o' = Some (map_matcher 0 (Constant VNull) [r]) /\
    forall stream index,
      map_matcher 0 (Constant VNull) [r] stream index
      = Schedule (Ref 0) index (map_continuation (Constant VNull)).
Proof.
  apply (map_resolve ex_quote 3 0 (Constant VNull) ∅ ex_world (Ref 4)
           (resolve ex_quote 3 4 (∅, (Parser_map 0 (Constant VNull) ex_world).2)).2).
  - apply (reachable_cache_inv ex_quote). apply ex_world_reachable.
  - vm_compute. reflexivity.
Defined.

Lemma run_resolves_once_witness :
  run ex_quote unit ex_engine ex_chain ex_end 3 0 [] tt ex_world
  = (let* rv := ex_engine [] tt (Ref 5) in
     match rv with
     | Some (MatchFailure m span) => throw (ParseError m span)
     | Some (MatchSuccess _ v) => ret v
     | None => throw (Error "impossible")
     end)
      (resolve ex_quote 3 (consume ex_chain ex_end 0 ex_world).1
         (∅, (consume ex_chain ex_end 0 ex_world).2)).2.2.
Proof.
  apply (run_resolves_once ex_quote unit ex_engine ex_chain ex_end 3 0 [] tt
           ex_world 5).
  - apply (reachable_cache_inv ex_quote).
    exact (reach_new ex_quote _ "chain"
             (ParserOptions.mk (Some [LParser 0; LParser 4]) None false) ex_matcher
             (reach_new ex_quote _ "end" ex_leaf ex_matcher ex_world_reachable)).
  - vm_compute. reflexivity.
Defined.
